(** * Locale functions of ntdll (dlls/ntdll/locale.c)

    A shallow embedding of the code-page transcoders, the locale registry,
    the UTF-8 codec, the normalization-table loader and the IDN Nameprep
    entry point, with the properties the specification states about them.

    Conventions of the embedding.
    - C integers are [Z]; where a C type wraps (DWORD, USHORT) the wrap is
      written out with [DWORD] / [USHORT].
    - A (pointer, length) source argument is a [list Z] of its elements
      together with the length argument the C function receives.
    - A destination buffer is represented by the list of elements stored
      into it, in address order; elements never stored are not mentioned.
    - A table reached through a pointer (code-page tables, the section
      blob of a normalization form) is a view [Z -> Z] from index to the
      element read there. *)

From Stdlib Require Import ZArith List Lia Bool.
From Equations Require Import Equations.
Import ListNotations.
Local Open Scope Z_scope.

(** ** Status codes and machine integers *)

Inductive NTSTATUS : Type :=
| STATUS_SUCCESS
| STATUS_SOME_NOT_MAPPED
| STATUS_BUFFER_TOO_SMALL
| STATUS_BUFFER_OVERFLOW
| STATUS_UNSUCCESSFUL
| STATUS_NO_MEMORY
| STATUS_INVALID_PARAMETER
| STATUS_INVALID_PARAMETER_1
| STATUS_INVALID_PARAMETER_2
| STATUS_INVALID_PARAMETER_4
| STATUS_INVALID_PARAMETER_5
| STATUS_OBJECT_NAME_NOT_FOUND
| STATUS_NO_UNICODE_TRANSLATION
| STATUS_INVALID_IDN_NORMALIZATION.

Definition NTSTATUS_eq_dec (a b : NTSTATUS) : {a = b} + {a <> b}.
Proof. decide equality. Defined.

(** [if (status)] in C: any status other than STATUS_SUCCESS (0). *)
Definition failed (s : NTSTATUS) : bool :=
  if NTSTATUS_eq_dec s STATUS_SUCCESS then false else true.

Definition DWORD (x : Z) : Z := x mod 2 ^ 32.
Definition USHORT (x : Z) : Z := x mod 2 ^ 16.
(** A store through a [char *]: the low eight bits. *)
Definition to_char (x : Z) : Z := Z.land x 0xff.

Definition sizeof_WCHAR : Z := 2.

Definition len (A : Type) (l : list A) : Z := Z.of_nat (length l).
Arguments len {A} l.

(** What a conversion routine hands back: the status, the value stored
    through [reslen] (when that pointer is not NULL) and the elements
    stored into [dst]. *)
Record conv_result : Type := mk_conv {
  status : NTSTATUS;
  res_len : Z;
  written : list Z
}.

(** ** Code-page tables *)

Module CodePage.

(** CPTABLEINFO, with its table pointers as views.  [WideCharTable] is a
    [void *]: a double-byte page reads it as WCHAR entries, a single-byte
    page as char entries.  [DBCSOffsets] is NULL ([None]) on a
    single-byte page. *)
Record CPTABLEINFO : Type := {
  CodePage : Z;
  MaximumCharacterSize : Z;
  DefaultChar : Z;
  UniDefaultChar : Z;
  TransDefaultChar : Z;
  TransUniDefaultChar : Z;
  DBCSCodePage : Z;
  MultiByteTable : Z -> Z;
  WideCharTable : Z -> Z;
  DBCSOffsets : option (Z -> Z)
}.

(** The walk of [mbtowc_size] over a double-byte page:
    [for (res = 0; len; len--, str++, res++)
       if (info->DBCSOffsets[*str] && len > 1) { str++; len--; }] *)
Fixpoint mbtowc_walk (offs : Z -> Z) (str : list Z) (res : Z) : Z :=
  match str with
  | [] => res
  | c :: rest =>
      match rest with
      | _ :: rest' =>
          if offs c =? 0 then mbtowc_walk offs rest (DWORD (res + 1))
          else mbtowc_walk offs rest' (DWORD (res + 1))
      | [] => mbtowc_walk offs rest (DWORD (res + 1))
      end
  end.

(** [mbtowc_size]: [str] holds the [len] bytes of the argument.  The
    double-byte branch dereferences [DBCSOffsets]; a page with the flag
    set and a NULL offsets pointer is outside what RtlInitCodePageTable
    builds, and the walk then sees no lead byte. *)
Definition mbtowc_size (info : CPTABLEINFO) (str : list Z) : Z :=
  if DBCSCodePage info =? 0 then len str
  else match DBCSOffsets info with
       | Some offs => mbtowc_walk offs str 0
       | None => mbtowc_walk (fun _ => 0) str 0
       end.

(** [wctomb_size]. *)
Fixpoint wctomb_walk (uni2cp : Z -> Z) (str : list Z) (res : Z) : Z :=
  match str with
  | [] => res
  | c :: rest =>
      if Z.land (uni2cp c) 0xff00 =? 0
      then wctomb_walk uni2cp rest (DWORD (res + 1))
      else wctomb_walk uni2cp rest (DWORD (DWORD (res + 1) + 1))
  end.

Definition wctomb_size (info : CPTABLEINFO) (str : list Z) : Z :=
  if DBCSCodePage info =? 0 then len str
  else wctomb_walk (WideCharTable info) str 0.

(** The double-byte loop of RtlCustomCPToUnicodeN,
    [for (i = dstlen; srclen && i; i--, srclen--, src++, dst++)];
    returns the code units stored and the final [i]. *)
Fixpoint cp_to_unicode_dbcs (mb offs : Z -> Z) (i : Z) (src : list Z)
  : list Z * Z :=
  match src with
  | [] => ([], i)
  | c :: rest =>
      if i =? 0 then ([], i)
      else
        let off := offs c in
        match rest with
        | t :: rest' =>
            if off =? 0
            then let (out, i') := cp_to_unicode_dbcs mb offs (i - 1) rest in
                 (mb c :: out, i')
            else let (out, i') := cp_to_unicode_dbcs mb offs (i - 1) rest' in
                 (offs (off + t) :: out, i')
        | [] =>
            let (out, i') := cp_to_unicode_dbcs mb offs (i - 1) rest in
            (mb c :: out, i')
        end
  end.

(** RtlCustomCPToUnicodeN.  [dstlen] and [srclen] are the byte counts the
    caller passes; [src] holds at least [srclen] bytes. *)
Definition RtlCustomCPToUnicodeN (info : CPTABLEINFO) (dstlen : Z)
    (src : list Z) (srclen : Z) : conv_result :=
  let src := firstn (Z.to_nat srclen) src in
  let dstlen := dstlen / sizeof_WCHAR in
  match DBCSOffsets info with
  | Some offs =>
      let (out, i) := cp_to_unicode_dbcs (MultiByteTable info) offs dstlen src in
      let ret := DWORD (dstlen - i) in
      mk_conv STATUS_SUCCESS (DWORD (ret * sizeof_WCHAR)) out
  | None =>
      let ret := Z.min srclen dstlen in
      mk_conv STATUS_SUCCESS (DWORD (ret * sizeof_WCHAR))
              (map (MultiByteTable info) (firstn (Z.to_nat ret) src))
  end.

(** The double-byte loop of RtlUnicodeToCustomCPN,
    [for (i = dstlen; srclen && i; i--, srclen--, src++)]. *)
Fixpoint unicode_to_cp_dbcs (uni2cp : Z -> Z) (i : Z) (src : list Z)
  : list Z * Z :=
  match src with
  | [] => ([], i)
  | c :: rest =>
      if i =? 0 then ([], i)
      else if Z.land (uni2cp c) 0xff00 =? 0
      then let (out, i') := unicode_to_cp_dbcs uni2cp (i - 1) rest in
           (to_char (uni2cp c) :: out, i')
      else if i =? 1 then ([], i)  (* do not output a partial char *)
      else let (out, i') := unicode_to_cp_dbcs uni2cp (i - 1 - 1) rest in
           (to_char (Z.shiftr (uni2cp c) 8) :: to_char (uni2cp c) :: out, i')
  end.

(** RtlUnicodeToCustomCPN.  [src] holds code units, [srclen] is in bytes. *)
Definition RtlUnicodeToCustomCPN (info : CPTABLEINFO) (dstlen : Z)
    (src : list Z) (srclen : Z) : conv_result :=
  let srclen := srclen / sizeof_WCHAR in
  let src := firstn (Z.to_nat srclen) src in
  if DBCSCodePage info =? 0
  then
    let ret := Z.min srclen dstlen in
    mk_conv STATUS_SUCCESS ret
            (map (fun c => to_char (WideCharTable info c))
                 (firstn (Z.to_nat ret) src))
  else
    let (out, i) := unicode_to_cp_dbcs (WideCharTable info) dstlen src in
    mk_conv STATUS_SUCCESS (DWORD (dstlen - i)) out.

(** The process-wide ANSI table [nls_info.AnsiTableInfo]: [None] is the
    zero-initialised structure before RtlResetRtlTranslations has run
    (every pointer NULL, DBCSCodePage 0). *)
Definition nls_table := option CPTABLEINFO.

(** RtlMultiByteToUnicodeN. *)
Definition RtlMultiByteToUnicodeN (ansi : nls_table) (dstlen : Z)
    (src : list Z) (srclen : Z) : conv_result :=
  match ansi with
  | Some info => RtlCustomCPToUnicodeN info dstlen src srclen
  | None =>
      (* locale not setup yet *)
      let dstlen := Z.min srclen (dstlen / sizeof_WCHAR) in
      mk_conv STATUS_SUCCESS (DWORD (dstlen * sizeof_WCHAR))
              (map (fun c => Z.land c 0x7f) (firstn (Z.to_nat dstlen) src))
  end.

(** RtlMultiByteToUnicodeSize: the status and the value stored in [*size]. *)
Definition RtlMultiByteToUnicodeSize (ansi : nls_table) (str : list Z)
    (len : Z) : NTSTATUS * Z :=
  let str := firstn (Z.to_nat len) str in
  let n := match ansi with
           | Some info => mbtowc_size info str
           | None => len
           end in
  (STATUS_SUCCESS, DWORD (n * sizeof_WCHAR)).

(** A double-byte page as RtlInitCodePageTable sets one up: the flag is
    set and the offsets pointer is not NULL. *)
Definition is_dbcs (info : CPTABLEINFO) : Prop :=
  DBCSCodePage info <> 0 /\ DBCSOffsets info <> None.

(** A single-byte page: flag clear and offsets pointer NULL. *)
Definition is_sbcs (info : CPTABLEINFO) : Prop :=
  DBCSCodePage info = 0 /\ DBCSOffsets info = None.

(** The bytes one code unit stands for on a double-byte page: one byte,
    or lead and trail byte when the table entry has a high byte. *)
Definition mb_seq (uni2cp : Z -> Z) (c : Z) : list Z :=
  if Z.land (uni2cp c) 0xff00 =? 0 then [to_char (uni2cp c)]
  else [to_char (Z.shiftr (uni2cp c) 8); to_char (uni2cp c)].

Definition is_double (uni2cp : Z -> Z) (c : Z) : Prop :=
  Z.land (uni2cp c) 0xff00 <> 0.

(** Sample pages for the concrete checks: Latin-1 style single-byte page,
    and a double-byte page with lead bytes 0x81..0x9f whose rows start at
    offset 256 * (lead - 0x80), mapping U+3042 to the pair 82 A0. *)
Definition sample_sbcs : CPTABLEINFO := {|
  CodePage := 28591; MaximumCharacterSize := 1;
  DefaultChar := 63; UniDefaultChar := 63;
  TransDefaultChar := 63; TransUniDefaultChar := 63;
  DBCSCodePage := 0;
  MultiByteTable := fun b => b;
  WideCharTable := fun c => if c <? 256 then c else 63;
  DBCSOffsets := None |}.

Definition sample_dbcs_offsets (i : Z) : Z :=
  if i <? 256 then
    (if (0x81 <=? i) && (i <=? 0x9f) then 256 * (i - 0x80) else 0)
  else if i =? 256 * 2 + 0xa0 then 0x3042
  else 0x30fb.

Definition sample_dbcs : CPTABLEINFO := {|
  CodePage := 932; MaximumCharacterSize := 2;
  DefaultChar := 63; UniDefaultChar := 0x30fb;
  TransDefaultChar := 63; TransUniDefaultChar := 63;
  DBCSCodePage := 1;
  MultiByteTable := fun b => if b <? 0x80 then b else 0x30fb;
  WideCharTable := fun c => if c <? 0x80 then c
                            else if c =? 0x3042 then 0x82a0 else 63;
  DBCSOffsets := Some sample_dbcs_offsets |}.

End CodePage.

(** ** Facts about the code-page transcoders *)

Module CodePageFacts.
Import CodePage.

Lemma firstn_len {A : Type} (l : list A) :
  firstn (Z.to_nat (len l)) l = l.
Proof. unfold len. rewrite Nat2Z.id. apply firstn_all. Qed.

Lemma len_nonneg {A : Type} (l : list A) : 0 <= len l.
Proof. unfold len. lia. Qed.

Lemma len_cons {A : Type} (a : A) (l : list A) : len (a :: l) = len l + 1.
Proof. unfold len. simpl length. lia. Qed.

Lemma len_nil {A : Type} : len (@nil A) = 0.
Proof. reflexivity. Qed.

Lemma len_app {A : Type} (l1 l2 : list A) : len (l1 ++ l2) = len l1 + len l2.
Proof. unfold len. rewrite length_app. lia. Qed.

Lemma DWORD_small (x : Z) : 0 <= x < 2 ^ 32 -> DWORD x = x.
Proof. intros H. unfold DWORD. apply Z.mod_small. exact H. Qed.

Create Rewrite HintDb len.
#[local] Hint Rewrite @len_cons @len_nil @len_app : len.

(** *** The size walk and the writing walk of the narrow-to-wide side *)

Section NarrowToWide.
Variables mb offs : Z -> Z.

(** The number of code units of a byte string, without the DWORD wrap. *)
Fixpoint mb_units (str : list Z) : Z :=
  match str with
  | [] => 0
  | c :: rest =>
      match rest with
      | _ :: rest' => if offs c =? 0 then 1 + mb_units rest
                      else 1 + mb_units rest'
      | [] => 1 + mb_units rest
      end
  end.

Lemma mb_units_bounds_aux (n : nat) :
  forall str, (length str <= n)%nat -> 0 <= mb_units str <= len str.
Proof.
  induction n as [|n IH]; intros str Hn.
  - destruct str; simpl in Hn; [cbn; lia | lia].
  - destruct str as [|c [|t rest']]; [cbn; lia | cbn; lia |].
    assert (H1 : 0 <= mb_units (t :: rest') <= len (t :: rest'))
      by (apply IH; cbn [length] in *; lia).
    assert (H2 : 0 <= mb_units rest' <= len rest')
      by (apply IH; cbn [length] in *; lia).
    change (mb_units (c :: t :: rest'))
      with (if offs c =? 0 then 1 + mb_units (t :: rest')
            else 1 + mb_units rest').
    autorewrite with len in *. destruct (offs c =? 0); lia.
Qed.

Lemma mb_units_bounds (str : list Z) : 0 <= mb_units str <= len str.
Proof. apply (mb_units_bounds_aux (length str)). lia. Qed.

Lemma mbtowc_walk_units_aux (n : nat) :
  forall str res, (length str <= n)%nat ->
    0 <= res -> res + len str < 2 ^ 32 ->
    mbtowc_walk offs str res = res + mb_units str.
Proof.
  induction n as [|n IH]; intros str res Hn Hres Hlen.
  - destruct str; simpl in Hn; [cbn; lia | lia].
  - destruct str as [|c [|t rest']]; [cbn; lia | |].
    + cbn. autorewrite with len in Hlen. rewrite DWORD_small; lia.
    + change (mbtowc_walk offs (c :: t :: rest') res)
        with (if offs c =? 0
              then mbtowc_walk offs (t :: rest') (DWORD (res + 1))
              else mbtowc_walk offs rest' (DWORD (res + 1))).
      change (mb_units (c :: t :: rest'))
        with (if offs c =? 0 then 1 + mb_units (t :: rest')
              else 1 + mb_units rest').
      autorewrite with len in Hlen.
      pose proof (len_nonneg rest').
      rewrite DWORD_small by lia.
      destruct (offs c =? 0).
      * rewrite IH; autorewrite with len; cbn [length] in *; lia.
      * rewrite IH; cbn [length] in *; lia.
Qed.

Lemma mbtowc_walk_units (str : list Z) :
  len str < 2 ^ 32 -> mbtowc_walk offs str 0 = mb_units str.
Proof.
  intros H. rewrite (mbtowc_walk_units_aux (length str)); lia.
Qed.

Lemma cp_to_unicode_dbcs_fits_aux (n : nat) :
  forall str i, (length str <= n)%nat -> mb_units str <= i ->
    len (fst (cp_to_unicode_dbcs mb offs i str)) = mb_units str /\
    snd (cp_to_unicode_dbcs mb offs i str) = i - mb_units str.
Proof.
  induction n as [|n IH]; intros str i Hn Hi.
  - destruct str; simpl in Hn; [cbn; split; lia | lia].
  - destruct str as [|c [|t rest']]; [cbn; split; lia | |].
    + cbn in *. destruct (i =? 0) eqn:E; [lia|]. cbn. split; lia.
    + pose proof (mb_units_bounds (t :: rest')) as B1.
      pose proof (mb_units_bounds rest') as B2.
      revert Hi.
      change (mb_units (c :: t :: rest'))
        with (if offs c =? 0 then 1 + mb_units (t :: rest')
              else 1 + mb_units rest').
      change (cp_to_unicode_dbcs mb offs i (c :: t :: rest'))
        with (if i =? 0 then ([], i)
              else if offs c =? 0
              then let (out, i') :=
                     cp_to_unicode_dbcs mb offs (i - 1) (t :: rest') in
                   (mb c :: out, i')
              else let (out, i') :=
                     cp_to_unicode_dbcs mb offs (i - 1) rest' in
                   (offs (offs c + t) :: out, i')).
      intros Hi.
      destruct (i =? 0) eqn:E; [destruct (offs c =? 0); lia|].
      destruct (offs c =? 0).
      * destruct (IH (t :: rest') (i - 1)) as [H1 H2];
          [cbn [length] in *; lia | lia |].
        destruct (cp_to_unicode_dbcs mb offs (i - 1) (t :: rest')).
        cbn [fst snd] in *. autorewrite with len. split; lia.
      * destruct (IH rest' (i - 1)) as [H1 H2];
          [cbn [length] in *; lia | lia |].
        destruct (cp_to_unicode_dbcs mb offs (i - 1) rest').
        cbn [fst snd] in *. autorewrite with len. split; lia.
Qed.

Lemma cp_to_unicode_dbcs_fits (str : list Z) (i : Z) :
  mb_units str <= i ->
  len (fst (cp_to_unicode_dbcs mb offs i str)) = mb_units str /\
  snd (cp_to_unicode_dbcs mb offs i str) = i - mb_units str.
Proof. apply (cp_to_unicode_dbcs_fits_aux (length str)). lia. Qed.

(** A lead byte that is the last byte of the string is counted as one
    unit and resolved through the single-byte table. *)
Lemma trailing_lead_byte (lead : Z) (i : Z) :
  i <> 0 ->
  mbtowc_walk offs [lead] 0 = 1 /\
  cp_to_unicode_dbcs mb offs i [lead] = ([mb lead], i - 1).
Proof.
  intros Hi. cbn. destruct (i =? 0) eqn:E; [lia|]. split; reflexivity.
Qed.
End NarrowToWide.

(** C5.  On a double-byte page the size-only computation
    (mbtowc_size, RtlMultiByteToUnicodeSize) returns exactly the number of
    code units RtlCustomCPToUnicodeN stores when the destination is large
    enough, for every byte string; a lead byte in last position counts as
    one unit in both. *)
Theorem mbtowc_size_agrees_with_conversion :
  forall (info : CPTABLEINFO) (src : list Z) (dstlen : Z),
    is_dbcs info ->
    len src < 2 ^ 32 ->
    0 <= dstlen < 2 ^ 32 ->
    mbtowc_size info src <= dstlen / sizeof_WCHAR ->
    let r := RtlCustomCPToUnicodeN info dstlen src (len src) in
    status r = STATUS_SUCCESS /\
    len (written r) = mbtowc_size info src /\
    res_len r = snd (RtlMultiByteToUnicodeSize (Some info) src (len src)) /\
    res_len r = mbtowc_size info src * sizeof_WCHAR.
Proof.
  intros info src dstlen [Hflag Hoffs] Hsrc Hdst Hfit r. subst r.
  unfold RtlCustomCPToUnicodeN, RtlMultiByteToUnicodeSize, mbtowc_size in *.
  rewrite firstn_len.
  destruct (DBCSCodePage info =? 0) eqn:E; [lia|].
  destruct (DBCSOffsets info) as [offs|]; [|congruence].
  rewrite mbtowc_walk_units in * by assumption.
  pose proof (mb_units_bounds offs src) as B.
  destruct (cp_to_unicode_dbcs_fits (MultiByteTable info) offs src
              (dstlen / sizeof_WCHAR) Hfit) as [H1 H2].
  destruct (cp_to_unicode_dbcs (MultiByteTable info) offs
              (dstlen / sizeof_WCHAR) src) as [out i].
  cbn [fst snd status res_len written] in *. subst i.
  unfold sizeof_WCHAR in *.
  replace (dstlen / 2 - (dstlen / 2 - mb_units offs src))
    with (mb_units offs src) by lia.
  assert (Hd : dstlen / 2 < 2 ^ 31) by (apply Z.div_lt_upper_bound; lia).
  rewrite (DWORD_small (mb_units offs src)) by lia.
  rewrite DWORD_small by lia.
  repeat split; auto.
Qed.

(** The theorem applied to the bytes 41 82 A0 81 of the sample page: the
    final 81 is a lead byte without a trail byte. *)
Lemma mbtowc_size_agrees_with_conversion_witness :
  let r := RtlCustomCPToUnicodeN sample_dbcs 6 [0x41; 0x82; 0xa0; 0x81] 4 in
  status r = STATUS_SUCCESS /\
  len (written r) = mbtowc_size sample_dbcs [0x41; 0x82; 0xa0; 0x81] /\
  res_len r =
    snd (RtlMultiByteToUnicodeSize (Some sample_dbcs) [0x41; 0x82; 0xa0; 0x81] 4) /\
  res_len r = mbtowc_size sample_dbcs [0x41; 0x82; 0xa0; 0x81] * sizeof_WCHAR.
Proof.
  apply (mbtowc_size_agrees_with_conversion sample_dbcs
           [0x41; 0x82; 0xa0; 0x81] 6).
  - split; cbn; [lia | discriminate].
  - vm_compute. reflexivity.
  - lia.
  - vm_compute. discriminate.
Defined.

Example trailing_lead_byte_sample :
  RtlCustomCPToUnicodeN sample_dbcs 6 [0x41; 0x82; 0xa0; 0x81] 4
  = mk_conv STATUS_SUCCESS 6 [0x41; 0x3042; 0x30fb].
Proof. vm_compute. reflexivity. Qed.

(** *** The wide-to-narrow side *)

Section WideToNarrow.
Variable uni2cp : Z -> Z.

Local Abbreviation bytes_of := (flat_map (mb_seq uni2cp)).

Lemma mb_seq_len (c : Z) : 1 <= len (mb_seq uni2cp c) <= 2.
Proof. unfold mb_seq. destruct (_ =? 0); cbn; lia. Qed.

Lemma mb_seq_double (c : Z) :
  is_double uni2cp c -> len (mb_seq uni2cp c) = 2.
Proof.
  unfold is_double, mb_seq. intros H.
  destruct (Z.eqb_spec (Z.land (uni2cp c) 0xff00) 0); [contradiction|].
  reflexivity.
Qed.

(** While the bytes of a prefix fit, the loop stores exactly them and
    goes on with the rest of the input. *)
Lemma unicode_to_cp_dbcs_prefix (pre tail : list Z) :
  forall i, len (bytes_of pre) <= i ->
    unicode_to_cp_dbcs uni2cp i (pre ++ tail) =
    (bytes_of pre ++ fst (unicode_to_cp_dbcs uni2cp (i - len (bytes_of pre)) tail),
     snd (unicode_to_cp_dbcs uni2cp (i - len (bytes_of pre)) tail)).
Proof.
  induction pre as [|c pre IH]; intros i Hi.
  - cbn [app flat_map]. rewrite len_nil, Z.sub_0_r.
    destruct (unicode_to_cp_dbcs uni2cp i tail); reflexivity.
  - cbn [flat_map] in *. rewrite len_app in *.
    pose proof (len_nonneg (bytes_of pre)) as Hp.
    cbn [app unicode_to_cp_dbcs].
    destruct (Z.eqb_spec i 0) as [->|Hi0].
    { pose proof (mb_seq_len c). lia. }
    destruct (Z.land (uni2cp c) 0xff00 =? 0) eqn:E.
    + assert (Hseq : mb_seq uni2cp c = [to_char (uni2cp c)])
        by (unfold mb_seq; rewrite E; reflexivity).
      rewrite Hseq in *. rewrite len_cons, len_nil in *.
      rewrite IH by lia. cbn [fst snd app].
      replace (i - (0 + 1 + len (bytes_of pre)))
        with (i - 1 - len (bytes_of pre)) by lia.
      reflexivity.
    + assert (Hseq : mb_seq uni2cp c =
                     [to_char (Z.shiftr (uni2cp c) 8); to_char (uni2cp c)])
        by (unfold mb_seq; rewrite E; reflexivity).
      rewrite Hseq in *. rewrite !len_cons, len_nil in *.
      destruct (Z.eqb_spec i 1); [lia|].
      rewrite IH by lia. cbn [fst snd app].
      replace (i - (0 + 1 + 1 + len (bytes_of pre)))
        with (i - 1 - 1 - len (bytes_of pre)) by lia.
      reflexivity.
Qed.

(** Whatever the room, the bytes stored are those of a whole number of
    code units; the loop stops early only with no room left, or with
    one byte left in front of a two-byte sequence. *)
Lemma unicode_to_cp_dbcs_whole (src : list Z) :
  forall i, 0 <= i ->
    exists k : nat,
      (k <= length src)%nat /\
      fst (unicode_to_cp_dbcs uni2cp i src) = bytes_of (firstn k src) /\
      snd (unicode_to_cp_dbcs uni2cp i src)
        = i - len (bytes_of (firstn k src)) /\
      0 <= snd (unicode_to_cp_dbcs uni2cp i src) /\
      ((k < length src)%nat ->
       snd (unicode_to_cp_dbcs uni2cp i src) = 0 \/
       (snd (unicode_to_cp_dbcs uni2cp i src) = 1 /\
        is_double uni2cp (nth k src 0))).
Proof.
  induction src as [|c rest IH]; intros i Hi.
  - exists 0%nat. cbn. repeat split; try lia.
  - cbn [unicode_to_cp_dbcs].
    destruct (Z.eqb_spec i 0) as [->|Hi0].
    { exists 0%nat. cbn. repeat split; try lia. }
    destruct (Z.eqb_spec (Z.land (uni2cp c) 0xff00) 0) as [Hs|Hd].
    + destruct (IH (i - 1)) as (k & Hk & Ho & Hi' & Hpos & Hstop); [lia|].
      exists (S k).
      destruct (unicode_to_cp_dbcs uni2cp (i - 1) rest) as [out i'].
      cbn [fst snd firstn flat_map nth length] in *.
      unfold mb_seq at 1 3. rewrite Hs. cbn [Z.eqb app].
      rewrite !len_cons. subst out i'.
      repeat split; try lia. intros Hlt. apply Hstop. lia.
    + destruct (Z.eqb_spec i 1) as [->|Hi1].
      { exists 0%nat. cbn. repeat split; try lia. right. split; auto. }
      destruct (IH (i - 1 - 1)) as (k & Hk & Ho & Hi' & Hpos & Hstop); [lia|].
      exists (S k).
      destruct (unicode_to_cp_dbcs uni2cp (i - 1 - 1) rest) as [out i'].
      cbn [fst snd firstn flat_map nth length] in *.
      unfold mb_seq at 1 3.
      destruct (Z.eqb_spec (Z.land (uni2cp c) 0xff00) 0); [contradiction|].
      cbn [app]. rewrite !len_cons. subst out i'.
      repeat split; try lia. intros Hlt. apply Hstop. lia.
Qed.
End WideToNarrow.

Lemma srclen_units {A : Type} (l : list A) :
  len l * sizeof_WCHAR / sizeof_WCHAR = len l.
Proof. unfold sizeof_WCHAR. apply Z.div_mul. lia. Qed.

(** C2.  On a double-byte page, when exactly one byte of the destination is
    left and the next code unit maps to two bytes, RtlUnicodeToCustomCPN
    stops before that code unit: the bytes stored are those of the code
    units before it, the reported length is the shorter [dstlen - 1], and
    no lead byte is stored for the code unit that did not fit. *)
Theorem unicode_to_cp_stops_before_partial_char :
  forall (info : CPTABLEINFO) (dstlen : Z) (pre : list Z) (c : Z)
         (rest : list Z),
    is_dbcs info ->
    dstlen < 2 ^ 32 ->
    len (flat_map (mb_seq (WideCharTable info)) pre) = dstlen - 1 ->
    is_double (WideCharTable info) c ->
    RtlUnicodeToCustomCPN info dstlen (pre ++ c :: rest)
      (len (pre ++ c :: rest) * sizeof_WCHAR)
    = mk_conv STATUS_SUCCESS (dstlen - 1)
              (flat_map (mb_seq (WideCharTable info)) pre).
Proof.
  intros info dstlen pre c rest [Hflag _] Hmax Hroom Hc.
  unfold RtlUnicodeToCustomCPN.
  rewrite srclen_units, firstn_len.
  destruct (Z.eqb_spec (DBCSCodePage info) 0); [contradiction|].
  rewrite unicode_to_cp_dbcs_prefix by lia.
  rewrite Hroom. replace (dstlen - (dstlen - 1)) with 1 by lia.
  cbn [unicode_to_cp_dbcs Z.eqb].
  unfold is_double in Hc.
  destruct (Z.eqb_spec (Z.land (WideCharTable info c) 0xff00) 0);
    [contradiction|].
  cbn [fst snd Pos.eqb]. rewrite app_nil_r.
  pose proof (len_nonneg (flat_map (mb_seq (WideCharTable info)) pre)).
  rewrite DWORD_small by lia. reflexivity.
Qed.

(** The theorem on the sample page: two bytes of room, "A" then U+3042. *)
Lemma unicode_to_cp_stops_before_partial_char_witness :
  RtlUnicodeToCustomCPN sample_dbcs 2 ([0x41] ++ 0x3042 :: [0x42])
    (len ([0x41] ++ 0x3042 :: [0x42]) * sizeof_WCHAR)
  = mk_conv STATUS_SUCCESS (2 - 1)
            (flat_map (mb_seq (WideCharTable sample_dbcs)) [0x41]).
Proof.
  apply (unicode_to_cp_stops_before_partial_char sample_dbcs 2 [0x41] 0x3042
           [0x42]).
  - split; cbn; [lia | discriminate].
  - lia.
  - reflexivity.
  - unfold is_double. cbn. lia.
Defined.

(** C6, as the code has it.  On a double-byte page RtlUnicodeToCustomCPN
    returns STATUS_SUCCESS on every input: it has no status for a full
    destination and none for unmappable input.  The bytes stored are those
    of a whole number of code units, the reported length is their count,
    and the walk stops early only when no byte is left or when one byte is
    left in front of a code unit that needs two. *)
Theorem unicode_to_cp_truncation_is_silent :
  forall (info : CPTABLEINFO) (dstlen : Z) (src : list Z),
    is_dbcs info ->
    0 <= dstlen < 2 ^ 32 ->
    let r := RtlUnicodeToCustomCPN info dstlen src (len src * sizeof_WCHAR) in
    status r = STATUS_SUCCESS /\
    exists k : nat,
      (k <= length src)%nat /\
      written r = flat_map (mb_seq (WideCharTable info)) (firstn k src) /\
      res_len r = len (written r) /\
      res_len r <= dstlen /\
      ((k < length src)%nat ->
       dstlen - res_len r = 0 \/
       (dstlen - res_len r = 1 /\
        is_double (WideCharTable info) (nth k src 0))).
Proof.
  intros info dstlen src [Hflag _] Hd r. subst r.
  unfold RtlUnicodeToCustomCPN.
  rewrite srclen_units, firstn_len.
  destruct (Z.eqb_spec (DBCSCodePage info) 0); [contradiction|].
  destruct (unicode_to_cp_dbcs_whole (WideCharTable info) src dstlen)
    as (k & Hk & Ho & Hi & Hpos & Hstop); [lia|].
  destruct (unicode_to_cp_dbcs (WideCharTable info) dstlen src) as [out i].
  cbn [fst snd status res_len written] in *.
  split; [reflexivity|]. exists k. subst out i.
  pose proof (len_nonneg
                (flat_map (mb_seq (WideCharTable info)) (firstn k src))).
  rewrite DWORD_small by lia.
  repeat split; try lia. intros Hlt. destruct (Hstop Hlt) as [H0|[H1 H2]].
  - left. lia.
  - right. split; [lia | assumption].
Qed.

Lemma unicode_to_cp_truncation_is_silent_witness :
  let r := RtlUnicodeToCustomCPN sample_dbcs 2 [0x41; 0x3042]
             (len [0x41; 0x3042] * sizeof_WCHAR) in
  status r = STATUS_SUCCESS /\
  exists k : nat,
    (k <= length [0x41; 0x3042])%nat /\
    written r = flat_map (mb_seq (WideCharTable sample_dbcs))
                  (firstn k [0x41; 0x3042]) /\
    res_len r = len (written r) /\
    res_len r <= 2 /\
    ((k < length [0x41; 0x3042])%nat ->
     2 - res_len r = 0 \/
     (2 - res_len r = 1 /\
      is_double (WideCharTable sample_dbcs) (nth k [0x41; 0x3042] 0))).
Proof.
  apply (unicode_to_cp_truncation_is_silent sample_dbcs 2 [0x41; 0x3042]).
  - split; cbn; [lia | discriminate].
  - lia.
Defined.

(** C6 as stated fails: with one byte of room in front of a two-byte
    sequence the status is STATUS_SUCCESS, not an overflow status, and it
    is the same status an unmappable code unit with ample room gets. *)
Lemma unicode_to_cp_overflow_status_counterexample :
  is_dbcs sample_dbcs /\
  is_double (WideCharTable sample_dbcs) 0x3042 /\
  RtlUnicodeToCustomCPN sample_dbcs 1 [0x3042] 2
    = mk_conv STATUS_SUCCESS 0 [] /\
  status (RtlUnicodeToCustomCPN sample_dbcs 1 [0x3042] 2)
    <> STATUS_BUFFER_TOO_SMALL /\
  status (RtlUnicodeToCustomCPN sample_dbcs 1 [0x3042] 2)
    <> STATUS_BUFFER_OVERFLOW /\
  status (RtlUnicodeToCustomCPN sample_dbcs 8 [0x20ac] 2)
    = status (RtlUnicodeToCustomCPN sample_dbcs 1 [0x3042] 2).
Proof.
  repeat split; try (vm_compute; congruence).
Qed.

(** *** Zero destination length *)

(** C4, as the code has it.  With destination length 0 the narrow-to-wide
    conversion of a five-byte string on a single-byte page returns
    STATUS_SUCCESS, stores nothing and reports length 0; the required
    length, five code units (ten bytes), is what the separate size routine
    RtlMultiByteToUnicodeSize returns. *)
Theorem zero_dstlen_reports_zero :
  forall (info : CPTABLEINFO) (src : list Z),
    is_sbcs info ->
    len src = 5 ->
    RtlCustomCPToUnicodeN info 0 src 5 = mk_conv STATUS_SUCCESS 0 [] /\
    RtlMultiByteToUnicodeN (Some info) 0 src 5
      = mk_conv STATUS_SUCCESS 0 [] /\
    RtlMultiByteToUnicodeSize (Some info) src 5
      = (STATUS_SUCCESS, 5 * sizeof_WCHAR).
Proof.
  intros info src [Hflag Hoffs] Hlen.
  unfold RtlMultiByteToUnicodeN, RtlCustomCPToUnicodeN,
    RtlMultiByteToUnicodeSize, mbtowc_size.
  rewrite Hoffs, Hflag, <- Hlen, firstn_len, Hlen.
  repeat split.
Qed.

Lemma zero_dstlen_reports_zero_witness :
  RtlCustomCPToUnicodeN sample_sbcs 0 [104; 101; 108; 108; 111] 5
    = mk_conv STATUS_SUCCESS 0 [] /\
  RtlMultiByteToUnicodeN (Some sample_sbcs) 0 [104; 101; 108; 108; 111] 5
    = mk_conv STATUS_SUCCESS 0 [] /\
  RtlMultiByteToUnicodeSize (Some sample_sbcs) [104; 101; 108; 108; 111] 5
    = (STATUS_SUCCESS, 5 * sizeof_WCHAR).
Proof.
  apply (zero_dstlen_reports_zero sample_sbcs [104; 101; 108; 108; 111]).
  - split; reflexivity.
  - reflexivity.
Defined.

(** C4 as stated fails: the reported length is 0, not the five code units
    (ten bytes) the string needs. *)
Lemma zero_dstlen_required_length_counterexample :
  is_sbcs sample_sbcs /\
  res_len (RtlCustomCPToUnicodeN sample_sbcs 0 [104; 101; 108; 108; 111] 5)
    = 0 /\
  res_len (RtlMultiByteToUnicodeN (Some sample_sbcs) 0
             [104; 101; 108; 108; 111] 5) = 0 /\
  res_len (RtlMultiByteToUnicodeN None 0 [104; 101; 108; 108; 111] 5) = 0 /\
  res_len (RtlCustomCPToUnicodeN sample_sbcs 0 [104; 101; 108; 108; 111] 5)
    <> 5 * sizeof_WCHAR /\
  res_len (RtlCustomCPToUnicodeN sample_sbcs 0 [104; 101; 108; 108; 111] 5)
    <> 5.
Proof.
  repeat split; try (vm_compute; congruence).
Qed.

End CodePageFacts.

(** ** The locale registry *)

Module Locale.

(** The index and data records of locale.nls, with the fields the code
    reads.  Offsets into [locale_strings] count WCHARs. *)
Record NLS_LOCALE_LCNAME_INDEX : Type := {
  lcname_name : Z;
  lcname_id : Z;
  lcname_idx : Z
}.

Record NLS_LOCALE_LCID_INDEX : Type := {
  lcid_id : Z;
  lcid_idx : Z;
  lcid_name : Z
}.

Record NLS_LOCALE_HEADER : Type := {
  nb_lcids : Z;
  nb_lcnames : Z;
  locales_offset : Z;
  locale_size : Z
}.

Record NLS_LOCALE_DATA : Type := {
  inotneutral : Z;
  idefaultlanguage : Z
}.

(** UNICODE_STRING; [Buffer] is NULL or the WCHARs stored in it. *)
Record UNICODE_STRING : Type := {
  Length : Z;
  MaximumLength : Z;
  Buffer : option (list Z)
}.

Definition LOCALE_USER_DEFAULT : Z := 0x0400.
Definition LOCALE_SYSTEM_DEFAULT : Z := 0x0800.
Definition LOCALE_CUSTOM_DEFAULT : Z := 0x0c00.
Definition LOCALE_CUSTOM_UNSPECIFIED : Z := 0x1000.
Definition LOCALE_CUSTOM_UI_DEFAULT : Z := 0x1400.

Definition casemap_ascii (ch : Z) : Z :=
  if (97 <=? ch) && (ch <=? 122) then ch - (97 - 65) else ch.

(** A [const WCHAR *] to a NUL-terminated string is the list of code
    units from the pointer on; [hd 0] reads the terminator when the list
    is exhausted.  '_' is 95 and '-' is 45. *)
Fixpoint compare_locale_names (n1 n2 : list Z) {struct n1} : Z :=
  let ch1 := casemap_ascii (hd 0 n1) in
  let ch2 := casemap_ascii (hd 0 n2) in
  let ch1 := if ch1 =? 95 then 45 else ch1 in
  let ch2 := if ch2 =? 95 then 45 else ch2 in
  if (ch1 =? 0) || negb (ch1 =? ch2) then ch1 - ch2
  else match n1 with
       | [] => ch1 - ch2
       | _ :: n1' => compare_locale_names n1' (tl n2)
       end.

(** The characters of a C string up to its terminator. *)
Fixpoint c_string (p : list Z) : list Z :=
  match p with
  | [] => []
  | c :: rest => if c =? 0 then [] else c :: c_string rest
  end.

Section Registry.
(** The tables [locale_init] maps: header, the two indices (as views by
    position), the string pool, and the locale records by byte offset
    from the header. *)
Variable locale_table : NLS_LOCALE_HEADER.
Variable lcids_index : Z -> NLS_LOCALE_LCID_INDEX.
Variable lcnames_index : Z -> NLS_LOCALE_LCNAME_INDEX.
Variable locale_strings : list Z.
Variable locale_mem : Z -> NLS_LOCALE_DATA.

(** NtQueryDefaultLocale( TRUE / FALSE, &lcid ). *)
Variable user_default_lcid : Z.
Variable system_default_lcid : Z.
(** Whether RtlAllocateHeap returns memory for a request of that size. *)
Variable heap_alloc : Z -> bool.

(** [locale_strings + offset]. *)
Definition string_at (offset : Z) : list Z :=
  skipn (Z.to_nat offset) locale_strings.

(** The [while (min <= max)] loop of find_lcname_entry; every turn
    shrinks [max - min], so [fuel] above that difference is never used
    up (find_lcname_fuel_enough below). *)
Fixpoint lcname_search (fuel : nat) (name : list Z) (min max : Z)
  : option NLS_LOCALE_LCNAME_INDEX :=
  match fuel with
  | O => None
  | S fuel' =>
      if min <=? max then
        let pos := Z.quot (min + max) 2 in
        let str := string_at (lcname_name (lcnames_index pos)) in
        let res := compare_locale_names name (skipn 1 str) in
        if res <? 0 then lcname_search fuel' name min (pos - 1)
        else if res >? 0 then lcname_search fuel' name (pos + 1) max
        else Some (lcnames_index pos)
      else None
  end.

Definition find_lcname_entry (name : option (list Z))
  : option NLS_LOCALE_LCNAME_INDEX :=
  match name with
  | None => None
  | Some name =>
      lcname_search (S (Z.to_nat (nb_lcnames locale_table)))
                    name 0 (nb_lcnames locale_table - 1)
  end.

Fixpoint lcid_search (fuel : nat) (lcid : Z) (min max : Z)
  : option NLS_LOCALE_LCID_INDEX :=
  match fuel with
  | O => None
  | S fuel' =>
      if min <=? max then
        let pos := Z.quot (min + max) 2 in
        if lcid <? lcid_id (lcids_index pos)
        then lcid_search fuel' lcid min (pos - 1)
        else if lcid >? lcid_id (lcids_index pos)
        then lcid_search fuel' lcid (pos + 1) max
        else Some (lcids_index pos)
      else None
  end.

Definition find_lcid_entry (lcid : Z) : option NLS_LOCALE_LCID_INDEX :=
  lcid_search (S (Z.to_nat (nb_lcids locale_table)))
              lcid 0 (nb_lcids locale_table - 1).

Definition get_locale_data (idx : Z) : NLS_LOCALE_DATA :=
  let offset := DWORD (locales_offset locale_table
                       + idx * locale_size locale_table) in
  locale_mem offset.

(** RtlIsValidLocaleName. *)
Definition RtlIsValidLocaleName (name : option (list Z)) (flags : Z)
  : bool :=
  match find_lcname_entry name with
  | None => false
  | Some entry =>
      (* reject neutral locale unless flag 2 is set *)
      if (Z.land flags 2 =? 0)
         && (inotneutral (get_locale_data (lcname_idx entry)) =? 0)
      then false
      else true
  end.

(** RtlLocaleNameToLcid: the status and the value stored in [*lcid]. *)
Definition RtlLocaleNameToLcid (name : option (list Z)) (flags : Z)
  : NTSTATUS * option Z :=
  match find_lcname_entry name with
  | None => (STATUS_INVALID_PARAMETER_1, None)
  | Some entry =>
      if (Z.land flags 2 =? 0)
         && (inotneutral (get_locale_data (lcname_idx entry)) =? 0)
      then (STATUS_INVALID_PARAMETER_1, None)
      else (STATUS_SUCCESS, Some (lcname_id entry))
  end.

(** The [switch (lcid)] of RtlLcidToLocaleName: the id to look up, or
    the status returned at once. *)
Definition resolve_lcid (lcid : Z) : NTSTATUS + Z :=
  if lcid =? LOCALE_USER_DEFAULT then inr user_default_lcid
  else if (lcid =? LOCALE_SYSTEM_DEFAULT) || (lcid =? LOCALE_CUSTOM_DEFAULT)
  then inr system_default_lcid
  else if lcid =? LOCALE_CUSTOM_UI_DEFAULT then inl STATUS_UNSUCCESSFUL
  else if lcid =? LOCALE_CUSTOM_UNSPECIFIED
  then inl STATUS_INVALID_PARAMETER_1
  else inr lcid.

(** RtlLcidToLocaleName: the status and the string structure as the
    call leaves it ([None] for a NULL [str]). *)
Definition RtlLcidToLocaleName (lcid : Z) (str : option UNICODE_STRING)
    (flags : Z) (alloc : bool) : NTSTATUS * option UNICODE_STRING :=
  match str with
  | None => (STATUS_INVALID_PARAMETER_2, None)
  | Some s =>
      match resolve_lcid lcid with
      | inl st => (st, str)
      | inr lcid =>
          match find_lcid_entry lcid with
          | None => (STATUS_INVALID_PARAMETER_1, str)
          | Some entry =>
              if (Z.land flags 2 =? 0)
                 && (inotneutral (get_locale_data (lcid_idx entry)) =? 0)
              then (STATUS_INVALID_PARAMETER_1, str)
              else
                let name := string_at (lcid_name entry) in
                let len := hd 0 name in
                let name := skipn 1 name in
                let size := DWORD ((len + 1) * sizeof_WCHAR) in
                let copied := Some (c_string name ++ [0]) in
                if alloc then
                  if heap_alloc size
                  then (STATUS_SUCCESS,
                        Some {| Length := USHORT (len * sizeof_WCHAR);
                                MaximumLength := USHORT size;
                                Buffer := copied |})
                  else (STATUS_NO_MEMORY,
                        Some {| Length := Length s;
                                MaximumLength := MaximumLength s;
                                Buffer := None |})
                else if MaximumLength s <? size
                then (STATUS_BUFFER_TOO_SMALL, str)
                else (STATUS_SUCCESS,
                      Some {| Length := USHORT (len * sizeof_WCHAR);
                              MaximumLength := MaximumLength s;
                              Buffer := copied |})
          end
      end
  end.
End Registry.

(** Two code units the comparator is meant to identify: equal, the two
    cases of one ASCII letter, or underscore and hyphen. *)
Definition ascii_variant (a b : Z) : Prop :=
  a = b \/
  (65 <= a <= 90 /\ b = a + 32) \/
  (65 <= b <= 90 /\ a = b + 32) \/
  (a = 95 /\ b = 45) \/
  (a = 45 /\ b = 95).

End Locale.

(** ** Facts about the locale registry *)

Module LocaleFacts.
Import Locale.

(** What the comparator does to one code unit before comparing. *)
Definition norm (ch : Z) : Z :=
  let c := casemap_ascii ch in if c =? 95 then 45 else c.

Ltac norm_cases :=
  unfold norm, casemap_ascii, ascii_variant in *;
  repeat match goal with
         | |- context [(?a <=? ?b)] => destruct (Z.leb_spec a b)
         | |- context [(?a =? ?b)] => destruct (Z.eqb_spec a b)
         | H : context [(?a <=? ?b)] |- _ => destruct (Z.leb_spec a b)
         | H : context [(?a =? ?b)] |- _ => destruct (Z.eqb_spec a b)
         end;
  cbn [andb orb negb] in *; try lia.

Lemma norm_zero (c : Z) : norm c = 0 <-> c = 0.
Proof. split; intros H; norm_cases. Qed.

Lemma norm_variant (a b : Z) : norm a = norm b <-> ascii_variant a b.
Proof. split; intros H; norm_cases. Qed.

(** Only the ASCII letters a-z and the underscore are changed. *)
Lemma norm_fixes_others (c : Z) :
  ~ (97 <= c <= 122) -> c <> 95 -> norm c = c.
Proof. intros H1 H2. norm_cases. Qed.

Lemma compare_unfold (n1 n2 : list Z) :
  compare_locale_names n1 n2 =
  if (norm (hd 0 n1) =? 0) || negb (norm (hd 0 n1) =? norm (hd 0 n2))
  then norm (hd 0 n1) - norm (hd 0 n2)
  else match n1 with
       | [] => norm (hd 0 n1) - norm (hd 0 n2)
       | _ :: n1' => compare_locale_names n1' (tl n2)
       end.
Proof. destruct n1; reflexivity. Qed.

Lemma compare_nil_l (n2 : list Z) :
  compare_locale_names [] n2 = - norm (hd 0 n2).
Proof. rewrite compare_unfold. cbn. lia. Qed.

Lemma compare_cons_l (c : Z) (r n2 : list Z) :
  compare_locale_names (c :: r) n2 =
  if (norm c =? 0) || negb (norm c =? norm (hd 0 n2))
  then norm c - norm (hd 0 n2)
  else compare_locale_names r (tl n2).
Proof. rewrite compare_unfold. reflexivity. Qed.

Lemma compare_refl (n : list Z) : compare_locale_names n n = 0.
Proof.
  induction n as [|c r IH].
  - reflexivity.
  - rewrite compare_cons_l. cbn [hd tl]. rewrite Z.eqb_refl.
    destruct (norm c =? 0); cbn [orb negb]; [lia | exact IH].
Qed.

Lemma compare_antisym (a : list Z) :
  forall b, compare_locale_names a b = - compare_locale_names b a.
Proof.
  induction a as [|c r IH]; intros [|d s].
  - reflexivity.
  - rewrite compare_nil_l, compare_cons_l. cbn [hd].
    change (norm 0) with 0.
    destruct (Z.eqb_spec (norm d) 0) as [->|Hd]; cbn [orb negb]; lia.
  - rewrite compare_nil_l, compare_cons_l. cbn [hd].
    change (norm 0) with 0.
    destruct (Z.eqb_spec (norm c) 0) as [->|Hc]; cbn [orb negb]; lia.
  - rewrite !compare_cons_l. cbn [hd tl].
    destruct (Z.eqb_spec (norm c) 0) as [Hc|Hc];
      destruct (Z.eqb_spec (norm d) 0) as [Hd|Hd];
      destruct (Z.eqb_spec (norm c) (norm d)) as [E|E];
      destruct (Z.eqb_spec (norm d) (norm c)) as [E'|E'];
      cbn [orb negb]; try lia.
    apply IH.
Qed.

(** The comparator reads its first argument only up to the terminator. *)
Lemma compare_c_string_l (n1 : list Z) :
  forall n2, compare_locale_names (c_string n1) n2
             = compare_locale_names n1 n2.
Proof.
  induction n1 as [|c r IH]; intros n2.
  - reflexivity.
  - cbn [c_string]. destruct (Z.eqb_spec c 0) as [->|Hc].
    + rewrite compare_nil_l, compare_cons_l. change (norm 0) with 0.
      cbn [Z.eqb orb]. lia.
    + rewrite !compare_cons_l, IH. reflexivity.
Qed.

Lemma c_string_nonzero (p : list Z) : Forall (fun c => c <> 0) (c_string p).
Proof.
  induction p as [|c r IH]; cbn [c_string]; [constructor|].
  destruct (Z.eqb_spec c 0); [constructor|]. constructor; assumption.
Qed.

(** Variants of one name compare alike against everything. *)
Lemma compare_variant_l (n1 n2 : list Z) :
  Forall2 ascii_variant n1 n2 ->
  forall s, compare_locale_names n1 s = compare_locale_names n2 s.
Proof.
  induction 1 as [|a b r1 r2 Hab _ IH]; intros s.
  - reflexivity.
  - rewrite !compare_cons_l. apply norm_variant in Hab. rewrite Hab, IH.
    reflexivity.
Qed.

Lemma compare_zero_iff (n1 : list Z) :
  forall n2,
    Forall (fun c => c <> 0) n1 -> Forall (fun c => c <> 0) n2 ->
    (compare_locale_names n1 n2 = 0 <-> Forall2 ascii_variant n1 n2).
Proof.
  induction n1 as [|c r IH]; intros [|d s] H1 H2.
  - split; [constructor | reflexivity].
  - rewrite compare_nil_l. cbn [hd]. inversion H2; subst.
    split; [|inversion 1].
    intros H. exfalso. assert (Hd : norm d = 0) by lia.
    apply (proj1 (norm_zero d)) in Hd. contradiction.
  - rewrite compare_cons_l. cbn [hd]. change (norm 0) with 0.
    inversion H1; subst.
    assert (Hn : norm c <> 0) by (rewrite norm_zero; assumption).
    destruct (Z.eqb_spec (norm c) 0); [contradiction|].
    cbn [orb negb]. split; [lia | inversion 1].
  - rewrite compare_cons_l. cbn [hd tl].
    inversion H1; subst. inversion H2; subst.
    assert (Hn : norm c <> 0) by (rewrite norm_zero; assumption).
    destruct (Z.eqb_spec (norm c) 0); [contradiction|].
    destruct (Z.eqb_spec (norm c) (norm d)) as [E|E]; cbn [orb negb].
    + rewrite IH by assumption. split.
      * intros HF. constructor; [apply norm_variant; exact E | exact HF].
      * inversion 1; assumption.
    + split; [lia|]. inversion 1; subst.
      exfalso. apply E. apply norm_variant. assumption.
Qed.

Section RegistryFacts.
Variable locale_table : NLS_LOCALE_HEADER.
Variable lcids_index : Z -> NLS_LOCALE_LCID_INDEX.
Variable lcnames_index : Z -> NLS_LOCALE_LCNAME_INDEX.
Variable locale_strings : list Z.
Variable locale_mem : Z -> NLS_LOCALE_DATA.
Variable user_default_lcid : Z.
Variable system_default_lcid : Z.
Variable heap_alloc : Z -> bool.

(** [str + 1] for the entry at position [pos] of the name index. *)
Definition name_at (pos : Z) : list Z :=
  skipn 1 (string_at locale_strings (lcname_name (lcnames_index pos))).

(** The name index is in strictly increasing comparator order. *)
Definition names_sorted : Prop :=
  forall i j, 0 <= i -> i < j -> j < nb_lcnames locale_table ->
    compare_locale_names (name_at i) (name_at j) < 0.

Lemma quot2_between (min max : Z) :
  0 <= min -> min <= max ->
  min <= Z.quot (min + max) 2 <= max.
Proof.
  intros H0 H1. rewrite Z.quot_div_nonneg by lia. split.
  - apply Z.div_le_lower_bound; lia.
  - apply Z.div_le_upper_bound; lia.
Qed.

(** Fuel above [max - min + 1] is never exhausted: the search gives the
    same answer for any two such amounts. *)
Lemma lcname_search_fuel_enough (name : list Z) :
  forall f1 f2 min max,
    0 <= min ->
    (Z.to_nat (max - min + 1) < f1)%nat ->
    (Z.to_nat (max - min + 1) < f2)%nat ->
    lcname_search lcnames_index locale_strings f1 name min max
    = lcname_search lcnames_index locale_strings f2 name min max.
Proof.
  induction f1 as [|f1 IH]; intros f2 min max Hmin H1 H2; [lia|].
  destruct f2 as [|f2]; [lia|].
  cbn [lcname_search].
  destruct (Z.leb_spec min max) as [Hle|Hgt]; [|reflexivity].
  pose proof (quot2_between min max Hmin Hle) as Hq.
  destruct (_ <? 0).
  - apply IH; lia.
  - destruct (_ >? 0); [apply IH; lia | reflexivity].
Qed.

Lemma lcid_search_fuel_enough (lcid : Z) :
  forall f1 f2 min max,
    0 <= min ->
    (Z.to_nat (max - min + 1) < f1)%nat ->
    (Z.to_nat (max - min + 1) < f2)%nat ->
    lcid_search lcids_index f1 lcid min max
    = lcid_search lcids_index f2 lcid min max.
Proof.
  induction f1 as [|f1 IH]; intros f2 min max Hmin H1 H2; [lia|].
  destruct f2 as [|f2]; [lia|].
  cbn [lcid_search].
  destruct (Z.leb_spec min max) as [Hle|Hgt]; [|reflexivity].
  pose proof (quot2_between min max Hmin Hle) as Hq.
  destruct (_ <? _).
  - apply IH; lia.
  - destruct (_ >? _); [apply IH; lia | reflexivity].
Qed.

(** Binary search for a key that compares like the entry at [p]. *)
Lemma lcname_search_finds (key : list Z) (p : Z) :
  (forall pos, 0 <= pos < nb_lcnames locale_table ->
     (pos < p -> 0 < compare_locale_names key (name_at pos)) /\
     (p < pos -> compare_locale_names key (name_at pos) < 0) /\
     (pos = p -> compare_locale_names key (name_at pos) = 0)) ->
  forall fuel min max,
    0 <= min -> min <= p -> p <= max -> max < nb_lcnames locale_table ->
    (Z.to_nat (max - min) < fuel)%nat ->
    lcname_search lcnames_index locale_strings fuel key min max
    = Some (lcnames_index p).
Proof.
  intros Hkey.
  induction fuel as [|fuel IH]; intros min max H0 H1 H2 H3 Hf; [lia|].
  cbn [lcname_search].
  destruct (Z.leb_spec min max) as [Hle|Hgt]; [|lia].
  pose proof (quot2_between min max H0 Hle) as Hq.
  set (pos := Z.quot (min + max) 2) in *.
  destruct (Hkey pos) as (Hlt & Hgt & Heq); [lia|].
  fold (name_at pos).
  destruct (Z.lt_trichotomy pos p) as [Hc|[Hc|Hc]].
  - specialize (Hlt Hc).
    destruct (Z.ltb_spec (compare_locale_names key (name_at pos)) 0); [lia|].
    destruct (Z.gtb_spec (compare_locale_names key (name_at pos)) 0); [|lia].
    apply IH; lia.
  - rewrite (Heq Hc). cbn. subst pos. rewrite Hc. reflexivity.
  - specialize (Hgt Hc).
    destruct (Z.ltb_spec (compare_locale_names key (name_at pos)) 0); [|lia].
    apply IH; lia.
Qed.

Lemma ascii_variant_sym (a b : Z) : ascii_variant a b -> ascii_variant b a.
Proof. unfold ascii_variant. lia. Qed.

Lemma Forall2_variant_sym (l1 l2 : list Z) :
  Forall2 ascii_variant l1 l2 -> Forall2 ascii_variant l2 l1.
Proof.
  induction 1; constructor; [apply ascii_variant_sym|]; assumption.
Qed.

Lemma compare_c_string_r (n1 n2 : list Z) :
  compare_locale_names n1 (c_string n2) = compare_locale_names n1 n2.
Proof.
  rewrite compare_antisym, compare_c_string_l, <- compare_antisym.
  reflexivity.
Qed.

(** C7.  The comparator of the name index identifies underscore with
    hyphen and the two cases of an ASCII letter, and nothing else: the
    keys that compare equal to a stored name are exactly the strings
    that differ from it in ASCII letter case or in underscore versus
    hyphen.  On a sorted index, find_lcname_entry therefore returns the
    entry of a stored name for every such variant of it. *)
Theorem find_lcname_entry_ascii_variants :
  forall (p : Z) (name : list Z),
    names_sorted ->
    0 <= p < nb_lcnames locale_table ->
    Forall2 ascii_variant name (c_string (name_at p)) ->
    find_lcname_entry locale_table lcnames_index locale_strings (Some name)
      = Some (lcnames_index p) /\
    compare_locale_names name (name_at p) = 0 /\
    (forall other : list Z,
       Forall (fun c => c <> 0) other ->
       (compare_locale_names other (name_at p) = 0 <->
        Forall2 ascii_variant other (c_string (name_at p)))).
Proof.
  intros p name Hsorted Hp Hvar.
  assert (Hkey : forall s, compare_locale_names name s
                           = compare_locale_names (name_at p) s).
  { intros s. rewrite (compare_variant_l _ _ Hvar).
    apply compare_c_string_l. }
  split; [|split].
  - unfold find_lcname_entry.
    apply lcname_search_finds with (p := p); try lia.
    intros pos Hpos. rewrite Hkey. repeat split; intros Hc.
    + rewrite compare_antisym.
      pose proof (Hsorted pos p). lia.
    + apply Hsorted; lia.
    + subst pos. apply compare_refl.
  - rewrite Hkey. apply compare_refl.
  - intros other Hnz. rewrite <- compare_c_string_r.
    apply compare_zero_iff; [assumption | apply c_string_nonzero].
Qed.

(** C8.  For a name or an identifier that resolves to a neutral entry
    (inotneutral = 0): without flag 2 RtlIsValidLocaleName answers FALSE
    and RtlLocaleNameToLcid and RtlLcidToLocaleName fail with
    STATUS_INVALID_PARAMETER_1; with flag 2 set the name lookups succeed
    and return the entry's id, and the id lookup succeeds with the
    entry's name whenever the string buffer can be had (the allocation
    succeeds, or the caller's buffer holds the name and its NUL). *)
Theorem neutral_locale_needs_flag_2 :
  forall flags : Z,
    (forall (name : option (list Z)) (e : NLS_LOCALE_LCNAME_INDEX),
       find_lcname_entry locale_table lcnames_index locale_strings name
         = Some e ->
       inotneutral (get_locale_data locale_table locale_mem (lcname_idx e))
         = 0 ->
       let valid := RtlIsValidLocaleName locale_table lcnames_index
                      locale_strings locale_mem name flags in
       let to_lcid := RtlLocaleNameToLcid locale_table lcnames_index
                        locale_strings locale_mem name flags in
       (Z.land flags 2 = 0 ->
        valid = false /\ to_lcid = (STATUS_INVALID_PARAMETER_1, None)) /\
       (Z.land flags 2 <> 0 ->
        valid = true /\ to_lcid = (STATUS_SUCCESS, Some (lcname_id e)))) /\
    (forall (lcid id : Z) (e' : NLS_LOCALE_LCID_INDEX)
            (s : UNICODE_STRING) (alloc : bool),
       resolve_lcid user_default_lcid system_default_lcid lcid = inr id ->
       find_lcid_entry locale_table lcids_index id = Some e' ->
       inotneutral (get_locale_data locale_table locale_mem (lcid_idx e'))
         = 0 ->
       let to_name := RtlLcidToLocaleName locale_table lcids_index
                        locale_strings locale_mem user_default_lcid
                        system_default_lcid heap_alloc lcid (Some s) flags
                        alloc in
       let stored := string_at locale_strings (lcid_name e') in
       let size := DWORD ((hd 0 stored + 1) * sizeof_WCHAR) in
       (Z.land flags 2 = 0 ->
        to_name = (STATUS_INVALID_PARAMETER_1, Some s)) /\
       (Z.land flags 2 <> 0 ->
        fst to_name <> STATUS_INVALID_PARAMETER_1 /\
        ((if alloc then heap_alloc size = true
          else size <= MaximumLength s) ->
         fst to_name = STATUS_SUCCESS /\
         option_map Buffer (snd to_name)
           = Some (Some (c_string (skipn 1 stored) ++ [0]))))).
Proof.
  intros flags. split.
  - intros name e Hn Hneutral. cbv zeta.
    unfold RtlIsValidLocaleName, RtlLocaleNameToLcid.
    rewrite Hn, Hneutral. cbn [Z.eqb andb].
    split; intros Hflag.
    + rewrite Hflag. split; reflexivity.
    + destruct (Z.eqb_spec (Z.land flags 2) 0); [contradiction|].
      split; reflexivity.
  - intros lcid id e' s alloc Hres Hid Hneutral. cbv zeta.
    unfold RtlLcidToLocaleName.
    rewrite Hres, Hid, Hneutral. cbn [Z.eqb andb].
    split; intros Hflag.
    + rewrite Hflag. reflexivity.
    + destruct (Z.eqb_spec (Z.land flags 2) 0); [contradiction|].
      cbn [andb]. split.
      * destruct alloc; [destruct (heap_alloc _)|destruct (_ <? _)];
          cbn [fst]; discriminate.
      * intros Hbuf. destruct alloc.
        -- rewrite Hbuf. split; reflexivity.
        -- destruct (Z.ltb_spec (MaximumLength s)
                       (DWORD ((hd 0 (string_at locale_strings
                                        (lcid_name e')) + 1)
                               * sizeof_WCHAR))); [lia|].
           split; reflexivity.
Qed.
End RegistryFacts.


(** *** A small registry for the concrete checks

    Names "de-DE", "en", "en-US", "fr-FR", each stored with its length in
    front and a NUL behind; "en" is the one neutral locale. *)
Definition sample_strings : list Z :=
  [5; 100; 101; 45; 68; 69; 0;
   2; 101; 110; 0;
   5; 101; 110; 45; 85; 83; 0;
   5; 102; 114; 45; 70; 82; 0].

Definition sample_header : NLS_LOCALE_HEADER :=
  {| nb_lcids := 4; nb_lcnames := 4; locales_offset := 64;
     locale_size := 16 |}.

Definition sample_lcnames (pos : Z) : NLS_LOCALE_LCNAME_INDEX :=
  if pos =? 0 then {| lcname_name := 0; lcname_id := 0x0407; lcname_idx := 0 |}
  else if pos =? 1
  then {| lcname_name := 7; lcname_id := 0x0009; lcname_idx := 1 |}
  else if pos =? 2
  then {| lcname_name := 11; lcname_id := 0x0409; lcname_idx := 2 |}
  else {| lcname_name := 18; lcname_id := 0x040c; lcname_idx := 3 |}.

Definition sample_lcids (pos : Z) : NLS_LOCALE_LCID_INDEX :=
  if pos =? 0 then {| lcid_id := 0x0009; lcid_idx := 1; lcid_name := 7 |}
  else if pos =? 1
  then {| lcid_id := 0x0407; lcid_idx := 0; lcid_name := 0 |}
  else if pos =? 2
  then {| lcid_id := 0x0409; lcid_idx := 2; lcid_name := 11 |}
  else {| lcid_id := 0x040c; lcid_idx := 3; lcid_name := 18 |}.

Definition sample_locale_mem (offset : Z) : NLS_LOCALE_DATA :=
  if offset =? 64 + 16 * 1
  then {| inotneutral := 0; idefaultlanguage := 0x0409 |}
  else {| inotneutral := 1; idefaultlanguage := 0 |}.

Definition sample_heap (size : Z) : bool := true.

Lemma sample_names_sorted :
  names_sorted sample_header sample_lcnames sample_strings.
Proof.
  intros i j Hi Hij Hj. cbn in Hj.
  assert (Ci : i = 0 \/ i = 1 \/ i = 2) by lia.
  assert (Cj : j = 1 \/ j = 2 \/ j = 3) by lia.
  destruct Ci as [->|[->| ->]]; destruct Cj as [->|[->| ->]];
    try lia; vm_compute; reflexivity.
Qed.

(** "EN_us" finds the entry of "en-US". *)
Lemma find_lcname_entry_ascii_variants_witness :
  find_lcname_entry sample_header sample_lcnames sample_strings
    (Some [69; 78; 95; 117; 115]) = Some (sample_lcnames 2) /\
  compare_locale_names [69; 78; 95; 117; 115]
    (name_at sample_lcnames sample_strings 2) = 0 /\
  (forall other : list Z,
     Forall (fun c => c <> 0) other ->
     (compare_locale_names other (name_at sample_lcnames sample_strings 2) = 0
      <-> Forall2 ascii_variant other
            (c_string (name_at sample_lcnames sample_strings 2)))).
Proof.
  apply (find_lcname_entry_ascii_variants sample_header sample_lcnames
           sample_strings 2 [69; 78; 95; 117; 115]).
  - apply sample_names_sorted.
  - cbn. lia.
  - vm_compute c_string. repeat constructor; unfold ascii_variant; lia.
Defined.

(** No folding beyond ASCII: U+00E9 and U+00C9 compare different, as do
    the Cyrillic U+0434 and U+0414. *)
Example compare_not_unicode_folding :
  compare_locale_names [0xe9] [0xc9] <> 0 /\
  compare_locale_names [0x434] [0x414] <> 0 /\
  compare_locale_names [97; 95] [65; 45] = 0.
Proof. repeat split; vm_compute; congruence. Qed.

(** The neutral entry "en" (id 9) of the sample registry, by name and by
    id, without flags and with flag 2. *)
Lemma neutral_locale_needs_flag_2_witness :
  let name := Some [101; 110] in
  let s := {| Length := 0; MaximumLength := 32; Buffer := Some [] |} in
  let by_name f :=
    (RtlIsValidLocaleName sample_header sample_lcnames sample_strings
       sample_locale_mem name f,
     RtlLocaleNameToLcid sample_header sample_lcnames sample_strings
       sample_locale_mem name f) in
  let by_id f :=
    RtlLcidToLocaleName sample_header sample_lcids sample_strings
      sample_locale_mem 0x0407 0x0409 sample_heap 9 (Some s) f false in
  by_name 0 = (false, (STATUS_INVALID_PARAMETER_1, None)) /\
  by_name 2 = (true, (STATUS_SUCCESS, Some 9)) /\
  by_id 0 = (STATUS_INVALID_PARAMETER_1, Some s) /\
  fst (by_id 2) = STATUS_SUCCESS /\
  option_map Buffer (snd (by_id 2)) = Some (Some [101; 110; 0]).
Proof.
  cbv zeta.
  destruct (neutral_locale_needs_flag_2 sample_header sample_lcids
              sample_lcnames sample_strings sample_locale_mem
              0x0407 0x0409 sample_heap 0) as [Hname0 Hid0].
  destruct (neutral_locale_needs_flag_2 sample_header sample_lcids
              sample_lcnames sample_strings sample_locale_mem
              0x0407 0x0409 sample_heap 2) as [Hname2 Hid2].
  destruct (Hname0 (Some [101; 110]) (sample_lcnames 1)
              eq_refl eq_refl) as [[A1 A2] _]; [reflexivity|].
  destruct (Hname2 (Some [101; 110]) (sample_lcnames 1)
              eq_refl eq_refl) as [_ [B1 B2]]; [cbn; lia|].
  destruct (Hid0 9 9 (sample_lcids 0)
              {| Length := 0; MaximumLength := 32; Buffer := Some [] |}
              false eq_refl eq_refl eq_refl) as [C _].
  destruct (Hid2 9 9 (sample_lcids 0)
              {| Length := 0; MaximumLength := 32; Buffer := Some [] |}
              false eq_refl eq_refl eq_refl) as [_ [_ D]]; [cbn; lia|].
  destruct D as [D1 D2]; [vm_compute; discriminate|].
  rewrite A1, A2, B1, B2, C by reflexivity. rewrite D1, D2.
  repeat split.
Defined.

End LocaleFacts.

(** ** The UTF-8 codec *)

Module Utf8.

(** What the UTF-8 routines hand back; [u_reslen] is [None] when the
    routine returns before storing through [reslen]. *)
Record codec_result : Type := mk_codec {
  u_status : NTSTATUS;
  u_reslen : option Z;
  u_written : list Z
}.

Definition IS_HIGH_SURROGATE (ch : Z) : bool := (0xd800 <=? ch) && (ch <=? 0xdbff).
Definition IS_LOW_SURROGATE (ch : Z) : bool := (0xdc00 <=? ch) && (ch <=? 0xdfff).

(** Modelled from the spec: get_utf16 is defined in locale_private.h,
    which is not among the sources.  It is the helper that "assembles a
    full code point from a possible surrogate pair"; a lone or malformed
    surrogate makes it return 0.  [src] holds the [srclen] code units
    still available; the result is the count it returns and the code
    point stored in [*ch], or [None] for a return of 0. *)
Definition get_utf16 (src : list Z) : option (Z * Z) :=
  match src with
  | [] => None
  | c0 :: rest =>
      if IS_HIGH_SURROGATE c0 then
        match rest with
        | [] => None
        | c1 :: _ =>
            if IS_LOW_SURROGATE c1
            then Some (2, 0x10000 + Z.shiftl (Z.land c0 0x3ff) 10
                          + Z.land c1 0x3ff)
            else None
        end
      else if IS_LOW_SURROGATE c0 then None
      else Some (1, c0)
  end.

(** Modelled from the spec: decode_utf8_char is defined in
    locale_private.h, which is not among the sources.  It is the "shared
    continuation-byte state machine": given the lead byte and the bytes
    that follow, it returns the code point, or a value above 0x10ffff
    (all bits set) for an invalid or over-range sequence, and the number
    of bytes by which it advanced [*str].  The theorems below hold for any
    decoder of this shape; this one serves the concrete checks. *)
Definition utf8_length (ch : Z) : Z :=
  if ch <? 0xc2 then 0
  else if ch <? 0xe0 then 1
  else if ch <? 0xf0 then 2
  else if ch <? 0xf5 then 3
  else 0.

Definition utf8_mask (n : Z) : Z :=
  if n =? 0 then 0x7f else if n =? 1 then 0x1f
  else if n =? 2 then 0x0f else 0x07.

Definition invalid_char : Z := 0xffffffff.

(** One continuation byte: [(ch = byte ^ 0x80) >= 0x40] rejects it. *)
Definition continuation (b : Z) : option Z :=
  let ch := Z.lxor b 0x80 in if ch >=? 0x40 then None else Some ch.

Definition decode_case1 (res : Z) (moved : nat) (b : Z) : Z * nat :=
  match continuation b with
  | None => (invalid_char, moved)
  | Some ch =>
      let res := Z.lor (Z.shiftl res 6) ch in
      if res <? 0x80 then (invalid_char, S moved) else (res, S moved)
  end.

Definition decode_case2 (res : Z) (moved : nat) (b2 b1 : Z) : Z * nat :=
  match continuation b2 with
  | None => (invalid_char, moved)
  | Some ch =>
      let res := Z.lor (Z.shiftl res 6) ch in
      if res >=? Z.shiftr 0x110000 6 then (invalid_char, moved)
      else if res <? 0x20 then (invalid_char, S moved)
      else if (res >=? Z.shiftr 0xd800 6) && (res <=? Z.shiftr 0xdfff 6)
      then (invalid_char, S moved)
      else decode_case1 res (S moved) b1
  end.

Definition decode_case3 (res : Z) (b3 b2 b1 : Z) : Z * nat :=
  match continuation b3 with
  | None => (invalid_char, 0%nat)
  | Some ch =>
      let res := Z.lor (Z.shiftl res 6) ch in
      if res <? 0x10 then (invalid_char, 1%nat)
      else decode_case2 res 1%nat b2 b1
  end.

Definition decode_utf8_char (ch : Z) (str : list Z) : Z * nat :=
  let n := utf8_length ch in
  let res := Z.land ch (utf8_mask n) in
  if len str <? n then (invalid_char, Z.to_nat n)
  else match Z.to_nat n, str with
       | 3%nat, b3 :: b2 :: b1 :: _ => decode_case3 res b3 b2 b1
       | 2%nat, b2 :: b1 :: _ => decode_case2 res 0%nat b2 b1
       | 1%nat, b1 :: _ => decode_case1 res 0%nat b1
       | _, _ => (invalid_char, 0%nat)
       end.

(** The two stores of the surrogate branch of RtlUTF8ToUnicodeN:
    [res -= 0x10000; *dst++ = 0xd800 | (res >> 10);] and
    [*dst++ = 0xdc00 | (res & 0x3ff);]. *)
Definition high_surrogate (res : Z) : Z :=
  let res := res - 0x10000 in Z.lor 0xd800 (Z.shiftr res 10).
Definition low_surrogate (res : Z) : Z :=
  let res := res - 0x10000 in Z.lor 0xdc00 (Z.land res 0x3ff).

Section Utf8ToUnicode.
(** The decoder in use: lead byte and following bytes to the decoded
    value (an unsigned int) and the number of bytes consumed after the
    lead byte. *)
Variable decode : Z -> list Z -> Z * nat.

(** The size-only loop, [for (len = 0; src < srcend; len++)]. *)
Equations? utf8_size (src : list Z) (n : Z) (st : NTSTATUS)
  : Z * NTSTATUS by wf (length src) lt :=
  utf8_size [] n st := (n, st);
  utf8_size (ch :: rest) n st :=
    if ch <? 0x80 then utf8_size rest (DWORD (n + 1)) st
    else
      let res := DWORD (fst (decode ch rest)) in
      let src' := skipn (snd (decode ch rest)) rest in
      if res >? 0x10ffff
      then utf8_size src' (DWORD (n + 1)) STATUS_SOME_NOT_MAPPED
      else if res >? 0xffff
      then utf8_size src' (DWORD (DWORD (n + 1) + 1)) st
      else utf8_size src' (DWORD (n + 1)) st.
Proof.
  all: cbn [length]; try lia;
    subst src'; rewrite length_skipn; lia.
Qed.

(** The writing loop, [while ((dst < dstend) && (src < srcend))], with
    [out] for the code units stored so far and [room] for
    [dstend - dst]: the code units stored, the room left, the input
    left and the status when the loop is left. *)
Equations? utf8_write (out : list Z) (room : Z) (src : list Z)
    (st : NTSTATUS)
  : list Z * Z * list Z * NTSTATUS by wf (length src) lt :=
  utf8_write out room [] st := (out, room, [], st);
  utf8_write out room (ch :: rest) st :=
    if room <=? 0 then (out, room, ch :: rest, st)
    else if ch <? 0x80 (* special fast case for 7-bit ASCII *)
    then utf8_write (out ++ [ch]) (room - 1) rest st
    else
      let res := DWORD (fst (decode ch rest)) in
      let src' := skipn (snd (decode ch rest)) rest in
      if res <=? 0xffff
      then utf8_write (out ++ [res]) (room - 1) src' st
      else if res <=? 0x10ffff (* we need surrogates *)
      then
        if room - 1 =? 0
        then (out ++ [high_surrogate res], room - 1, src', st)
        else utf8_write (out ++ [high_surrogate res] ++ [low_surrogate res])
                        (room - 1 - 1) src' st
      else utf8_write (out ++ [0xfffd]) (room - 1) src'
                      STATUS_SOME_NOT_MAPPED.
Proof.
  all: cbn [length]; try lia;
    subst src'; rewrite length_skipn; lia.
Qed.

(** RtlUTF8ToUnicodeN.  [dst] and [reslen] tell whether those pointers
    are non-NULL, [src] is NULL or the bytes it points to. *)
Definition RtlUTF8ToUnicodeN (dst : bool) (dstlen : Z) (reslen : bool)
    (src : option (list Z)) (srclen : Z) : codec_result :=
  match src with
  | None => mk_codec STATUS_INVALID_PARAMETER_4 None []
  | Some src =>
      if negb reslen then mk_codec STATUS_INVALID_PARAMETER None []
      else
        let src := firstn (Z.to_nat srclen) src in
        let dstlen := dstlen / sizeof_WCHAR in
        if negb dst then
          let r := utf8_size src 0 STATUS_SUCCESS in
          mk_codec (snd r) (Some (DWORD (fst r * sizeof_WCHAR))) []
        else
          let r := utf8_write [] dstlen src STATUS_SUCCESS in
          let out := fst (fst (fst r)) in
          let room := snd (fst (fst r)) in
          let status := match snd (fst r) with
                        | [] => snd r
                        | _ :: _ => STATUS_BUFFER_TOO_SMALL (* overflow *)
                        end in
          mk_codec status (Some (DWORD ((dstlen - room) * sizeof_WCHAR)))
                   out
  end.
End Utf8ToUnicode.

(** The size-only loop of RtlUnicodeToUTF8N,
    [for (len = 0; srclen; srclen--, src++)]. *)
Fixpoint utf16_size (src : list Z) (n : Z) (st : NTSTATUS)
  : Z * NTSTATUS :=
  match src with
  | [] => (n, st)
  | ch :: rest =>
      if ch <? 0x80 then utf16_size rest (DWORD (n + 1)) st
      else if ch <? 0x800 then utf16_size rest (DWORD (n + 2)) st
      else
        let val := match get_utf16 src with
                   | Some (_, v) => v
                   | None => 0xfffd
                   end in
        let st := match get_utf16 src with
                  | Some _ => st
                  | None => STATUS_SOME_NOT_MAPPED
                  end in
        if val <? 0x10000 then utf16_size rest (DWORD (n + 3)) st
        else match rest with
             | _ :: rest' => utf16_size rest' (DWORD (n + 4)) st
             | [] => (DWORD (n + 4), st)
             end
  end.

(** The writing loop of RtlUnicodeToUTF8N, with [room] for [end - dst]:
    the bytes stored, the room left, the input left and the status. *)
Fixpoint utf16_write (room : Z) (src : list Z) (st : NTSTATUS)
  : list Z * Z * list Z * NTSTATUS :=
  match src with
  | [] => ([], room, [], st)
  | ch :: rest =>
      if ch <? 0x80 then
        if room <? 1 then ([], room, src, st)
        else let r := utf16_write (room - 1) rest st in
             (to_char ch :: fst (fst (fst r)), snd (fst (fst r)),
              snd (fst r), snd r)
      else if ch <? 0x800 then
        if room <? 2 then ([], room, src, st)
        else let r := utf16_write (room - 2) rest st in
             (to_char (Z.lor 0xc0 (Z.shiftr ch 6))
              :: to_char (Z.lor 0x80 (Z.land ch 0x3f))
              :: fst (fst (fst r)), snd (fst (fst r)), snd (fst r), snd r)
      else
        let val := match get_utf16 src with
                   | Some (_, v) => v
                   | None => 0xfffd
                   end in
        let st := match get_utf16 src with
                  | Some _ => st
                  | None => STATUS_SOME_NOT_MAPPED
                  end in
        if val <? 0x10000 then
          if room <? 3 then ([], room, src, st)
          else let r := utf16_write (room - 3) rest st in
               (to_char (Z.lor 0xe0 (Z.shiftr (Z.shiftr val 6) 6))
                :: to_char (Z.lor 0x80 (Z.land (Z.shiftr val 6) 0x3f))
                :: to_char (Z.lor 0x80 (Z.land val 0x3f))
                :: fst (fst (fst r)), snd (fst (fst r)), snd (fst r), snd r)
        else
          if room <? 4 then ([], room, src, st)
          else
            let bytes :=
              [to_char (Z.lor 0xf0 (Z.shiftr (Z.shiftr (Z.shiftr val 6) 6) 6));
               to_char (Z.lor 0x80 (Z.land (Z.shiftr (Z.shiftr val 6) 6) 0x3f));
               to_char (Z.lor 0x80 (Z.land (Z.shiftr val 6) 0x3f));
               to_char (Z.lor 0x80 (Z.land val 0x3f))] in
            match rest with
            | _ :: rest' =>
                let r := utf16_write (room - 4) rest' st in
                (bytes ++ fst (fst (fst r)), snd (fst (fst r)),
                 snd (fst r), snd r)
            | [] => (bytes, room - 4, [], st)
            end
  end.

(** RtlUnicodeToUTF8N.  [src] is NULL or the code units it points to,
    [srclen] is in bytes. *)
Definition RtlUnicodeToUTF8N (dst : bool) (dstlen : Z) (reslen : bool)
    (src : option (list Z)) (srclen : Z) : codec_result :=
  match src with
  | None => mk_codec STATUS_INVALID_PARAMETER_4 None []
  | Some src =>
      if negb reslen then mk_codec STATUS_INVALID_PARAMETER None []
      else if dst && negb (Z.land srclen 1 =? 0)
      then mk_codec STATUS_INVALID_PARAMETER_5 None []
      else
        let srclen := srclen / sizeof_WCHAR in
        let src := firstn (Z.to_nat srclen) src in
        if negb dst then
          let r := utf16_size src 0 STATUS_SUCCESS in
          mk_codec (snd r) (Some (fst r)) []
        else
          let r := utf16_write dstlen src STATUS_SUCCESS in
          let out := fst (fst (fst r)) in
          let room := snd (fst (fst r)) in
          let status := match snd (fst r) with
                        | [] => snd r
                        | _ :: _ => STATUS_BUFFER_TOO_SMALL
                        end in
          mk_codec status (Some (DWORD (dstlen - room))) out
  end.

End Utf8.

(** ** Facts about the UTF-8 codec *)

Module Utf8Facts.
Import Utf8.
Import CodePageFacts.

Section Utf8ToUnicodeFacts.
Variable decode : Z -> list Z -> Z * nat.

(** The number of code units a byte string decodes to, counted without
    the wrap of the C counter, and the status of a complete decoding. *)
Equations? utf8_scan (src : list Z) (st : NTSTATUS)
  : Z * NTSTATUS by wf (length src) lt :=
  utf8_scan [] st := (0, st);
  utf8_scan (ch :: rest) st :=
    if ch <? 0x80
    then (1 + fst (utf8_scan rest st), snd (utf8_scan rest st))
    else
      let res := DWORD (fst (decode ch rest)) in
      let src' := skipn (snd (decode ch rest)) rest in
      if res >? 0x10ffff
      then (1 + fst (utf8_scan src' STATUS_SOME_NOT_MAPPED),
            snd (utf8_scan src' STATUS_SOME_NOT_MAPPED))
      else if res >? 0xffff
      then (2 + fst (utf8_scan src' st), snd (utf8_scan src' st))
      else (1 + fst (utf8_scan src' st), snd (utf8_scan src' st)).
Proof.
  all: cbn [length]; try lia;
    subst src'; rewrite length_skipn; lia.
Qed.

Lemma len_skipn_le {A : Type} (k : nat) (l : list A) :
  len (skipn k l) <= len l.
Proof. unfold len. rewrite length_skipn. lia. Qed.

Lemma utf8_scan_bounds_aux (n : nat) :
  forall src st, (length src <= n)%nat ->
    0 <= fst (utf8_scan src st) <= 2 * len src.
Proof.
  induction n as [|n IH]; intros [|ch rest] st Hn;
    cbn [length] in Hn; simp utf8_scan; try (cbn; lia).
  cbv zeta. rewrite len_cons.
  pose proof (len_skipn_le (snd (decode ch rest)) rest) as Hk.
  assert (Hk' : (length (skipn (snd (decode ch rest)) rest) <= n)%nat)
    by (rewrite length_skipn; lia).
  destruct (ch <? 0x80).
  - cbn [fst]. specialize (IH rest st). lia.
  - destruct (_ >? 0x10ffff); [|destruct (_ >? 0xffff)]; cbn [fst];
      match goal with
      | |- context [utf8_scan ?s ?t] => specialize (IH s t Hk')
      end; lia.
Qed.

Lemma utf8_scan_bounds (src : list Z) (st : NTSTATUS) :
  0 <= fst (utf8_scan src st) <= 2 * len src.
Proof. apply (utf8_scan_bounds_aux (length src)). lia. Qed.

(** Below the wrap, the size-only loop counts what [utf8_scan] counts. *)
Lemma utf8_size_scan_aux (n : nat) :
  forall src k st, (length src <= n)%nat ->
    0 <= k -> k + fst (utf8_scan src st) < 2 ^ 32 ->
    utf8_size decode src k st
    = (k + fst (utf8_scan src st), snd (utf8_scan src st)).
Proof.
  induction n as [|n IH]; intros [|ch rest] k st Hn Hk Hb;
    cbn [length] in Hn; simp utf8_size utf8_scan in *; try lia.
  - cbn. f_equal. lia.
  - cbn. f_equal. lia.
  - cbv zeta in *.
    assert (Hk' : (length (skipn (snd (decode ch rest)) rest) <= n)%nat)
      by (rewrite length_skipn; lia).
    destruct (ch <? 0x80).
    + pose proof (utf8_scan_bounds rest st).
      cbn [fst snd] in *. rewrite DWORD_small by lia.
      rewrite IH by lia. f_equal. lia.
    + destruct (_ >? 0x10ffff); [|destruct (_ >? 0xffff)];
        cbn [fst snd] in *;
        match goal with
        | |- context [utf8_scan ?s ?t] =>
            pose proof (utf8_scan_bounds s t)
        end;
        rewrite (DWORD_small (k + 1)) by lia;
        rewrite ?DWORD_small by lia;
        rewrite IH by lia; f_equal; lia.
Qed.

Lemma utf8_size_scan (src : list Z) (st : NTSTATUS) :
  fst (utf8_scan src st) < 2 ^ 32 ->
  utf8_size decode src 0 st = utf8_scan src st.
Proof.
  intros H. rewrite (utf8_size_scan_aux (length src)) by lia.
  destruct (utf8_scan src st); reflexivity.
Qed.

(** With room for every code unit, the writing loop stores that many,
    uses up the input and ends in the status of the size-only loop. *)
Lemma utf8_write_fits_aux (n : nat) :
  forall src out room st, (length src <= n)%nat ->
    fst (utf8_scan src st) <= room ->
    len (fst (fst (fst (utf8_write decode out room src st))))
      = len out + fst (utf8_scan src st) /\
    snd (fst (fst (utf8_write decode out room src st)))
      = room - fst (utf8_scan src st) /\
    snd (fst (utf8_write decode out room src st)) = [] /\
    snd (utf8_write decode out room src st) = snd (utf8_scan src st).
Proof.
  induction n as [|n IH]; intros [|ch rest] out room st Hn Hroom;
    cbn [length] in Hn; simp utf8_write utf8_scan in *; try lia.
  - cbn. repeat split; lia.
  - cbn. repeat split; lia.
  - cbv zeta in *.
    assert (Hk' : (length (skipn (snd (decode ch rest)) rest) <= n)%nat)
      by (rewrite length_skipn; lia).
    destruct (ch <? 0x80) eqn:Hch.
    + pose proof (utf8_scan_bounds rest st).
      cbn [fst snd] in *.
      destruct (Z.leb_spec room 0); [lia|].
      destruct (IH rest (out ++ [ch]) (room - 1) st) as (A & B & C & D);
        [lia|lia|].
      rewrite A, B, C, D, len_app, len_cons, len_nil.
      repeat split; lia.
    + set (res := DWORD (fst (decode ch rest))) in *.
      set (src' := skipn (snd (decode ch rest)) rest) in *.
      destruct (Z.gtb_spec res 0x10ffff) as [Hbig|Hbig];
        [|destruct (Z.gtb_spec res 0xffff) as [Hsup|Hsup]];
        cbn [fst snd] in *;
        match goal with
        | |- context [utf8_scan ?s ?t] =>
            pose proof (utf8_scan_bounds s t)
        end;
        destruct (Z.leb_spec room 0); try lia;
        destruct (Z.leb_spec res 0xffff); try lia;
        destruct (Z.leb_spec res 0x10ffff); try lia.
      * destruct (IH src' (out ++ [0xfffd]) (room - 1)
                    STATUS_SOME_NOT_MAPPED)
          as (A & B & C & D); [assumption|lia|].
        rewrite A, B, C, D, len_app, len_cons, len_nil.
        repeat split; lia.
      * destruct (Z.eqb_spec (room - 1) 0); [lia|].
        match goal with
        | |- context [utf8_write decode ?o ?r ?s ?t] =>
            destruct (IH s o r t) as (A & B & C & D); [assumption|lia|]
        end.
        rewrite A, B, C, D, !len_app, !len_cons, len_nil.
        repeat split; lia.
      * destruct (IH src' (out ++ [res]) (room - 1) st)
          as (A & B & C & D); [assumption|lia|].
        rewrite A, B, C, D, len_app, len_cons, len_nil.
        repeat split; lia.
Qed.

Lemma utf8_write_fits (src : list Z) (room : Z) (st : NTSTATUS) :
  fst (utf8_scan src st) <= room ->
  len (fst (fst (fst (utf8_write decode [] room src st))))
    = fst (utf8_scan src st) /\
  snd (fst (fst (utf8_write decode [] room src st)))
    = room - fst (utf8_scan src st) /\
  snd (fst (utf8_write decode [] room src st)) = [] /\
  snd (utf8_write decode [] room src st) = snd (utf8_scan src st).
Proof.
  intros H.
  destruct (utf8_write_fits_aux (length src) src [] room st) as (A & B);
    [lia | assumption |].
  rewrite len_nil in A. split; [lia | exact B].
Qed.
End Utf8ToUnicodeFacts.


(** *** UTF-16 to UTF-8 *)

(** The number of bytes a string of code units encodes to, counted
    without the wrap of the C counter, and the status of a complete
    encoding. *)
Fixpoint utf16_scan (src : list Z) (st : NTSTATUS) : Z * NTSTATUS :=
  match src with
  | [] => (0, st)
  | ch :: rest =>
      if ch <? 0x80 then (1 + fst (utf16_scan rest st), snd (utf16_scan rest st))
      else if ch <? 0x800
      then (2 + fst (utf16_scan rest st), snd (utf16_scan rest st))
      else
        let val := match get_utf16 src with
                   | Some (_, v) => v
                   | None => 0xfffd
                   end in
        let st := match get_utf16 src with
                  | Some _ => st
                  | None => STATUS_SOME_NOT_MAPPED
                  end in
        if val <? 0x10000
        then (3 + fst (utf16_scan rest st), snd (utf16_scan rest st))
        else match rest with
             | _ :: rest' =>
                 (4 + fst (utf16_scan rest' st), snd (utf16_scan rest' st))
             | [] => (4, st)
             end
  end.

(** One turn of the three loops, seen from outside: the code point
    [get_utf16] delivers (U+FFFD when it fails), the status after the
    turn, the number of bytes the code point takes and the input that is
    left. *)
Definition utf16_val (ch : Z) (rest : list Z) : Z :=
  match get_utf16 (ch :: rest) with
  | Some (_, v) => v
  | None => 0xfffd
  end.

Definition utf16_status (ch : Z) (rest : list Z) (st : NTSTATUS)
  : NTSTATUS :=
  if ch <? 0x800 then st
  else match get_utf16 (ch :: rest) with
       | Some _ => st
       | None => STATUS_SOME_NOT_MAPPED
       end.

Definition utf16_width (ch : Z) (rest : list Z) : Z :=
  if ch <? 0x80 then 1
  else if ch <? 0x800 then 2
  else if utf16_val ch rest <? 0x10000 then 3 else 4.

Definition utf16_next (ch : Z) (rest : list Z) : list Z :=
  if utf16_width ch rest =? 4 then tl rest else rest.

Lemma utf16_width_range (ch : Z) (rest : list Z) :
  1 <= utf16_width ch rest <= 4.
Proof.
  unfold utf16_width.
  destruct (ch <? 0x80); [lia|]. destruct (ch <? 0x800); [lia|].
  destruct (utf16_val ch rest <? 0x10000); lia.
Qed.

Lemma utf16_next_length (ch : Z) (rest : list Z) :
  (length (utf16_next ch rest) <= length rest)%nat.
Proof.
  unfold utf16_next. destruct (_ =? 4); [|lia].
  destruct rest; cbn [tl length]; lia.
Qed.

Lemma utf16_scan_cons (ch : Z) (rest : list Z) (st : NTSTATUS) :
  utf16_scan (ch :: rest) st =
  (utf16_width ch rest
   + fst (utf16_scan (utf16_next ch rest) (utf16_status ch rest st)),
   snd (utf16_scan (utf16_next ch rest) (utf16_status ch rest st))).
Proof.
  cbn [utf16_scan]. unfold utf16_next, utf16_width, utf16_status.
  fold (utf16_val ch rest).
  destruct (Z.ltb_spec ch 0x80); destruct (Z.ltb_spec ch 0x800); try lia;
    try reflexivity.
  destruct (utf16_val ch rest <? 0x10000); [reflexivity|].
  destruct rest; reflexivity.
Qed.

Lemma utf16_size_cons (ch : Z) (rest : list Z) (k : Z) (st : NTSTATUS) :
  utf16_size (ch :: rest) k st =
  utf16_size (utf16_next ch rest) (DWORD (k + utf16_width ch rest))
             (utf16_status ch rest st).
Proof.
  cbn [utf16_size]. unfold utf16_next, utf16_width, utf16_status.
  fold (utf16_val ch rest).
  destruct (Z.ltb_spec ch 0x80); destruct (Z.ltb_spec ch 0x800); try lia;
    try reflexivity.
  destruct (utf16_val ch rest <? 0x10000); [reflexivity|].
  destruct rest; reflexivity.
Qed.

Lemma utf16_write_cons (ch : Z) (rest : list Z) (room : Z) (st : NTSTATUS) :
  exists bytes : list Z,
    len bytes = utf16_width ch rest /\
    utf16_write room (ch :: rest) st =
    if room <? utf16_width ch rest
    then ([], room, ch :: rest, utf16_status ch rest st)
    else
      let r := utf16_write (room - utf16_width ch rest) (utf16_next ch rest)
                 (utf16_status ch rest st) in
      (bytes ++ fst (fst (fst r)), snd (fst (fst r)), snd (fst r), snd r).
Proof.
  cbn [utf16_write]. unfold utf16_next, utf16_width, utf16_status.
  fold (utf16_val ch rest).
  destruct (Z.ltb_spec ch 0x80).
  { destruct (Z.ltb_spec ch 0x800); [|lia].
    eexists [_]. split; [reflexivity|]. destruct (room <? 1); reflexivity. }
  destruct (Z.ltb_spec ch 0x800).
  { eexists [_; _]. split; [reflexivity|].
    destruct (room <? 2); reflexivity. }
  destruct (utf16_val ch rest <? 0x10000).
  { eexists [_; _; _]. split; [reflexivity|].
    destruct (room <? 3); reflexivity. }
  eexists [_; _; _; _]. split; [reflexivity|].
  destruct (room <? 4); [reflexivity|].
  destruct rest; cbn [Z.eqb Pos.eqb tl utf16_write fst snd app];
    reflexivity.
Qed.

Lemma utf16_scan_bounds_aux (n : nat) :
  forall src st, (length src <= n)%nat ->
    0 <= fst (utf16_scan src st) <= 4 * len src.
Proof.
  induction n as [|n IH]; intros [|ch rest] st Hn; cbn [length] in Hn;
    try lia; try (cbn [utf16_scan fst]; rewrite (@len_nil Z); lia).
  rewrite utf16_scan_cons, len_cons. cbn [fst].
  pose proof (utf16_width_range ch rest).
  pose proof (utf16_next_length ch rest) as Hl.
  specialize (IH (utf16_next ch rest) (utf16_status ch rest st)).
  unfold len in *. lia.
Qed.

Lemma utf16_scan_bounds (src : list Z) (st : NTSTATUS) :
  0 <= fst (utf16_scan src st) <= 4 * len src.
Proof. apply (utf16_scan_bounds_aux (length src)). lia. Qed.

Lemma utf16_size_scan_aux (n : nat) :
  forall src k st, (length src <= n)%nat ->
    0 <= k -> k + fst (utf16_scan src st) < 2 ^ 32 ->
    utf16_size src k st
    = (k + fst (utf16_scan src st), snd (utf16_scan src st)).
Proof.
  induction n as [|n IH]; intros [|ch rest] k st Hn Hk Hb;
    cbn [length] in Hn; try lia;
    try (cbn [utf16_scan utf16_size fst snd]; f_equal; lia).
  rewrite utf16_scan_cons in *. rewrite utf16_size_cons. cbn [fst snd] in *.
  pose proof (utf16_width_range ch rest).
  pose proof (utf16_next_length ch rest) as Hl.
  pose proof (utf16_scan_bounds (utf16_next ch rest)
                (utf16_status ch rest st)).
  rewrite DWORD_small by lia. rewrite IH by lia. f_equal. lia.
Qed.

Lemma utf16_size_scan (src : list Z) (st : NTSTATUS) :
  fst (utf16_scan src st) < 2 ^ 32 ->
  utf16_size src 0 st = utf16_scan src st.
Proof.
  intros H. rewrite (utf16_size_scan_aux (length src)) by lia.
  destruct (utf16_scan src st); reflexivity.
Qed.

Lemma utf16_write_fits_aux (n : nat) :
  forall src room st, (length src <= n)%nat ->
    fst (utf16_scan src st) <= room ->
    len (fst (fst (fst (utf16_write room src st))))
      = fst (utf16_scan src st) /\
    snd (fst (fst (utf16_write room src st)))
      = room - fst (utf16_scan src st) /\
    snd (fst (utf16_write room src st)) = [] /\
    snd (utf16_write room src st) = snd (utf16_scan src st).
Proof.
  induction n as [|n IH]; intros [|ch rest] room st Hn Hroom;
    cbn [length] in Hn; try lia;
    try (cbn [utf16_scan utf16_write fst snd]; rewrite (@len_nil Z);
         repeat split; lia).
  rewrite utf16_scan_cons in *. cbn [fst snd] in *.
  destruct (utf16_write_cons ch rest room st) as (bytes & Hlen & ->).
  pose proof (utf16_width_range ch rest).
  pose proof (utf16_next_length ch rest) as Hl.
  pose proof (utf16_scan_bounds (utf16_next ch rest)
                (utf16_status ch rest st)).
  destruct (Z.ltb_spec room (utf16_width ch rest)); [lia|].
  destruct (IH (utf16_next ch rest) (room - utf16_width ch rest)
              (utf16_status ch rest st)) as (A & B & C & D); [lia | lia |].
  cbv zeta. cbn [fst snd]. rewrite len_app, A, B, C, D, Hlen.
  repeat split; lia.
Qed.

Lemma utf16_write_fits (src : list Z) (room : Z) (st : NTSTATUS) :
  fst (utf16_scan src st) <= room ->
  len (fst (fst (fst (utf16_write room src st))))
    = fst (utf16_scan src st) /\
  snd (fst (fst (utf16_write room src st)))
    = room - fst (utf16_scan src st) /\
  snd (fst (utf16_write room src st)) = [] /\
  snd (utf16_write room src st) = snd (utf16_scan src st).
Proof. apply (utf16_write_fits_aux (length src)). lia. Qed.

(** get_utf16 yields a supplementary code point only from two code units,
    so the four-byte branch never steps past the end of the input. *)
Lemma utf16_width_4_has_pair (ch : Z) (rest : list Z) :
  ch < 0x10000 -> utf16_width ch rest = 4 -> rest <> [].
Proof.
  intros Hch Hw Hnil. subst rest. revert Hw.
  unfold utf16_width, utf16_val, get_utf16.
  destruct (ch <? 0x80); [lia|]. destruct (ch <? 0x800); [lia|].
  destruct (IS_HIGH_SURROGATE ch).
  { change (0xfffd <? 0x10000) with true. lia. }
  destruct (IS_LOW_SURROGATE ch).
  { change (0xfffd <? 0x10000) with true. lia. }
  destruct (Z.ltb_spec ch 0x10000); lia.
Qed.

(** C1.  For every decoder, every UTF-8 input and every UTF-16 input (with
    or without invalid surrogates), the length the size-only pass
    (dst = NULL) stores in [*reslen] is the length the writing pass stores
    there, and the number of units the writing pass writes, whenever the
    destination has room for that length; both passes end in the same
    status. *)
Theorem size_pass_matches_writing_pass :
  forall (decode : Z -> list Z -> Z * nat) (dstlen : Z),
    0 <= dstlen < 2 ^ 32 ->
    (forall (src : list Z) (n : Z),
       len src < 2 ^ 30 ->
       let sz := RtlUTF8ToUnicodeN decode false 0 true (Some src) (len src) in
       let wr := RtlUTF8ToUnicodeN decode true dstlen true (Some src)
                   (len src) in
       u_reslen sz = Some n -> n <= dstlen ->
       u_reslen wr = Some n /\
       len (u_written wr) * sizeof_WCHAR = n /\
       u_status wr = u_status sz) /\
    (forall (src : list Z) (n : Z),
       len src < 2 ^ 30 ->
       let sz := RtlUnicodeToUTF8N false 0 true (Some src)
                   (len src * sizeof_WCHAR) in
       let wr := RtlUnicodeToUTF8N true dstlen true (Some src)
                   (len src * sizeof_WCHAR) in
       u_reslen sz = Some n -> n <= dstlen ->
       u_reslen wr = Some n /\
       len (u_written wr) = n /\
       u_status wr = u_status sz).
Proof.
  intros decode dstlen Hdst. split.
  - intros src n Hsrc sz wr. subst sz wr.
    unfold RtlUTF8ToUnicodeN. cbn [negb]. rewrite firstn_len.
    pose proof (utf8_scan_bounds decode src STATUS_SUCCESS) as Hb.
    rewrite utf8_size_scan by lia.
    cbn [u_reslen u_written u_status]. unfold sizeof_WCHAR in *.
    rewrite DWORD_small by lia.
    intros Hn Hfit. inversion Hn; subst n; clear Hn.
    assert (Hroom : fst (utf8_scan decode src STATUS_SUCCESS) <= dstlen / 2)
      by (apply Z.div_le_lower_bound; lia).
    destruct (utf8_write_fits decode src (dstlen / 2) STATUS_SUCCESS Hroom)
      as (A & B & C & D).
    rewrite B, C, D, A.
    replace (dstlen / 2 - (dstlen / 2 - fst (utf8_scan decode src STATUS_SUCCESS)))
      with (fst (utf8_scan decode src STATUS_SUCCESS)) by lia.
    rewrite DWORD_small by lia. repeat split.
  - intros src n Hsrc sz wr. subst sz wr.
    unfold RtlUnicodeToUTF8N. cbn [negb andb].
    assert (Heven : Z.land (len src * sizeof_WCHAR) 1 = 0).
    { unfold sizeof_WCHAR. change 1 with (Z.ones 1).
      rewrite Z.land_ones by lia. change (2 ^ 1) with 2.
      apply Z.mod_mul. lia. }
    rewrite Heven. cbn [Z.eqb negb].
    rewrite srclen_units, firstn_len.
    pose proof (utf16_scan_bounds src STATUS_SUCCESS) as Hb.
    rewrite utf16_size_scan by lia.
    cbn [u_reslen u_written u_status].
    intros Hn Hfit. inversion Hn; subst n; clear Hn.
    destruct (utf16_write_fits src dstlen STATUS_SUCCESS Hfit)
      as (A & B & C & D).
    rewrite B, C, D, A.
    replace (dstlen - (dstlen - fst (utf16_scan src STATUS_SUCCESS)))
      with (fst (utf16_scan src STATUS_SUCCESS)) by lia.
    rewrite DWORD_small by lia. repeat split.
Qed.

(** The theorem on "A", U+00E9, U+20AC, U+1F600 and a stray FF, in both
    directions, with a destination of 32 bytes. *)
Lemma size_pass_matches_writing_pass_witness :
  let utf8 := [0x41; 0xc3; 0xa9; 0xe2; 0x82; 0xac; 0xf0; 0x9f; 0x98; 0x80;
               0xff] in
  let utf16 := [0x41; 0xe9; 0x20ac; 0xd83d; 0xde00; 0xdc00] in
  let wr8 := RtlUTF8ToUnicodeN decode_utf8_char true 32 true (Some utf8)
               (len utf8) in
  let wr16 := RtlUnicodeToUTF8N true 32 true (Some utf16)
                (len utf16 * sizeof_WCHAR) in
  (u_reslen wr8 = Some 12 /\
   len (u_written wr8) * sizeof_WCHAR = 12 /\
   u_status wr8 = u_status (RtlUTF8ToUnicodeN decode_utf8_char false 0 true
                              (Some utf8) (len utf8))) /\
  (u_reslen wr16 = Some 13 /\
   len (u_written wr16) = 13 /\
   u_status wr16 = u_status (RtlUnicodeToUTF8N false 0 true (Some utf16)
                               (len utf16 * sizeof_WCHAR))).
Proof.
  cbv zeta.
  destruct (size_pass_matches_writing_pass decode_utf8_char 32) as [H8 H16];
    [lia|].
  split.
  - apply H8; [vm_compute; reflexivity | vm_compute; reflexivity | lia].
  - apply H16; [vm_compute; reflexivity | vm_compute; reflexivity | lia].
Defined.

Section LoneSurrogate.
Variable decode : Z -> list Z -> Z * nat.

Lemma utf8_write_ascii_prefix (pre tail : list Z) :
  forall out room st,
    Forall (fun c => c < 0x80) pre -> len pre <= room ->
    utf8_write decode out room (pre ++ tail) st =
    utf8_write decode (out ++ pre) (room - len pre) tail st.
Proof.
  induction pre as [|c pre IH]; intros out room st Hascii Hroom.
  - cbn [app]. rewrite len_nil, Z.sub_0_r, app_nil_r. reflexivity.
  - inversion Hascii; subst. rewrite len_cons in *.
    pose proof (len_nonneg pre).
    cbn [app]. simp utf8_write.
    destruct (Z.leb_spec room 0); [lia|].
    destruct (Z.ltb_spec c 0x80); [|lia].
    rewrite IH by (assumption || lia).
    rewrite <- app_assoc. cbn [app].
    replace (room - 1 - len pre) with (room - (len pre + 1)) by lia.
    reflexivity.
Qed.

(** How the writing pass of RtlUTF8ToUnicodeN ends when the destination
    fills right after the high surrogate of a supplementary code point
    (here after an ASCII prefix): the lone high surrogate is the last
    unit stored and is counted in the reported length; the status is
    STATUS_BUFFER_TOO_SMALL when bytes remain after the sequence, and
    otherwise stays what it was. *)
Lemma utf8_write_lone_high_surrogate :
  forall (pre : list Z) (ch : Z) (rest : list Z) (dstlen : Z),
    Forall (fun c => c < 0x80) pre ->
    0x80 <= ch ->
    0xffff < DWORD (fst (decode ch rest)) <= 0x10ffff ->
    dstlen / sizeof_WCHAR = len pre + 1 ->
    dstlen < 2 ^ 32 ->
    let hi := high_surrogate (DWORD (fst (decode ch rest))) in
    RtlUTF8ToUnicodeN decode true dstlen true (Some (pre ++ ch :: rest))
      (len (pre ++ ch :: rest))
    = mk_codec
        (match skipn (snd (decode ch rest)) rest with
         | [] => STATUS_SUCCESS
         | _ :: _ => STATUS_BUFFER_TOO_SMALL
         end)
        (Some ((len pre + 1) * sizeof_WCHAR))
        (pre ++ [hi]).
Proof.
  intros pre ch rest dstlen Hascii Hch Hres Hroom Hmax hi.
  unfold RtlUTF8ToUnicodeN. cbn [negb]. rewrite firstn_len, Hroom.
  pose proof (len_nonneg pre) as Hpre.
  rewrite utf8_write_ascii_prefix by (assumption || lia).
  replace (len pre + 1 - len pre) with 1 by lia.
  simp utf8_write. cbv zeta.
  change (1 <=? 0) with false. cbn [app].
  destruct (Z.ltb_spec ch 0x80); [lia|].
  destruct (Z.leb_spec (DWORD (fst (decode ch rest))) 0xffff); [lia|].
  destruct (Z.leb_spec (DWORD (fst (decode ch rest))) 0x10ffff); [|lia].
  cbn [Z.sub Z.eqb Z.opp Z.add Z.pos_sub fst snd].
  replace (len pre + 1 - 0) with (len pre + 1) by lia.
  assert (Hd : (len pre + 1) * sizeof_WCHAR <= dstlen).
  { rewrite <- Hroom. unfold sizeof_WCHAR.
    rewrite Z.mul_comm. apply Z.mul_div_le. lia. }
  unfold sizeof_WCHAR in *.
  rewrite DWORD_small by lia.
  destruct (skipn (snd (decode ch rest)) rest); reflexivity.
Qed.
End LoneSurrogate.


(** C10: the end-of-input case.  The four bytes F0 90 80 80 (U+10000) with
    room for one code unit: the lone high surrogate D800 is stored and
    counted, the input is used up, and the status is STATUS_SUCCESS; the
    size-only pass asks for two code units. *)
Lemma utf8_lone_high_surrogate_at_end :
  RtlUTF8ToUnicodeN decode_utf8_char true 2 true
    (Some [0xf0; 0x90; 0x80; 0x80]) 4
    = mk_codec STATUS_SUCCESS (Some 2) [0xd800] /\
  RtlUTF8ToUnicodeN decode_utf8_char false 0 true
    (Some [0xf0; 0x90; 0x80; 0x80]) 4
    = mk_codec STATUS_SUCCESS (Some 4) [] /\
  RtlUTF8ToUnicodeN decode_utf8_char true 2 true
    (Some [0xf0; 0x90; 0x80; 0x80; 0x41]) 5
    = mk_codec STATUS_BUFFER_TOO_SMALL (Some 2) [0xd800].
Proof.
  split; [|split].
  - apply (utf8_write_lone_high_surrogate decode_utf8_char []
             0xf0 [0x90; 0x80; 0x80] 2);
      [constructor | lia | vm_compute; split; congruence
      | reflexivity | lia].
  - vm_compute. reflexivity.
  - apply (utf8_write_lone_high_surrogate decode_utf8_char []
             0xf0 [0x90; 0x80; 0x80; 0x41] 2);
      [constructor | lia | vm_compute; split; congruence
      | reflexivity | lia].
Qed.

(** The sibling routine checks the room before it consumes a code unit:
    a surrogate pair that does not fit leaves input behind and reports
    STATUS_BUFFER_TOO_SMALL. *)
Example utf16_pair_does_not_fit :
  RtlUnicodeToUTF8N true 3 true (Some [0xd800; 0xdc00]) 4
  = mk_codec STATUS_BUFFER_TOO_SMALL (Some 0) [].
Proof. vm_compute. reflexivity. Qed.

End Utf8Facts.

(** ** The normalization-table loader *)

Module NormTable.

(** A section view as NtGetNlsSectionPtr returns it: base address, the
    USHORTs at [data] and the size in bytes. *)
Record nls_section : Type := {
  sec_base : Z;
  sec_data : Z -> Z;
  sec_size : Z
}.

(** The state the loader shares with every other thread: the sixteen
    slots of [norm_tables], and the views handed to NtUnmapViewOfSection
    so far. *)
Record shared : Type := {
  norm_tables : Z -> option nls_section;
  unmapped : list nls_section
}.

Definition initial : shared :=
  {| norm_tables := fun _ => None; unmapped := [] |}.

Definition ARRAY_SIZE_norm_tables : Z := 16.
Definition sizeof_USHORT : Z := 2.

Definition NtUnmapViewOfSection (sec : nls_section) (sh : shared) : shared :=
  {| norm_tables := norm_tables sh; unmapped := sec :: unmapped sh |}.

(** InterlockedCompareExchangePointer( &norm_tables[form], data, NULL ):
    the previous content of the slot, and the slot filled if it was
    NULL. *)
Definition InterlockedCompareExchangePointer (form : Z)
    (exchange : nls_section) (sh : shared) : option nls_section * shared :=
  match norm_tables sh form with
  | Some old => (Some old, sh)
  | None =>
      (None,
       {| norm_tables := fun f => if f =? form then Some exchange
                                  else norm_tables sh f;
          unmapped := unmapped sh |})
  end.

(** [for (i = 0; i < 8; i++)] over [tables = data + 0x1a]; [n] counts the
    turns left. *)
Fixpoint check_tables (tables : Z -> Z) (size : Z) (i : Z) (n : nat)
  : bool :=
  match n with
  | O => true
  | S n' =>
      if tables i >? size / sizeof_USHORT then false
      else if negb (i =? 0) && (tables i <? tables (i - 1)) then false
      else check_tables tables size (i + 1) n'
  end.

(** The sanity checks: [true] when none of them jumps to [invalid]. *)
Definition sanity_checks (form : Z) (sec : nls_section) : bool :=
  if sec_size sec <=? 0x44 then false
  else if negb (sec_data sec 0x14 =? form) then false
  else check_tables (fun i => sec_data sec (0x1a + i)) (sec_size sec) 0 8.

(** How far a call has come once the section is fetched and checked:
    finished with a status and the table stored in [*info], or holding a
    checked view that is still to be published. *)
Inductive checked : Type :=
| Done (st : NTSTATUS) (info : option nls_section)
| ToPublish (sec : nls_section).

Section Loader.
(** NtGetNlsSectionPtr( NLS_SECTION_NORMALIZE, form, ... ): the status
    and the view mapped. *)
Variable NtGetNlsSectionPtr : Z -> NTSTATUS * nls_section.

(** load_norm_table up to the compare-exchange. *)
Definition load_norm_table_check (form : Z) (sh : shared)
  : checked * shared :=
  if form =? 0 then (Done STATUS_INVALID_PARAMETER None, sh)
  else if form >=? ARRAY_SIZE_norm_tables
  then (Done STATUS_OBJECT_NAME_NOT_FOUND None, sh)
  else match norm_tables sh form with
       | Some t => (Done STATUS_SUCCESS (Some t), sh)
       | None =>
           let (status, data) := NtGetNlsSectionPtr form in
           if failed status then (Done status None, sh)
           else if sanity_checks form data then (ToPublish data, sh)
           else (Done STATUS_INVALID_PARAMETER None,
                 NtUnmapViewOfSection data sh)
       end.

(** The compare-exchange and what follows it. *)
Definition load_norm_table_publish (form : Z) (data : nls_section)
    (sh : shared) : NTSTATUS * option nls_section * shared :=
  let (prev, sh) := InterlockedCompareExchangePointer form data sh in
  let sh := match prev with
            | Some _ => NtUnmapViewOfSection data sh
            | None => sh
            end in
  (STATUS_SUCCESS, norm_tables sh form, sh).

(** load_norm_table, run without interference: status, [*info], and
    the shared state afterwards. *)
Definition load_norm_table (form : Z) (sh : shared)
  : NTSTATUS * option nls_section * shared :=
  match load_norm_table_check form sh with
  | (Done st info, sh) => (st, info, sh)
  | (ToPublish data, sh) => load_norm_table_publish form data sh
  end.
End Loader.

(** Threads running the loader side by side: the shared state and, for
    each call that has passed the checks and not yet reached the
    compare-exchange, its form and view.  Every step may see a different
    answer from the table provider. *)
Definition config : Type := shared * list (Z * nls_section).

Inductive sys_step : config -> config -> Prop :=
| step_check_done :
    forall provider form sh pending st info sh',
      load_norm_table_check provider form sh = (Done st info, sh') ->
      sys_step (sh, pending) (sh', pending)
| step_check_publish :
    forall provider form sh pending data sh',
      load_norm_table_check provider form sh = (ToPublish data, sh') ->
      sys_step (sh, pending) (sh', (form, data) :: pending)
| step_publish :
    forall form data sh before after,
      sys_step (sh, before ++ (form, data) :: after)
               (snd (load_norm_table_publish form data sh), before ++ after).

Inductive reachable : config -> Prop :=
| reach_initial : reachable (initial, [])
| reach_step : forall c c', reachable c -> sys_step c c' -> reachable c'.

(** The validity the specification asks of a blob for a form: size above
    the header bound, the form tag at offset 0x14, and the eight sub-table
    offsets within the blob and non-decreasing. *)
Definition valid_blob (form : Z) (sec : nls_section) : Prop :=
  0x44 < sec_size sec /\
  sec_data sec 0x14 = form /\
  (forall i, 0 <= i < 8 ->
     sec_data sec (0x1a + i) <= sec_size sec / sizeof_USHORT) /\
  (forall i, 0 < i < 8 ->
     sec_data sec (0x1a + (i - 1)) <= sec_data sec (0x1a + i)).

Definition cache_valid (sh : shared) : Prop :=
  forall form sec, norm_tables sh form = Some sec -> valid_blob form sec.

(** Sample views: a well-formed table for form 13, and one whose tag says
    form 1. *)
Definition sample_table (tag : Z) : nls_section :=
  {| sec_base := 0x10000 * tag;
     sec_data := fun i => if i =? 0x14 then tag
                          else if (0x1a <=? i) && (i <? 0x22)
                          then 0x22 + (i - 0x1a)
                          else 0;
     sec_size := 0x100 |}.

Definition sample_provider (tag : Z) (form : Z) : NTSTATUS * nls_section :=
  (STATUS_SUCCESS, sample_table tag).

End NormTable.

(** ** Facts about the normalization-table loader *)

Module NormTableFacts.
Import NormTable.

Lemma check_tables_spec (tables : Z -> Z) (size : Z) (n : nat) :
  forall i,
    check_tables tables size i n = true <->
    (forall j, i <= j < i + Z.of_nat n ->
       tables j <= size / sizeof_USHORT /\
       (j <> 0 -> tables (j - 1) <= tables j)).
Proof.
  induction n as [|n IH]; intros i.
  - cbn [check_tables]. split; [intros _ j Hj; lia | reflexivity].
  - cbn [check_tables].
    destruct (Z.gtb_spec (tables i) (size / sizeof_USHORT)) as [Hbig|Hok].
    { split; [discriminate|]. intros H. destruct (H i); lia. }
    destruct (Z.eqb_spec i 0) as [Hi|Hi]; cbn [negb andb].
    + rewrite IH. split; intros H j Hj.
      * destruct (Z.eq_dec j i) as [->|Hne]; [split; [lia|intros; lia]|].
        apply H. lia.
      * apply H. lia.
    + destruct (Z.ltb_spec (tables i) (tables (i - 1))) as [Hdec|Hinc].
      { split; [discriminate|]. intros H. destruct (H i) as [_ H']; lia. }
      rewrite IH. split; intros H j Hj.
      * destruct (Z.eq_dec j i) as [->|Hne]; [split; [lia|intros; lia]|].
        apply H. lia.
      * apply H. lia.
Qed.

(** The checks of the code are the validity of the specification. *)
Lemma sanity_checks_valid (form : Z) (sec : nls_section) :
  sanity_checks form sec = true <-> valid_blob form sec.
Proof.
  unfold sanity_checks, valid_blob.
  destruct (Z.leb_spec (sec_size sec) 0x44) as [Hs|Hs].
  { split; [discriminate | intros (H & _); lia]. }
  destruct (Z.eqb_spec (sec_data sec 0x14) form) as [Ht|Ht]; cbn [negb].
  2:{ split; [discriminate | intros (_ & H & _); contradiction]. }
  rewrite check_tables_spec. split.
  - intros H. repeat split; try assumption.
    + intros i Hi. apply (H i). lia.
    + intros i Hi. destruct (H i) as [_ H']; [lia|].
      apply H'. lia.
  - intros (_ & _ & Hin & Hmono) j Hj. split.
    + apply Hin. lia.
    + intros Hj0. replace (0x1a + j - 1) with (0x1a + (j - 1)) by lia.
      replace (26 + (j - 1)) with (0x1a + (j - 1)) by reflexivity.
      apply Hmono. lia.
Qed.

Lemma failed_false (st : NTSTATUS) : failed st = false <-> st = STATUS_SUCCESS.
Proof.
  unfold failed. destruct (NTSTATUS_eq_dec st STATUS_SUCCESS);
    split; congruence.
Qed.

(** A pending publication carries a view that passed the checks. *)
Definition pending_ok (p : Z * nls_section) : Prop :=
  valid_blob (fst p) (snd p).

Definition invariant (c : config) : Prop :=
  cache_valid (fst c) /\ Forall pending_ok (snd c).

(** The checking half never touches the slots, and hands on only views
    that passed the checks. *)
Lemma check_preserves (provider : Z -> NTSTATUS * nls_section)
    (form : Z) (sh sh' : shared) (r : checked) :
  load_norm_table_check provider form sh = (r, sh') ->
  norm_tables sh' = norm_tables sh /\
  (forall data, r = ToPublish data -> valid_blob form data).
Proof.
  unfold load_norm_table_check.
  destruct (form =? 0).
  { intros H; inversion H; subst. split; [reflexivity | discriminate]. }
  destruct (form >=? ARRAY_SIZE_norm_tables).
  { intros H; inversion H; subst. split; [reflexivity | discriminate]. }
  destruct (norm_tables sh form) eqn:Hslot.
  { intros H; inversion H; subst. split; [reflexivity | discriminate]. }
  destruct (provider form) as [status data].
  destruct (failed status).
  { intros H; inversion H; subst. split; [reflexivity | discriminate]. }
  destruct (sanity_checks form data) eqn:Hchk.
  - intros H; inversion H; subst. split; [reflexivity|].
    intros d Hd. inversion Hd; subst.
    apply sanity_checks_valid. exact Hchk.
  - intros H; inversion H; subst. split; [reflexivity | discriminate].
Qed.

(** The publishing half fills an empty slot with its view and leaves a
    filled slot alone. *)
Lemma publish_preserves (form : Z) (data : nls_section) (sh : shared) :
  cache_valid sh -> valid_blob form data ->
  cache_valid (snd (load_norm_table_publish form data sh)).
Proof.
  intros Hcache Hvalid.
  unfold load_norm_table_publish, InterlockedCompareExchangePointer.
  destruct (norm_tables sh form) eqn:Hslot; cbn [snd].
  - exact Hcache.
  - intros f sec. cbn [norm_tables].
    destruct (Z.eqb_spec f form) as [->|Hne].
    + intros H; inversion H; subst. exact Hvalid.
    + apply Hcache.
Qed.

Lemma step_preserves (c c' : config) :
  sys_step c c' -> invariant c -> invariant c'.
Proof.
  intros Hstep [Hcache Hpend].
  destruct Hstep as [provider form sh pending st info sh' Hchk
                    |provider form sh pending data sh' Hchk
                    |form data sh before after];
    cbn [fst snd] in *.
  - destruct (check_preserves _ _ _ _ _ Hchk) as [Hsame _].
    split; [|assumption].
    intros f sec. cbn [fst]. rewrite Hsame. apply Hcache.
  - destruct (check_preserves _ _ _ _ _ Hchk) as [Hsame Hvalid].
    split.
    + intros f sec. cbn [fst]. rewrite Hsame. apply Hcache.
    + constructor; [|assumption]. apply Hvalid. reflexivity.
  - apply Forall_app in Hpend. destruct Hpend as [Hb Ha].
    inversion Ha as [|p l Hp Ha']; subst.
    split.
    + apply publish_preserves; assumption.
    + apply Forall_app. split; assumption.
Qed.

Lemma reachable_invariant (c : config) : reachable c -> invariant c.
Proof.
  induction 1 as [|c c' _ IH Hstep].
  - split; [|constructor]. intros form sec H. discriminate.
  - eapply step_preserves; eassumption.
Qed.

(** C9.  In every state the loader can reach, with any number of calls
    under way and whatever the table provider hands out, each view stored
    in a slot of the cache is valid for that slot's form (size above
    0x44, form tag at offset 0x14, the eight offsets within the blob and
    non-decreasing).  A call that finds its slot empty and is handed a
    view failing any of the checks returns STATUS_INVALID_PARAMETER,
    stores no table in [*info], unmaps the view and leaves every slot as
    it was. *)
Theorem load_norm_table_caches_only_valid :
  forall c : config,
    reachable c ->
    cache_valid (fst c) /\
    (forall (provider : Z -> NTSTATUS * nls_section) (form : Z)
            (data : nls_section),
       form <> 0 -> form < ARRAY_SIZE_norm_tables ->
       norm_tables (fst c) form = None ->
       provider form = (STATUS_SUCCESS, data) ->
       ~ valid_blob form data ->
       let r := load_norm_table provider form (fst c) in
       fst (fst r) = STATUS_INVALID_PARAMETER /\
       snd (fst r) = None /\
       norm_tables (snd r) = norm_tables (fst c) /\
       unmapped (snd r) = data :: unmapped (fst c) /\
       reachable (snd r, snd c)).
Proof.
  intros c Hreach. split.
  - apply reachable_invariant. exact Hreach.
  - intros provider form data H0 H16 Hslot Hprov Hbad r.
    assert (Hchk : load_norm_table_check provider form (fst c)
                   = (Done STATUS_INVALID_PARAMETER None,
                      NtUnmapViewOfSection data (fst c))).
    { unfold load_norm_table_check.
      destruct (Z.eqb_spec form 0); [contradiction|].
      destruct (Z.geb_spec form ARRAY_SIZE_norm_tables); [lia|].
      rewrite Hslot, Hprov. cbn [failed].
      destruct (sanity_checks form data) eqn:Hs; [|reflexivity].
      exfalso. apply Hbad. apply sanity_checks_valid. exact Hs. }
    subst r. unfold load_norm_table. rewrite Hchk. cbn [fst snd].
    repeat split.
    destruct c as [sh pending]. cbn [fst snd] in *.
    eapply reach_step; [exact Hreach|].
    eapply step_check_done. exact Hchk.
Qed.

(** A reachable state for the concrete check: one call has loaded the
    sample table of form 13. *)
Definition sample_loaded : config :=
  (snd (load_norm_table_publish 13 (sample_table 13) initial), [] ++ []).

Lemma sample_loaded_reachable : reachable sample_loaded.
Proof.
  eapply reach_step.
  - eapply reach_step; [apply reach_initial|].
    apply (step_check_publish (sample_provider 13) 13 initial []
             (sample_table 13) initial).
    reflexivity.
  - apply (step_publish 13 (sample_table 13) initial [] []).
Qed.

(** With form 13 loaded, a call for form 12 that is handed a table tagged
    for form 1 is turned away. *)
Lemma load_norm_table_caches_only_valid_witness :
  cache_valid (fst sample_loaded) /\
  (let r := load_norm_table (sample_provider 1) 12 (fst sample_loaded) in
   fst (fst r) = STATUS_INVALID_PARAMETER /\
   snd (fst r) = None /\
   norm_tables (snd r) = norm_tables (fst sample_loaded) /\
   unmapped (snd r) = sample_table 1 :: unmapped (fst sample_loaded) /\
   reachable (snd r, snd sample_loaded)).
Proof.
  destruct (load_norm_table_caches_only_valid sample_loaded
              sample_loaded_reachable) as [Hcache Hreject].
  split; [exact Hcache|].
  apply (Hreject (sample_provider 1) 12 (sample_table 1)).
  - discriminate.
  - reflexivity.
  - reflexivity.
  - reflexivity.
  - intros (_ & Htag & _). cbn in Htag. discriminate.
Defined.

Example load_norm_table_sample :
  fst (load_norm_table (sample_provider 13) 13 initial)
    = (STATUS_SUCCESS, Some (sample_table 13)) /\
  fst (load_norm_table (sample_provider 13) 0 initial)
    = (STATUS_INVALID_PARAMETER, None) /\
  fst (load_norm_table (sample_provider 13) 16 initial)
    = (STATUS_OBJECT_NAME_NOT_FOUND, None).
Proof. repeat split. Qed.

End NormTableFacts.

(** ** IDN Nameprep *)

Module Idn.
Import Utf8 NormTable.

Definition IDN_ALLOW_UNASSIGNED : Z := 0x01.
Definition IDN_USE_STD3_ASCII_RULES : Z := 0x02.

(** What RtlIdnToNameprepUnicode hands back: the status, the value left
    in [*dstlen] ([None] when the call returns before storing it) and the
    code units copied to [dst]. *)
Record idn_result : Type := mk_idn {
  i_status : NTSTATUS;
  i_dstlen : option Z;
  i_written : list Z
}.

(** [s[i]]: a read past the end of the units given yields the NUL that
    ends the string. *)
Definition wchar_at (s : list Z) (i : Z) : Z := nth (Z.to_nat i) s 0.

(** [buf[i]] of a local array of which the units [buf] have been
    written: the unit stored there, and for an element behind them
    whatever the stack holds at that place, [stale i]. *)
Definition buf_at (stale : Z -> Z) (buf : list Z) (i : Z) : Z :=
  if i <? len buf then wchar_at buf i else stale i.

Fixpoint wcslen (s : list Z) : Z :=
  match s with
  | [] => 0
  | c :: rest => if c =? 0 then 0 else 1 + wcslen rest
  end.

(** The first [n] units at [s] (NUL where the list is exhausted). *)
Definition units (s : list Z) (n : Z) : list Z :=
  map (wchar_at s) (map Z.of_nat (seq 0 (Z.to_nat n))).

(** [for (i = 0; i < srclen; i++) if (src[i] < 0x20 || src[i] >= 0x7f)
    break;] over the units still to look at: the final [i]. *)
Fixpoint first_non_ascii (s : list Z) (i : Z) : Z :=
  match s with
  | [] => i
  | c :: rest =>
      if (c <? 0x20) || (c >=? 0x7f) then i else first_non_ascii rest (i + 1)
  end.

(** One turn of the validation loop after [get_utf16] and the NUL test:
    return from the function with a status, or go on ([i += len]) with
    this [start]. *)
Inductive flow : Type :=
| Ret (st : NTSTATUS)
| Next (start : Z).

Section Nameprep.
(** The table provider behind load_norm_table. *)
Variable NtGetNlsSectionPtr : Z -> NTSTATUS * nls_section.
(** get_char_props( info, ch ) of locale_private.h, which is not among
    the sources: the property byte the table at [info] holds for a code
    point. *)
Variable get_char_props : option nls_section -> Z -> Z.
(** RtlNormalizeString( form, src, src_len, dst, &dst_len ) for a
    destination of [dst_len] units: its status and the units it stores.
    Its working parts, decompose_string and compose_string, are not
    among the sources. *)
Variable RtlNormalizeString : Z -> list Z -> Z -> Z -> NTSTATUS * list Z.
(** What the stack holds where the local [WCHAR buf[256]] of
    RtlIdnToNameprepUnicode is, in the elements the call does not
    write. *)
Variable stale : Z -> Z.

Definition std3 (flags : Z) : bool :=
  negb (Z.land flags IDN_USE_STD3_ASCII_RULES =? 0).
Definition allow_unassigned (flags : Z) : bool :=
  negb (Z.land flags IDN_ALLOW_UNASSIGNED =? 0).

(** [(ch >= 'a' && ch <= 'z') || (ch >= 'A' && ch <= 'Z') ||
    (ch >= '0' && ch <= '9') || ch == '-'] *)
Definition std3_char (ch : Z) : bool :=
  ((97 <=? ch) && (ch <=? 122)) || ((65 <=? ch) && (ch <=? 90))
  || ((48 <=? ch) && (ch <=? 57)) || (ch =? 45).

Definition label_step (flags : Z) (info : option nls_section)
    (buf : list Z)
    (i start ch : Z) : flow :=
  if ch =? 46 then
    if start =? i then Ret STATUS_INVALID_IDN_NORMALIZATION
    (* maximal label length is 63 characters *)
    else if i - start >? 63 then Ret STATUS_INVALID_IDN_NORMALIZATION
    else if std3 flags
            && ((wchar_at buf start =? 45) || (wchar_at buf (i - 1) =? 45))
    then Ret STATUS_INVALID_IDN_NORMALIZATION
    else Next (i + 1)
  else if std3 flags then
    if std3_char ch then Next start
    else Ret STATUS_INVALID_IDN_NORMALIZATION
  else if negb (allow_unassigned flags)
          && (get_char_props info ch =? 0x7f)
  then Ret STATUS_INVALID_IDN_NORMALIZATION
  else Next start.

(** [for (i = start = 0; i < buflen; i += len)] over the units of [buf]
    from [i] on: the status the loop returns with, or the [i] and
    [start] it ends with. *)
Fixpoint nameprep_scan (flags : Z) (info : option nls_section)
    (buf : list Z) (rem : list Z) (i start : Z) : NTSTATUS + (Z * Z) :=
  match rem with
  | [] => inr (i, start)
  | _ :: rest =>
      match get_utf16 rem with
      | None => inr (i, start)
      | Some (n, ch) =>
          if ch =? 0 then inr (i, start)
          else
            match label_step flags info buf i start ch with
            | Ret st => inl st
            | Next start =>
                if n =? 1
                then nameprep_scan flags info buf rest (i + n) start
                else match rest with
                     | _ :: rest' =>
                         nameprep_scan flags info buf rest' (i + n) start
                     | [] => inr (i + n, start)
                     end
            end
      end
  end.

(** The units RtlIdnToNameprepUnicode puts into [buf] before it
    validates them: the [srclen] units at [src] as they are when they are
    ASCII only, and what RtlNormalizeString makes of them otherwise; or
    the status the call returns with at this point. *)
Definition prepare (src : list Z) (srclen : Z) : NTSTATUS + list Z :=
  let i := first_non_ascii src 0 in
  if (i =? srclen) || ((i =? srclen - 1) && (wchar_at src i =? 0))
  then (* ascii only *)
    if srclen >? 256
    then inl STATUS_INVALID_IDN_NORMALIZATION
    else inr src
  else
    let (status, buf) := RtlNormalizeString 13 src srclen 256 in
    if failed status then
      inl (match status with
           | STATUS_NO_UNICODE_TRANSLATION =>
               STATUS_INVALID_IDN_NORMALIZATION
           | _ => status
           end)
    else inr buf.

(** RtlIdnToNameprepUnicode.  [src] is NULL or the units it points to,
    [dstlen] the value of [*dstlen] on entry; the shared loader state
    is threaded through.  The check behind the loop reads [buf[start]],
    which is behind the units written when the name ends in a dot. *)
Definition RtlIdnToNameprepUnicode (flags : Z) (src : option (list Z))
    (srclen : Z) (dstlen : Z) (sh : shared) : idn_result * shared :=
  if negb (Z.land flags
             (DWORD (Z.lnot (Z.lor IDN_ALLOW_UNASSIGNED
                                   IDN_USE_STD3_ASCII_RULES))) =? 0)
  then (mk_idn STATUS_INVALID_PARAMETER None [], sh)
  else
    match src with
    | None => (mk_idn STATUS_INVALID_PARAMETER None [], sh)
    | Some src =>
        if srclen <? -1
        then (mk_idn STATUS_INVALID_PARAMETER None [], sh)
        else
          match load_norm_table NtGetNlsSectionPtr 13 sh with
          | (status, info, sh) =>
              if failed status then (mk_idn status None [], sh)
              else
                let srclen := if srclen =? -1 then wcslen src + 1
                              else srclen in
                match prepare (units src srclen) srclen with
                | inl status => (mk_idn status None [], sh)
                | inr buf =>
                    let buflen := len buf in
                    match nameprep_scan flags info buf buf 0 0 with
                    | inl status => (mk_idn status None [], sh)
                    | inr (i, start) =>
                        if (i =? 0) || (i - start >? 63)
                        then (mk_idn STATUS_INVALID_IDN_NORMALIZATION
                                     None [], sh)
                        else if std3 flags
                                && ((buf_at stale buf start =? 45)
                                    || (wchar_at buf (i - 1) =? 45))
                        then (mk_idn STATUS_INVALID_IDN_NORMALIZATION
                                     None [], sh)
                        else if dstlen =? 0
                        then (mk_idn STATUS_SUCCESS (Some buflen) [], sh)
                        else if buflen <=? dstlen
                        then (mk_idn STATUS_SUCCESS (Some buflen) buf, sh)
                        else (mk_idn STATUS_BUFFER_TOO_SMALL
                                     (Some buflen) [], sh)
                    end
                end
          end
    end.
End Nameprep.

(** A label character of the fast path: low ASCII 0x20..0x7E, and not the
    dot that separates labels. *)
Definition low_ascii (c : Z) : Prop := 0x20 <= c < 0x7f.
Definition label_char (c : Z) : Prop := low_ascii c /\ c <> 46.

(** The labels of a name joined by dots. *)
Fixpoint dotted (ls : list (list Z)) : list Z :=
  match ls with
  | [] => []
  | l :: rest =>
      match rest with
      | [] => l
      | _ :: _ => l ++ 46 :: dotted rest
      end
  end.

End Idn.

(** ** Facts about IDN Nameprep *)

Module IdnFacts.
Import Utf8 NormTable Idn.
Import CodePageFacts.

Lemma units_length (s : list Z) (n : Z) : length (units s n) = Z.to_nat n.
Proof. unfold units. rewrite !length_map, length_seq. reflexivity. Qed.

Lemma units_all (s : list Z) : units s (len s) = s.
Proof.
  apply nth_ext with (d := 0) (d' := 0).
  - rewrite units_length. unfold len. apply Nat2Z.id.
  - intros k Hk. rewrite units_length in Hk. unfold len in Hk.
    rewrite Nat2Z.id in Hk. unfold units, len. rewrite Nat2Z.id, map_map.
    rewrite (nth_indep _ 0 (wchar_at s (Z.of_nat 0)))
      by (rewrite length_map, length_seq; exact Hk).
    rewrite (map_nth (fun x => wchar_at s (Z.of_nat x))).
    rewrite seq_nth by exact Hk. unfold wchar_at.
    rewrite Nat2Z.id. reflexivity.
Qed.

Lemma wchar_at_app_r (l1 l2 : list Z) :
  wchar_at (l1 ++ l2) (len l1) = hd 0 l2.
Proof.
  unfold wchar_at, len. rewrite Nat2Z.id, app_nth2 by lia.
  rewrite Nat.sub_diag. destruct l2; reflexivity.
Qed.

Lemma wchar_at_middle (pre l tail : list Z) (k : Z) :
  0 <= k < len l ->
  wchar_at (pre ++ l ++ tail) (len pre + k) = wchar_at l k.
Proof.
  intros Hk. unfold wchar_at, len in *.
  rewrite app_nth2 by lia.
  replace (Z.to_nat (Z.of_nat (length pre) + k) - length pre)%nat
    with (Z.to_nat k) by lia.
  apply app_nth1. lia.
Qed.

Lemma first_non_ascii_all (s : list Z) :
  forall i, Forall low_ascii s -> first_non_ascii s i = i + len s.
Proof.
  induction s as [|c s IH]; intros i H.
  - cbn [first_non_ascii]. rewrite (@len_nil Z). lia.
  - inversion H as [|? ? Hc Hs]; subst. cbn [first_non_ascii].
    unfold low_ascii in Hc.
    destruct (Z.ltb_spec c 0x20); [lia|].
    destruct (Z.geb_spec c 0x7f); [lia|].
    cbn [orb]. rewrite IH by assumption. rewrite len_cons. lia.
Qed.

Lemma get_utf16_low_ascii (c : Z) (rest : list Z) :
  low_ascii c -> get_utf16 (c :: rest) = Some (1, c).
Proof.
  unfold low_ascii, get_utf16, IS_HIGH_SURROGATE, IS_LOW_SURROGATE.
  intros H.
  destruct (Z.leb_spec 0xd800 c); [lia|].
  destruct (Z.leb_spec 0xdc00 c); [lia|].
  reflexivity.
Qed.

(** The code point of a surrogate pair, as get_utf16 puts it together. *)
Definition surrogate_pair (hi lo : Z) : Z :=
  0x10000 + Z.shiftl (Z.land hi 0x3ff) 10 + Z.land lo 0x3ff.

Lemma surrogate_pair_large (hi lo : Z) : 0x10000 <= surrogate_pair hi lo.
Proof.
  unfold surrogate_pair.
  assert (0 <= Z.land hi 0x3ff) by (apply Z.land_nonneg; right; lia).
  assert (0 <= Z.land lo 0x3ff) by (apply Z.land_nonneg; right; lia).
  assert (0 <= Z.shiftl (Z.land hi 0x3ff) 10)
    by (apply Z.shiftl_nonneg; assumption).
  lia.
Qed.

Lemma get_utf16_unit (c : Z) (rest : list Z) :
  IS_HIGH_SURROGATE c = false -> IS_LOW_SURROGATE c = false ->
  get_utf16 (c :: rest) = Some (1, c).
Proof. intros Hh Hl. unfold get_utf16. rewrite Hh, Hl. reflexivity. Qed.

Lemma get_utf16_pair (hi lo : Z) (rest : list Z) :
  IS_HIGH_SURROGATE hi = true -> IS_LOW_SURROGATE lo = true ->
  get_utf16 (hi :: lo :: rest) = Some (2, surrogate_pair hi lo).
Proof. intros Hh Hl. unfold get_utf16. rewrite Hh, Hl. reflexivity. Qed.

(** Units the validation loop walks to their end: no NUL among them and
    every surrogate in a pair. *)
Inductive decodes : list Z -> Prop :=
| decodes_nil : decodes []
| decodes_unit (c : Z) (rest : list Z) :
    IS_HIGH_SURROGATE c = false -> IS_LOW_SURROGATE c = false -> c <> 0 ->
    decodes rest -> decodes (c :: rest)
| decodes_pair (hi lo : Z) (rest : list Z) :
    IS_HIGH_SURROGATE hi = true -> IS_LOW_SURROGATE lo = true ->
    decodes rest -> decodes (hi :: lo :: rest).

Lemma low_ascii_unit (c : Z) :
  low_ascii c ->
  IS_HIGH_SURROGATE c = false /\ IS_LOW_SURROGATE c = false /\ c <> 0.
Proof.
  unfold low_ascii, IS_HIGH_SURROGATE, IS_LOW_SURROGATE. intros H.
  destruct (Z.leb_spec 0xd800 c); [lia|].
  destruct (Z.leb_spec 0xdc00 c); [lia|].
  repeat split. lia.
Qed.

Lemma decodes_low_ascii (l : list Z) : Forall low_ascii l -> decodes l.
Proof.
  induction 1 as [|c l Hc _ IH]; [constructor|].
  destruct (low_ascii_unit c Hc) as (Hh & Hl & H0).
  apply decodes_unit; assumption.
Qed.

(** The length RtlIdnToNameprepUnicode works with:
    [if (srclen == -1) srclen = wcslen(src) + 1]. *)
Definition length_used (src : list Z) (srclen : Z) : Z :=
  if srclen =? -1 then wcslen src + 1 else srclen.

Section ScanFacts.
Variable get_char_props : option nls_section -> Z -> Z.
Variable flags : Z.
Variable info : option nls_section.
Variable buf : list Z.

Local Abbreviation scan := (nameprep_scan get_char_props flags info buf).
Local Abbreviation step := (label_step get_char_props flags info buf).

(** One turn on a unit that is a code point of its own. *)
Lemma scan_cons_unit (c : Z) (rest : list Z) (i start : Z) :
  IS_HIGH_SURROGATE c = false -> IS_LOW_SURROGATE c = false -> c <> 0 ->
  scan (c :: rest) i start =
  match step i start c with
  | Ret st => inl st
  | Next start' => scan rest (i + 1) start'
  end.
Proof.
  intros Hh Hl Hc. cbn [nameprep_scan].
  rewrite (get_utf16_unit c rest Hh Hl).
  destruct (Z.eqb_spec c 0); [contradiction|].
  destruct (step i start c); reflexivity.
Qed.

(** One turn on a surrogate pair. *)
Lemma scan_cons_pair (hi lo : Z) (rest : list Z) (i start : Z) :
  IS_HIGH_SURROGATE hi = true -> IS_LOW_SURROGATE lo = true ->
  scan (hi :: lo :: rest) i start =
  match step i start (surrogate_pair hi lo) with
  | Ret st => inl st
  | Next start' => scan rest (i + 2) start'
  end.
Proof.
  intros Hh Hl. cbn [nameprep_scan].
  rewrite (get_utf16_pair hi lo rest Hh Hl).
  pose proof (surrogate_pair_large hi lo) as Hlarge.
  destruct (Z.eqb_spec (surrogate_pair hi lo) 0); [lia|].
  destruct (step i start (surrogate_pair hi lo)); reflexivity.
Qed.

(** One turn on a low-ASCII unit. *)
Lemma scan_cons_low_ascii (c : Z) (rest : list Z) (i start : Z) :
  low_ascii c ->
  scan (c :: rest) i start =
  match step i start c with
  | Ret st => inl st
  | Next start' => scan rest (i + 1) start'
  end.
Proof.
  intros Hc. destruct (low_ascii_unit c Hc) as (Hh & Hl & H0).
  apply scan_cons_unit; assumption.
Qed.

(** Every status the loop returns with is the IDN one. *)
Lemma step_ret (i start ch : Z) (st : NTSTATUS) :
  step i start ch = Ret st -> st = STATUS_INVALID_IDN_NORMALIZATION.
Proof.
  unfold label_step.
  repeat match goal with
         | |- context [if ?b then _ else _] => destruct b
         end; intros H; inversion H; reflexivity.
Qed.

(** A unit other than the dot leaves [start] alone. *)
Lemma step_label_char (i start ch : Z) :
  ch <> 46 ->
  step i start ch = Ret STATUS_INVALID_IDN_NORMALIZATION \/
  step i start ch = Next start.
Proof.
  intros Hch. unfold label_step.
  destruct (Z.eqb_spec ch 46); [contradiction|].
  repeat match goal with
         | |- context [if ?b then _ else _] => destruct b
         end; auto.
Qed.

(** At a dot the label before it is checked; going on starts the next
    label behind the dot. *)
Lemma step_dot (i start : Z) :
  (step i start 46 = Ret STATUS_INVALID_IDN_NORMALIZATION) \/
  (step i start 46 = Next (i + 1) /\ start <> i /\ i - start <= 63).
Proof.
  unfold label_step. cbn [Z.eqb Pos.eqb].
  destruct (Z.eqb_spec start i); [auto|].
  destruct (Z.gtb_spec (i - start) 63); [auto|].
  destruct (_ && _); [auto|]. right. repeat split; [assumption | lia].
Qed.

(** Over units it can walk the loop either returns the IDN status or
    reaches their end. *)
Lemma scan_decodes (l : list Z) :
  decodes l ->
  forall rest i start,
    scan (l ++ rest) i start = inl STATUS_INVALID_IDN_NORMALIZATION \/
    exists start', scan (l ++ rest) i start = scan rest (i + len l) start'.
Proof.
  induction 1 as [|c l Hh Hl Hc _ IH|hi lo l Hh Hl _ IH];
    intros rest i start.
  - right. exists start. cbn [app]. rewrite (@len_nil Z), Z.add_0_r.
    reflexivity.
  - cbn [app]. rewrite scan_cons_unit by assumption.
    destruct (step i start c) as [st|start'] eqn:E.
    + left. apply step_ret in E. subst. reflexivity.
    + destruct (IH rest (i + 1) start') as [Hret|[s Hs]];
        [left; exact Hret|].
      right. exists s. rewrite Hs, len_cons. f_equal. lia.
  - cbn [app]. rewrite scan_cons_pair by assumption.
    destruct (step i start (surrogate_pair hi lo)) as [st|start'] eqn:E.
    + left. apply step_ret in E. subst. reflexivity.
    + destruct (IH rest (i + 2) start') as [Hret|[s Hs]];
        [left; exact Hret|].
      right. exists s. rewrite Hs, !len_cons. f_equal. lia.
Qed.

(** Over low-ASCII units the loop either returns the IDN status or
    reaches their end. *)
Lemma scan_low_ascii (l : list Z) :
  forall rest i start,
    Forall low_ascii l ->
    scan (l ++ rest) i start = inl STATUS_INVALID_IDN_NORMALIZATION \/
    exists start', scan (l ++ rest) i start = scan rest (i + len l) start'.
Proof.
  intros rest i start H. apply scan_decodes, decodes_low_ascii, H.
Qed.

(** Over the units of one label [start] stays where it is. *)
Lemma scan_label (l : list Z) :
  forall rest i start,
    Forall label_char l ->
    scan (l ++ rest) i start = inl STATUS_INVALID_IDN_NORMALIZATION \/
    scan (l ++ rest) i start = scan rest (i + len l) start.
Proof.
  induction l as [|c l IH]; intros rest i start H.
  - right. cbn [app]. rewrite (@len_nil Z), Z.add_0_r. reflexivity.
  - inversion H as [|? ? [Hc Hdot] Hl]; subst. cbn [app].
    rewrite scan_cons_low_ascii by assumption.
    destruct (step_label_char i start c Hdot) as [E|E]; rewrite E.
    + left. reflexivity.
    + destruct (IH rest (i + 1) start Hl) as [Hret|Hs];
        [left; exact Hret|].
      right. rewrite Hs, len_cons. f_equal. lia.
Qed.

(** Where the loop ends on low-ASCII units: behind the last of them, and
    with [start] there too only when the last of them is a dot. *)
Lemma scan_low_ascii_end (l : list Z) :
  forall i start r,
    Forall low_ascii l -> start <= i ->
    scan l i start = inr r ->
    fst r = i + len l /\ snd r <= fst r
    /\ (snd r = fst r -> (l = [] /\ start = i) \/ last l 0 = 46).
Proof.
  induction l as [|c l IH]; intros i start r H Hle Hscan.
  - cbn [nameprep_scan] in Hscan. inversion Hscan; subst r. cbn [fst snd].
    rewrite (@len_nil Z). repeat split; [lia | exact Hle | auto].
  - inversion H as [|? ? Hc Hl]; subst.
    rewrite scan_cons_low_ascii in Hscan by assumption.
    assert (Hlast : last l 0 = 46 -> last (c :: l) 0 = 46).
    { destruct l; [discriminate | trivial]. }
    destruct (Z.eq_dec c 46) as [->|Hdot].
    + destruct (step_dot i start) as [E|(E & _ & _)];
        rewrite E in Hscan; [discriminate|].
      destruct (IH (i + 1) (i + 1) r Hl (Z.le_refl _) Hscan)
        as (Hi & Hs & Hend).
      rewrite len_cons. repeat split; [lia | exact Hs |].
      intros Heq. right. destruct (Hend Heq) as [[-> _]|Hl46];
        [reflexivity | apply Hlast, Hl46].
    + destruct (step_label_char i start c Hdot) as [E|E];
        rewrite E in Hscan; [discriminate|].
      destruct (IH (i + 1) start r Hl ltac:(lia) Hscan)
        as (Hi & Hs & Hend).
      rewrite len_cons. repeat split; [lia | exact Hs |].
      intros Heq. right. destruct (Hend Heq) as [[_ Hbad]|Hl46];
        [lia | apply Hlast, Hl46].
Qed.

(** Units that are whole labels: none at all, or units the loop can walk
    followed by a dot. *)
Definition whole_labels (pre : list Z) : Prop :=
  pre = [] \/ exists pre', pre = pre' ++ [46] /\ decodes pre'.
(** Units that follow a label: none at all, or some that begin with a
    dot. *)
Definition follows_label (post : list Z) : Prop :=
  post = [] \/ exists post', post = 46 :: post'.
(** Units at which a name is over: none at all, or some that begin with
    the NUL. *)
Definition name_ends (tail : list Z) : Prop :=
  tail = [] \/ exists tail', tail = 0 :: tail'.
(** Units at which a label is over: a dot, or the end of the name. *)
Definition label_ends (post : list Z) : Prop :=
  follows_label post \/ name_ends post.

Lemma low_ascii_dot : low_ascii 46.
Proof. unfold low_ascii. lia. Qed.

Lemma scan_name_ends (tail : list Z) (i start : Z) :
  name_ends tail -> scan tail i start = inr (i, start).
Proof. intros [->|[tail' ->]]; reflexivity. Qed.

Lemma scan_to_label_start (pre rest : list Z) (i : Z) :
  whole_labels pre ->
  scan (pre ++ rest) i i = inl STATUS_INVALID_IDN_NORMALIZATION \/
  scan (pre ++ rest) i i = scan rest (i + len pre) (i + len pre).
Proof.
  intros [->|(pre' & -> & Hpre')].
  - right. cbn [app]. rewrite (@len_nil Z), Z.add_0_r. reflexivity.
  - rewrite <- app_assoc. cbn [app].
    destruct (scan_decodes pre' Hpre' (46 :: rest) i i) as [Hret|[s Hs]];
      [left; exact Hret|].
    rewrite Hs, scan_cons_low_ascii by apply low_ascii_dot.
    destruct (step_dot (i + len pre') s) as [E|(E & _ & _)]; rewrite E.
    + left. reflexivity.
    + right. rewrite len_app, len_cons, (@len_nil Z).
      f_equal; lia.
Qed.

(** A label of more than 63 units never gets through the loop with
    [i - start] at 63 or less. *)
Lemma scan_long_label (pre label post : list Z) :
  whole_labels pre ->
  Forall label_char label -> 63 < len label ->
  label_ends post ->
  scan (pre ++ label ++ post) 0 0
    = inl STATUS_INVALID_IDN_NORMALIZATION \/
  exists i start,
    scan (pre ++ label ++ post) 0 0 = inr (i, start) /\ 63 < i - start.
Proof.
  intros Hpre Hlabel Hlong Hpost.
  destruct (scan_to_label_start pre (label ++ post) 0 Hpre)
    as [Hret|Hs]; [left; exact Hret|].
  rewrite Hs.
  destruct (scan_label label post (0 + len pre) (0 + len pre) Hlabel)
    as [Hret|Hl]; [left; exact Hret|].
  rewrite Hl.
  destruct Hpost as [[->|[post' ->]]|Hend].
  - right. exists (0 + len pre + len label), (0 + len pre).
    split; [reflexivity | lia].
  - rewrite scan_cons_low_ascii by apply low_ascii_dot.
    destruct (step_dot (0 + len pre + len label) (0 + len pre))
      as [E|(E & _ & Hle)]; rewrite E.
    + left. reflexivity.
    + lia.
  - right. exists (0 + len pre + len label), (0 + len pre).
    split; [apply scan_name_ends; exact Hend | lia].
Qed.

(** What lets a code point of a label through: under the STD3 rules it is
    a letter, a digit or the hyphen; otherwise unassigned code points are
    allowed or its property byte is not 0x7f. *)
Definition char_passes (ch : Z) : Prop :=
  if std3 flags then std3_char ch = true
  else allow_unassigned flags = true \/ get_char_props info ch <> 0x7f.

(** Units of a label the loop lets through: code points other than the
    NUL and the dot, in one unit or in a surrogate pair, each of which
    passes. *)
Inductive passes : list Z -> Prop :=
| passes_nil : passes []
| passes_unit (c : Z) (rest : list Z) :
    IS_HIGH_SURROGATE c = false -> IS_LOW_SURROGATE c = false ->
    c <> 0 -> c <> 46 -> char_passes c ->
    passes rest -> passes (c :: rest)
| passes_pair (hi lo : Z) (rest : list Z) :
    IS_HIGH_SURROGATE hi = true -> IS_LOW_SURROGATE lo = true ->
    char_passes (surrogate_pair hi lo) ->
    passes rest -> passes (hi :: lo :: rest).

(** A label the call accepts: units that pass, at least one and at most
    63 of them, and under the STD3 rules no hyphen at either end. *)
Definition label_ok (l : list Z) : Prop :=
  passes l
  /\ 1 <= len l <= 63
  /\ (std3 flags = true ->
      wchar_at l 0 <> 45 /\ wchar_at l (len l - 1) <> 45).

Lemma passes_label_chars (l : list Z) :
  Forall label_char l -> Forall char_passes l -> passes l.
Proof.
  induction 1 as [|c l [Hc Hdot] _ IH]; intros Hp; [constructor|].
  inversion Hp as [|? ? Hpc Hpl]; subst.
  destruct (low_ascii_unit c Hc) as (Hh & Hl & H0).
  apply passes_unit; auto.
Qed.

Lemma step_passes (i start ch : Z) :
  ch <> 46 -> char_passes ch -> step i start ch = Next start.
Proof.
  unfold char_passes, label_step. intros Hdot Hp.
  destruct (Z.eqb_spec ch 46); [contradiction|].
  destruct (std3 flags).
  - rewrite Hp. reflexivity.
  - destruct Hp as [Ha|Hprops].
    + rewrite Ha. reflexivity.
    + destruct (Z.eqb_spec (get_char_props info ch) 0x7f);
        [contradiction|].
      rewrite andb_false_r. reflexivity.
Qed.

(** Over units that pass the loop goes on to their end and [start] stays
    where it is. *)
Lemma scan_passes (l : list Z) :
  passes l ->
  forall rest i start,
    scan (l ++ rest) i start = scan rest (i + len l) start.
Proof.
  induction 1 as [|c l Hh Hl H0 Hdot Hp _ IH|hi lo l Hh Hl Hp _ IH];
    intros rest i start.
  - cbn [app]. rewrite (@len_nil Z), Z.add_0_r. reflexivity.
  - cbn [app]. rewrite scan_cons_unit by assumption.
    rewrite (step_passes i start c Hdot Hp), IH, len_cons.
    f_equal. lia.
  - cbn [app]. rewrite scan_cons_pair by assumption.
    pose proof (surrogate_pair_large hi lo) as Hlarge.
    rewrite (step_passes i start (surrogate_pair hi lo)) by (lia || exact Hp).
    rewrite IH, !len_cons. f_equal. lia.
Qed.

(** The dot behind an accepted label starts the next label. *)
Lemma step_dot_label (pre l rest : list Z) :
  buf = pre ++ l ++ rest -> label_ok l ->
  step (len pre + len l) (len pre) 46 = Next (len pre + len l + 1).
Proof.
  intros Hbuf (_ & Hlen & Hhyphen).
  pose proof (wchar_at_middle pre l rest 0) as E0.
  pose proof (wchar_at_middle pre l rest (len l - 1)) as E1.
  rewrite Z.add_0_r, <- Hbuf in E0.
  replace (len pre + (len l - 1)) with (len pre + len l - 1) in E1 by lia.
  rewrite <- Hbuf in E1.
  unfold label_step. cbn [Z.eqb Pos.eqb].
  destruct (Z.eqb_spec (len pre) (len pre + len l)); [lia|].
  destruct (Z.gtb_spec (len pre + len l - len pre) 63); [lia|].
  destruct (std3 flags); [|reflexivity].
  destruct (Hhyphen eq_refl) as [H0 H1].
  rewrite E0, E1 by lia.
  destruct (Z.eqb_spec (wchar_at l 0) 45); [contradiction|].
  destruct (Z.eqb_spec (wchar_at l (len l - 1)) 45); [contradiction|].
  reflexivity.
Qed.

(** Over a name of accepted labels the loop reaches the end of the name,
    with [start] at its last label. *)
Lemma scan_name (ls : list (list Z)) :
  ls <> [] -> Forall label_ok ls ->
  forall pre tail,
    buf = pre ++ dotted ls ++ tail -> name_ends tail ->
    exists front l,
      dotted ls = front ++ l /\ label_ok l /\
      scan (dotted ls ++ tail) (len pre) (len pre)
      = inr (len pre + len front + len l, len pre + len front).
Proof.
  induction ls as [|l ls IH]; intros Hne Hok pre tail Hbuf Hends;
    [contradiction|].
  apply Forall_cons_iff in Hok. destruct Hok as [Hl Hls].
  destruct ls as [|l' rest].
  - exists [], l. cbn [dotted app]. split; [reflexivity|].
    split; [exact Hl|].
    rewrite (scan_passes l (proj1 Hl)), (@len_nil Z), Z.add_0_r.
    apply scan_name_ends. exact Hends.
  - change (dotted (l :: l' :: rest))
      with (l ++ 46 :: dotted (l' :: rest)) in *.
    assert (Hbuf1 : buf = pre ++ l ++ (46 :: dotted (l' :: rest) ++ tail)).
    { rewrite Hbuf, <- app_assoc. reflexivity. }
    assert (Hbuf2 : buf = (pre ++ l ++ [46]) ++ dotted (l' :: rest) ++ tail).
    { rewrite Hbuf, <- !app_assoc. reflexivity. }
    destruct (IH ltac:(discriminate) Hls (pre ++ l ++ [46]) tail Hbuf2 Hends)
      as (front & lastl & Hd & Hlast & Hscan).
    exists (l ++ 46 :: front), lastl.
    split; [rewrite Hd, <- app_assoc; reflexivity|].
    split; [exact Hlast|].
    rewrite <- app_assoc. cbn [app].
    rewrite (scan_passes l (proj1 Hl)).
    rewrite scan_cons_low_ascii by apply low_ascii_dot.
    rewrite (step_dot_label pre l _ Hbuf1 Hl).
    assert (Hpre : len (pre ++ l ++ [46]) = len pre + len l + 1).
    { rewrite !len_app, len_cons, (@len_nil Z). lia. }
    rewrite Hpre in Hscan.
    rewrite Hscan, len_app, len_cons. f_equal. f_equal; lia.
Qed.
End ScanFacts.

Lemma flags_accepted (flags : Z) :
  0 <= flags <= 3 ->
  Z.land flags (DWORD (Z.lnot (Z.lor IDN_ALLOW_UNASSIGNED
                                     IDN_USE_STD3_ASCII_RULES))) = 0.
Proof.
  intros H.
  assert (C : flags = 0 \/ flags = 1 \/ flags = 2 \/ flags = 3) by lia.
  destruct C as [->|[->|[->| ->]]]; reflexivity.
Qed.

Section NameprepFacts.
Variable NtGetNlsSectionPtr : Z -> NTSTATUS * nls_section.
Variable get_char_props : option nls_section -> Z -> Z.
Variable RtlNormalizeString : Z -> list Z -> Z -> Z -> NTSTATUS * list Z.

Local Abbreviation nameprep :=
  (RtlIdnToNameprepUnicode NtGetNlsSectionPtr get_char_props
     RtlNormalizeString).

(** The call once the flags are accepted and the table of form 13 is
    there: the units put into [buf], the validation loop and the checks
    behind it. *)
Lemma nameprep_prepared (stale : Z -> Z) (flags : Z) (src : list Z)
    (srclen dstlen : Z) (sh sh' : shared) (info : option nls_section) :
  0 <= flags <= 3 ->
  load_norm_table NtGetNlsSectionPtr 13 sh = (STATUS_SUCCESS, info, sh') ->
  -1 <= srclen ->
  fst (nameprep stale flags (Some src) srclen dstlen sh) =
  match prepare RtlNormalizeString (units src (length_used src srclen))
          (length_used src srclen) with
  | inl status => mk_idn status None []
  | inr buf =>
      match nameprep_scan get_char_props flags info buf buf 0 0 with
      | inl status => mk_idn status None []
      | inr (i, start) =>
          if (i =? 0) || (i - start >? 63)
          then mk_idn STATUS_INVALID_IDN_NORMALIZATION None []
          else if std3 flags
                  && ((buf_at stale buf start =? 45)
                      || (wchar_at buf (i - 1) =? 45))
          then mk_idn STATUS_INVALID_IDN_NORMALIZATION None []
          else if dstlen =? 0 then mk_idn STATUS_SUCCESS (Some (len buf)) []
          else if len buf <=? dstlen
          then mk_idn STATUS_SUCCESS (Some (len buf)) buf
          else mk_idn STATUS_BUFFER_TOO_SMALL (Some (len buf)) []
      end
  end.
Proof.
  intros Hflags Hload Hlen.
  unfold RtlIdnToNameprepUnicode, length_used.
  rewrite (flags_accepted flags Hflags). cbn [Z.eqb negb].
  destruct (Z.ltb_spec srclen (-1)); [lia|].
  rewrite Hload. cbn [failed NTSTATUS_eq_dec].
  change (failed STATUS_SUCCESS) with false. cbv iota.
  destruct (prepare _ _ _) as [st|buf]; [reflexivity|].
  destruct (nameprep_scan get_char_props flags info buf buf 0 0)
    as [st|[i start]]; [reflexivity|].
  repeat match goal with
         | |- context [if ?b then _ else _] => destruct b
         end; reflexivity.
Qed.

(** Low-ASCII units of an explicit length go into [buf] as they are. *)
Lemma prepare_low_ascii (src : list Z) :
  Forall low_ascii src ->
  prepare RtlNormalizeString (units src (length_used src (len src)))
    (length_used src (len src))
  = if len src >? 256 then inl STATUS_INVALID_IDN_NORMALIZATION
    else inr src.
Proof.
  intros Hascii. unfold prepare, length_used.
  pose proof (len_nonneg src) as Hlen.
  destruct (Z.eqb_spec (len src) (-1)); [lia|].
  rewrite units_all, first_non_ascii_all by assumption.
  rewrite Z.add_0_l, Z.eqb_refl. reflexivity.
Qed.

(** The call on a low-ASCII string, once the flags are accepted and the
    table of form 13 is there: the fast path, the validation loop and
    the checks behind it. *)
Lemma nameprep_low_ascii (stale : Z -> Z) (flags : Z) (src : list Z)
    (dstlen : Z) (sh sh' : shared) (info : option nls_section) :
  0 <= flags <= 3 ->
  load_norm_table NtGetNlsSectionPtr 13 sh = (STATUS_SUCCESS, info, sh') ->
  Forall low_ascii src ->
  fst (nameprep stale flags (Some src) (len src) dstlen sh) =
  if len src >? 256 then mk_idn STATUS_INVALID_IDN_NORMALIZATION None []
  else
    match nameprep_scan get_char_props flags info src src 0 0 with
    | inl status => mk_idn status None []
    | inr (i, start) =>
        if (i =? 0) || (i - start >? 63)
        then mk_idn STATUS_INVALID_IDN_NORMALIZATION None []
        else if std3 flags
                && ((buf_at stale src start =? 45)
                    || (wchar_at src (i - 1) =? 45))
        then mk_idn STATUS_INVALID_IDN_NORMALIZATION None []
        else if dstlen =? 0 then mk_idn STATUS_SUCCESS (Some (len src)) []
        else if len src <=? dstlen
        then mk_idn STATUS_SUCCESS (Some (len src)) src
        else mk_idn STATUS_BUFFER_TOO_SMALL (Some (len src)) []
    end.
Proof.
  intros Hflags Hload Hascii.
  pose proof (len_nonneg src) as Hlen.
  rewrite (nameprep_prepared stale flags src (len src) dstlen sh sh' info
             Hflags Hload) by lia.
  rewrite (prepare_low_ascii src Hascii).
  destruct (len src >? 256); reflexivity.
Qed.

(** C3.  RtlIdnToNameprepUnicode caps every label of a name at 63 units.
    Take any call with accepted flags and the table of form 13 loaded,
    for any source and any length, given or -1, and let [buf] be the
    units the call validates: the source itself on the ASCII-only path
    or what RtlNormalizeString stored.  If [buf] holds a label of 64 (or
    more) low-ASCII characters, standing at the start of the name or
    behind the dot of whole labels and ending at a dot, at the end of
    [buf] or at the NUL, the call fails with
    STATUS_INVALID_IDN_NORMALIZATION for every destination length and
    whatever the stack holds, and stores nothing.  If [buf] is a name of
    one or more labels joined by dots, up to its end or the NUL, and
    every label is accepted on its own (1 to 63 units, so also exactly
    63, that pass the flags, no hyphen at either end under the STD3
    rules), the name is accepted, however long it is as a whole: the
    length of [buf] is stored, and the call succeeds, copying [buf] when
    a destination is given, unless that destination is too small. *)
Theorem nameprep_label_length_cap :
  forall (flags : Z) (sh sh' : shared) (info : option nls_section)
         (src : list Z) (srclen : Z) (buf : list Z),
    0 <= flags <= 3 ->
    load_norm_table NtGetNlsSectionPtr 13 sh
      = (STATUS_SUCCESS, info, sh') ->
    -1 <= srclen ->
    prepare RtlNormalizeString (units src (length_used src srclen))
      (length_used src srclen) = inr buf ->
    (forall pre label post : list Z,
       buf = pre ++ label ++ post ->
       whole_labels pre ->
       Forall label_char label -> 64 <= len label ->
       label_ends post ->
       forall (dstlen : Z) (stale : Z -> Z),
         fst (nameprep stale flags (Some src) srclen dstlen sh)
         = mk_idn STATUS_INVALID_IDN_NORMALIZATION None []) /\
    (forall (ls : list (list Z)) (tail : list Z),
       buf = dotted ls ++ tail ->
       ls <> [] ->
       Forall (label_ok get_char_props flags info) ls ->
       name_ends tail ->
       forall (dstlen : Z) (stale : Z -> Z),
         fst (nameprep stale flags (Some src) srclen dstlen sh)
         = if dstlen =? 0 then mk_idn STATUS_SUCCESS (Some (len buf)) []
           else if len buf <=? dstlen
           then mk_idn STATUS_SUCCESS (Some (len buf)) buf
           else mk_idn STATUS_BUFFER_TOO_SMALL (Some (len buf)) []).
Proof.
  intros flags sh sh' info src srclen buf Hflags Hload Hsrclen Hprep. split.
  - intros pre label post Hbuf Hpre Hlabel H64 Hpost dstlen stale.
    rewrite (nameprep_prepared stale flags src srclen dstlen sh sh' info
               Hflags Hload Hsrclen), Hprep.
    destruct (scan_long_label get_char_props flags info buf pre label post
                Hpre Hlabel) as [E|(i & start & E & Hgap)];
      [lia | exact Hpost | rewrite Hbuf at 2; rewrite E; reflexivity |].
    rewrite Hbuf at 2. rewrite E.
    destruct (Z.gtb_spec (i - start) 63); [|lia].
    rewrite orb_true_r. reflexivity.
  - intros ls tail Hbuf Hne Hok Hends dstlen stale.
    rewrite (nameprep_prepared stale flags src srclen dstlen sh sh' info
               Hflags Hload Hsrclen), Hprep.
    destruct (scan_name get_char_props flags info buf ls Hne Hok [] tail
                Hbuf Hends) as (front & l & Hd & (Hp & Hlen & Hhyphen) & E).
    rewrite (@len_nil Z), !Z.add_0_l in E.
    rewrite Hbuf at 2. rewrite E.
    pose proof (len_nonneg front) as Hfront.
    destruct (Z.eqb_spec (len front + len l) 0); [lia|].
    destruct (Z.gtb_spec (len front + len l - len front) 63); [lia|].
    cbn [orb].
    assert (Hwhole : buf = front ++ l ++ tail).
    { rewrite Hbuf, Hd, <- app_assoc. reflexivity. }
    assert (Hh : std3 flags
                 && ((buf_at stale buf (len front) =? 45)
                     || (wchar_at buf (len front + len l - 1) =? 45))
                 = false).
    { destruct (std3 flags); [|reflexivity].
      destruct (Hhyphen eq_refl) as [H0 H1].
      pose proof (wchar_at_middle front l tail 0) as E0.
      pose proof (wchar_at_middle front l tail (len l - 1)) as E1.
      rewrite Z.add_0_r, <- Hwhole in E0.
      replace (len front + (len l - 1)) with (len front + len l - 1)
        in E1 by lia.
      rewrite <- Hwhole in E1.
      unfold buf_at.
      assert (Hin : len front < len buf).
      { rewrite Hwhole, !len_app. pose proof (len_nonneg tail). lia. }
      destruct (Z.ltb_spec (len front) (len buf)); [|lia].
      rewrite E0, E1 by lia.
      destruct (Z.eqb_spec (wchar_at l 0) 45); [contradiction|].
      destruct (Z.eqb_spec (wchar_at l (len l - 1)) 45); [contradiction|].
      reflexivity. }
    rewrite Hh. reflexivity.
Qed.
End NameprepFacts.

(** The concrete checks: form 13 served by the sample provider, no code
    point unassigned, a normaliser that leaves the units as they are. *)
Definition sample_props (info : option nls_section) (ch : Z) : Z := 0.
Definition sample_normalize (form : Z) (src : list Z) (srclen dstlen : Z)
  : NTSTATUS * list Z := (STATUS_SUCCESS, firstn (Z.to_nat srclen) src).

Lemma sample_label_ok (flags : Z) (c : Z) (n : nat) :
  flags = 0 -> label_char c -> (1 <= n <= 63)%nat ->
  label_ok sample_props flags None (repeat c n)
  /\ label_ok sample_props flags (Some (sample_table 13)) (repeat c n).
Proof.
  intros -> Hc Hn.
  assert (Hp : forall info, passes sample_props 0 info (repeat c n)).
  { intros info. apply passes_label_chars.
    - apply Forall_forall. intros x Hx. apply repeat_spec in Hx.
      subst. exact Hc.
    - apply Forall_forall. intros x _. right. discriminate. }
  assert (Hlen : 1 <= len (repeat c n) <= 63).
  { unfold len. rewrite repeat_length. lia. }
  split; (split; [apply Hp | split; [exact Hlen | discriminate]]).
Qed.

(** Under no flag: "www." and 64 times "a" and ".org" is turned away;
    63 times "a", a dot and 63 times "b", 127 units in all, is accepted,
    also when it ends in a NUL and no length is given, and also behind a
    label with an accented letter, which goes through the normaliser. *)
Lemma nameprep_label_length_cap_witness :
  let nameprep := RtlIdnToNameprepUnicode (sample_provider 13) sample_props
                    sample_normalize (fun _ => 45) in
  let two := repeat 97 63 ++ 46 :: repeat 98 63 in
  fst (nameprep 0 (Some ([119; 119; 119; 46] ++ repeat 97 64
                           ++ [46; 111; 114; 103])) 72 256 initial)
    = mk_idn STATUS_INVALID_IDN_NORMALIZATION None [] /\
  fst (nameprep 0 (Some two) 127 256 initial)
    = mk_idn STATUS_SUCCESS (Some 127) two /\
  fst (nameprep 0 (Some (two ++ [0])) (-1) 256 initial)
    = mk_idn STATUS_SUCCESS (Some 128) (two ++ [0]) /\
  fst (nameprep 0 (Some ([233; 46] ++ two)) 129 256 initial)
    = mk_idn STATUS_SUCCESS (Some 129) ([233; 46] ++ two) /\
  fst (nameprep 0 (Some ([233; 46] ++ repeat 97 64)) 66 256 initial)
    = mk_idn STATUS_INVALID_IDN_NORMALIZATION None [].
Proof.
  cbv zeta.
  assert (Hload : load_norm_table (sample_provider 13) 13 initial
                  = (STATUS_SUCCESS, Some (sample_table 13),
                     snd (load_norm_table (sample_provider 13) 13 initial)))
    by reflexivity.
  assert (Hchars : forall c n, label_char c -> Forall label_char (repeat c n)).
  { intros c n Hc. apply Forall_forall. intros x Hx.
    apply repeat_spec in Hx. subst. exact Hc. }
  assert (Ha : label_char 97) by (unfold label_char, low_ascii; lia).
  assert (Hb : label_char 98) by (unfold label_char, low_ascii; lia).
  assert (Hla : label_ok sample_props 0 (Some (sample_table 13))
                  (repeat 97 63)).
  { apply (sample_label_ok 0 97 63); [reflexivity | exact Ha | lia]. }
  assert (Hlb : label_ok sample_props 0 (Some (sample_table 13))
                  (repeat 98 63)).
  { apply (sample_label_ok 0 98 63); [reflexivity | exact Hb | lia]. }
  assert (Hle : label_ok sample_props 0 (Some (sample_table 13)) [233]).
  { split; [|split; [unfold len; cbn [length]; lia | discriminate]].
    apply passes_unit; try reflexivity; try discriminate.
    - right. discriminate.
    - constructor. }
  split; [|split; [|split; [|split]]].
  - destruct (nameprep_label_length_cap (sample_provider 13) sample_props
                sample_normalize 0 initial _ (Some (sample_table 13))
                ([119; 119; 119; 46] ++ repeat 97 64 ++ [46; 111; 114; 103])
                72 _ ltac:(lia) Hload ltac:(lia) eq_refl) as [Hreject _].
    apply (Hreject [119; 119; 119; 46] (repeat 97 64) [46; 111; 114; 103]).
    + reflexivity.
    + right. exists [119; 119; 119]. split; [reflexivity|].
      apply decodes_low_ascii. repeat constructor; unfold low_ascii; lia.
    + apply Hchars, Ha.
    + unfold len. rewrite repeat_length. lia.
    + left. right. exists [111; 114; 103]. reflexivity.
  - destruct (nameprep_label_length_cap (sample_provider 13) sample_props
                sample_normalize 0 initial _ (Some (sample_table 13))
                (repeat 97 63 ++ 46 :: repeat 98 63)
                127 _ ltac:(lia) Hload ltac:(lia) eq_refl) as [_ Haccept].
    refine (eq_trans (Haccept [repeat 97 63; repeat 98 63] [] _ _ _ _
                        256 (fun _ => 45)) _); [| | | |reflexivity].
    + rewrite app_nil_r. reflexivity.
    + discriminate.
    + apply Forall_cons; [exact Hla|].
      apply Forall_cons; [exact Hlb | apply Forall_nil].
    + left. reflexivity.
  - destruct (nameprep_label_length_cap (sample_provider 13) sample_props
                sample_normalize 0 initial _ (Some (sample_table 13))
                ((repeat 97 63 ++ 46 :: repeat 98 63) ++ [0])
                (-1) _ ltac:(lia) Hload ltac:(lia) eq_refl) as [_ Haccept].
    refine (eq_trans (Haccept [repeat 97 63; repeat 98 63] [0] _ _ _ _
                        256 (fun _ => 45)) _); [| | | |reflexivity].
    + reflexivity.
    + discriminate.
    + apply Forall_cons; [exact Hla|].
      apply Forall_cons; [exact Hlb | apply Forall_nil].
    + right. exists []. reflexivity.
  - destruct (nameprep_label_length_cap (sample_provider 13) sample_props
                sample_normalize 0 initial _ (Some (sample_table 13))
                ([233; 46] ++ repeat 97 63 ++ 46 :: repeat 98 63)
                129 _ ltac:(lia) Hload ltac:(lia) eq_refl) as [_ Haccept].
    refine (eq_trans (Haccept [[233]; repeat 97 63; repeat 98 63] []
                        _ _ _ _ 256 (fun _ => 45)) _); [| | | |reflexivity].
    + rewrite app_nil_r. reflexivity.
    + discriminate.
    + apply Forall_cons; [exact Hle|].
      apply Forall_cons; [exact Hla|].
      apply Forall_cons; [exact Hlb | apply Forall_nil].
    + left. reflexivity.
  - destruct (nameprep_label_length_cap (sample_provider 13) sample_props
                sample_normalize 0 initial _ (Some (sample_table 13))
                ([233; 46] ++ repeat 97 64)
                66 _ ltac:(lia) Hload ltac:(lia) eq_refl) as [Hreject _].
    apply (Hreject [233; 46] (repeat 97 64) []).
    + rewrite app_nil_r. reflexivity.
    + right. exists [233]. split; [reflexivity|].
      apply decodes_unit; try reflexivity; [discriminate | constructor].
    + apply Hchars, Ha.
    + unfold len. rewrite repeat_length. lia.
    + left. left. reflexivity.
Defined.

Example nameprep_sample_values :
  let nameprep := RtlIdnToNameprepUnicode (sample_provider 13) sample_props
                    sample_normalize in
  fst (nameprep (fun _ => 0) 0 (Some (repeat 97 64)) 64 0 initial)
    = mk_idn STATUS_INVALID_IDN_NORMALIZATION None [] /\
  fst (nameprep (fun _ => 0) 0 (Some (repeat 97 63)) 63 0 initial)
    = mk_idn STATUS_SUCCESS (Some 63) [] /\
  fst (nameprep (fun _ => 0) 0 (Some (repeat 97 63 ++ [0])) (-1) 0 initial)
    = mk_idn STATUS_SUCCESS (Some 64) [] /\
  fst (nameprep (fun _ => 0) 0
         (Some (repeat 97 63 ++ [46] ++ repeat 98 63)) 127 0 initial)
    = mk_idn STATUS_SUCCESS (Some 127) [] /\
  fst (nameprep (fun _ => 0) 4 (Some (repeat 97 63)) 63 0 initial)
    = mk_idn STATUS_INVALID_PARAMETER None [] /\
  (* a name that ends in a dot, under the STD3 rules: the answer is that
     of the stack *)
  fst (nameprep (fun _ => 0) 2 (Some [97; 46]) 2 0 initial)
    = mk_idn STATUS_SUCCESS (Some 2) [] /\
  fst (nameprep (fun _ => 45) 2 (Some [97; 46]) 2 0 initial)
    = mk_idn STATUS_INVALID_IDN_NORMALIZATION None [] /\
  fst (nameprep (fun _ => 45) 2 (Some [97; 46; 0]) (-1) 0 initial)
    = mk_idn STATUS_SUCCESS (Some 3) [].
Proof. vm_compute. repeat split. Qed.

End IdnFacts.


(** * Further functions of locale.c *)

(** ** Case mapping and the remaining code-page entry points *)

Module CodePageExt.
Import CodePage.

(** [casemap]: three dependent reads of the packed table, the offset found
    added to the code unit; the result is a WCHAR. *)
Definition casemap (table : Z -> Z) (ch : Z) : Z :=
  USHORT (ch + table (table (table (Z.shiftr ch 8)
                             + Z.land (Z.shiftr ch 4) 0x0f)
                      + Z.land ch 0x0f)).

Definition casemap_ascii (ch : Z) : Z := Locale.casemap_ascii ch.

(** The case tables of [nls_info]: NULL ([None]) until
    RtlResetRtlTranslations has run. *)
Definition case_table := option (Z -> Z).

(** RtlDowncaseUnicodeChar. *)
Definition RtlDowncaseUnicodeChar (lower : case_table) (wch : Z) : Z :=
  match lower with
  | Some table => casemap table wch
  | None => if (65 <=? wch) && (wch <=? 90) then USHORT (wch + (97 - 65))
            else wch
  end.

(** towupper. *)
Definition towupper (upper : case_table) (ch : Z) : Z :=
  match upper with
  | Some table => casemap table ch
  | None => casemap_ascii ch
  end.

(** [wctomb_size] through RtlUnicodeToMultiByteSize: the status and the
    value stored in [*size]; [len] is in bytes. *)
Definition RtlUnicodeToMultiByteSize (ansi : nls_table) (str : list Z)
    (len : Z) : NTSTATUS * Z :=
  let n := len / sizeof_WCHAR in
  let str := firstn (Z.to_nat n) str in
  (STATUS_SUCCESS,
   match ansi with
   | Some info => wctomb_size info str
   | None => n
   end).

(** RtlUnicodeToMultiByteN. *)
Definition RtlUnicodeToMultiByteN (ansi : nls_table) (dstlen : Z)
    (src : list Z) (srclen : Z) : conv_result :=
  match ansi with
  | Some info => RtlUnicodeToCustomCPN info dstlen src srclen
  | None =>
      (* locale not setup yet *)
      let dstlen := Z.min (srclen / sizeof_WCHAR) dstlen in
      mk_conv STATUS_SUCCESS dstlen
              (map (fun ch => to_char (if ch >? 0x7f then 63 else ch))
                   (firstn (Z.to_nat dstlen) src))
  end.

(** The double-byte loop of RtlUpcaseUnicodeToCustomCPN. *)
Fixpoint upcase_unicode_to_cp_dbcs (upper uni2cp : Z -> Z) (i : Z)
    (src : list Z) : list Z * Z :=
  match src with
  | [] => ([], i)
  | c :: rest =>
      if i =? 0 then ([], i)
      else
        let ch := casemap upper c in
        if Z.land (uni2cp ch) 0xff00 =? 0
        then let (out, i') :=
               upcase_unicode_to_cp_dbcs upper uni2cp (i - 1) rest in
             (to_char (uni2cp ch) :: out, i')
        else if i =? 1 then ([], i)  (* do not output a partial char *)
        else let (out, i') :=
               upcase_unicode_to_cp_dbcs upper uni2cp (i - 1 - 1) rest in
             (to_char (Z.shiftr (uni2cp ch) 8) :: to_char (uni2cp ch) :: out,
              i')
  end.

(** RtlUpcaseUnicodeToCustomCPN; [upper] is [nls_info.UpperCaseTable]. *)
Definition RtlUpcaseUnicodeToCustomCPN (upper : Z -> Z) (info : CPTABLEINFO)
    (dstlen : Z) (src : list Z) (srclen : Z) : conv_result :=
  let srclen := srclen / sizeof_WCHAR in
  let src := firstn (Z.to_nat srclen) src in
  if DBCSCodePage info =? 0
  then
    let ret := Z.min srclen dstlen in
    mk_conv STATUS_SUCCESS ret
            (map (fun c => to_char (WideCharTable info (casemap upper c)))
                 (firstn (Z.to_nat ret) src))
  else
    let (out, i) :=
      upcase_unicode_to_cp_dbcs upper (WideCharTable info) dstlen src in
    mk_conv STATUS_SUCCESS (DWORD (dstlen - i)) out.

(** RtlAnsiCharToUnicodeChar on the bytes at [*ansi]: the code unit
    returned and the number of bytes [*ansi] has moved.  A read past the
    bytes given yields 0. *)
Definition RtlAnsiCharToUnicodeChar (info : CPTABLEINFO) (ansi : list Z)
  : Z * Z :=
  let plain := (MultiByteTable info (hd 0 ansi), 1) in
  match DBCSOffsets info with
  | Some offs =>
      let off := offs (hd 0 ansi) in
      if off =? 0 then plain
      else (offs (off + hd 0 (tl ansi)), 2)
  | None => plain
  end.

(** A byte string the table maps both ways, following the walk of the
    narrow-to-wide loop: each single byte comes back from the entry of its
    code unit, each lead and trail byte from the high and low byte of the
    entry of theirs. *)
Inductive mappable (mb offs uni2cp : Z -> Z) : list Z -> Prop :=
| mappable_nil : mappable mb offs uni2cp []
| mappable_single :
    forall b rest,
      offs b = 0 \/ rest = [] ->
      Z.land (uni2cp (mb b)) 0xff00 = 0 ->
      to_char (uni2cp (mb b)) = b ->
      mappable mb offs uni2cp rest ->
      mappable mb offs uni2cp (b :: rest)
| mappable_pair :
    forall l t rest,
      offs l <> 0 ->
      Z.land (uni2cp (offs (offs l + t))) 0xff00 <> 0 ->
      to_char (Z.shiftr (uni2cp (offs (offs l + t))) 8) = l ->
      to_char (uni2cp (offs (offs l + t))) = t ->
      mappable mb offs uni2cp rest ->
      mappable mb offs uni2cp (l :: t :: rest).

(** An upper-case table for the concrete checks: the ASCII letters a-z
    get the offset -32 (0xffe0 as a USHORT), everything else 0.  The three
    levels: 256 first-level entries, all pointing at the second-level
    block at 256 except the one of page 0 at 272; 16 second-level entries
    each; third-level blocks at 288 (all zero), 304 (p-z) and 320
    (a-o). *)
Definition sample_upper (i : Z) : Z :=
  if i =? 0 then 272
  else if i <? 256 then 256
  else if i <? 272 then 288
  else if i =? 272 + 6 then 320
  else if i =? 272 + 7 then 304
  else if i <? 288 then 288
  else if i <? 304 then 0
  else if i <? 304 + 11 then 0xffe0
  else if i <? 320 then 0
  else if i =? 320 then 0
  else if i <? 336 then 0xffe0
  else 0.

End CodePageExt.

(** ** Facts about the remaining code-page entry points *)

Module CodePageExtFacts.
Import CodePage CodePageExt CodePageFacts.

Lemma to_char_small (c : Z) : 0 <= c < 256 -> to_char c = c.
Proof.
  intros H. unfold to_char. change 0xff with (Z.ones 8).
  rewrite Z.land_ones by lia. apply Z.mod_small. exact H.
Qed.

Lemma to_char_range (c : Z) : 0 <= to_char c < 256.
Proof.
  unfold to_char. change 0xff with (Z.ones 8).
  rewrite Z.land_ones by lia. apply Z.mod_pos_bound. lia.
Qed.

Lemma In_firstn {A : Type} (x : A) (n : nat) (l : list A) :
  In x (firstn n l) -> In x l.
Proof.
  intros H. rewrite <- (firstn_skipn n l). apply in_or_app. left. exact H.
Qed.

Lemma len_map {A B : Type} (f : A -> B) (l : list A) : len (map f l) = len l.
Proof. unfold len. rewrite length_map. reflexivity. Qed.

Lemma len_firstn {A : Type} (n : Z) (l : list A) :
  0 <= n -> len (firstn (Z.to_nat n) l) = Z.min n (len l).
Proof. intros H. unfold len. rewrite length_firstn. lia. Qed.

(** *** Sizes and bounds of the wide-to-narrow side *)

Section WideSize.
Variable uni2cp : Z -> Z.

Lemma bytes_len_bounds (src : list Z) :
  len src <= len (flat_map (mb_seq uni2cp) src) <= 2 * len src.
Proof.
  induction src as [|c src IH]; [cbn; lia|].
  cbn [flat_map]. rewrite len_app, len_cons.
  pose proof (mb_seq_len uni2cp c). lia.
Qed.

Lemma wctomb_walk_bytes (src : list Z) :
  forall res,
    0 <= res -> res + 2 * len src < 2 ^ 32 ->
    wctomb_walk uni2cp src res
    = res + len (flat_map (mb_seq uni2cp) src).
Proof.
  induction src as [|c src IH]; intros res Hres Hb.
  - cbn. lia.
  - rewrite len_cons in Hb. pose proof (len_nonneg src).
    cbn [wctomb_walk flat_map]. rewrite len_app.
    pose proof (mb_seq_len uni2cp c) as Hc. unfold mb_seq in *.
    destruct (Z.land (uni2cp c) 0xff00 =? 0).
    + rewrite (DWORD_small (res + 1)) by lia.
      rewrite (IH (res + 1)) by lia.
      rewrite len_cons, (@len_nil Z). lia.
    + rewrite (DWORD_small (res + 1)) by lia.
      rewrite (DWORD_small (res + 1 + 1)) by lia.
      rewrite (IH (res + 1 + 1)) by lia.
      rewrite !len_cons, (@len_nil Z). lia.
Qed.

Lemma unicode_to_cp_dbcs_all (src : list Z) (i : Z) :
  len (flat_map (mb_seq uni2cp) src) <= i ->
  unicode_to_cp_dbcs uni2cp i src
  = (flat_map (mb_seq uni2cp) src,
     i - len (flat_map (mb_seq uni2cp) src)).
Proof.
  intros H.
  pose proof (unicode_to_cp_dbcs_prefix uni2cp src [] i H) as P.
  rewrite app_nil_r in P. rewrite P. cbn [unicode_to_cp_dbcs fst snd].
  rewrite app_nil_r. reflexivity.
Qed.
End WideSize.

(** X1.  For every table, single-byte or double-byte, wctomb_size (and
    RtlUnicodeToMultiByteSize) returns exactly the number of bytes
    RtlUnicodeToCustomCPN stores and reports when the destination holds
    that many; the whole input is then converted. *)
Theorem wctomb_size_agrees_with_conversion :
  forall (info : CPTABLEINFO) (src : list Z) (dstlen : Z),
    len src < 2 ^ 31 ->
    0 <= dstlen < 2 ^ 32 ->
    wctomb_size info src <= dstlen ->
    let r := RtlUnicodeToCustomCPN info dstlen src (len src * sizeof_WCHAR) in
    status r = STATUS_SUCCESS /\
    res_len r = wctomb_size info src /\
    len (written r) = wctomb_size info src /\
    RtlUnicodeToMultiByteSize (Some info) src (len src * sizeof_WCHAR)
      = (STATUS_SUCCESS, res_len r).
Proof.
  intros info src dstlen Hsrc Hdst Hfit r. subst r.
  unfold RtlUnicodeToCustomCPN, RtlUnicodeToMultiByteSize, wctomb_size in *.
  rewrite srclen_units, firstn_len.
  pose proof (len_nonneg src) as Hlen.
  destruct (DBCSCodePage info =? 0).
  - cbn [status res_len written].
    rewrite Z.min_l by lia. rewrite firstn_len, len_map.
    repeat split.
  - pose proof (bytes_len_bounds (WideCharTable info) src) as Hb.
    rewrite wctomb_walk_bytes in * by lia. rewrite Z.add_0_l in *.
    rewrite unicode_to_cp_dbcs_all by lia.
    cbn [status res_len written].
    replace (dstlen - (dstlen - len (flat_map (mb_seq (WideCharTable info)) src)))
      with (len (flat_map (mb_seq (WideCharTable info)) src)) by lia.
    rewrite DWORD_small by lia. repeat split.
Qed.

Lemma wctomb_size_agrees_with_conversion_witness :
  let r := RtlUnicodeToCustomCPN sample_dbcs 8 [0x41; 0x3042; 0x42]
             (len [0x41; 0x3042; 0x42] * sizeof_WCHAR) in
  status r = STATUS_SUCCESS /\
  res_len r = wctomb_size sample_dbcs [0x41; 0x3042; 0x42] /\
  len (written r) = wctomb_size sample_dbcs [0x41; 0x3042; 0x42] /\
  RtlUnicodeToMultiByteSize (Some sample_dbcs) [0x41; 0x3042; 0x42]
    (len [0x41; 0x3042; 0x42] * sizeof_WCHAR)
    = (STATUS_SUCCESS, res_len r).
Proof.
  apply (wctomb_size_agrees_with_conversion sample_dbcs [0x41; 0x3042; 0x42] 8).
  - vm_compute. reflexivity.
  - lia.
  - vm_compute. discriminate.
Defined.

(** *** Neither direction overruns its destination *)

Lemma cp_to_unicode_dbcs_bounds_aux (mb offs : Z -> Z) (n : nat) :
  forall src i, (length src <= n)%nat -> 0 <= i ->
    0 <= snd (cp_to_unicode_dbcs mb offs i src) /\
    len (fst (cp_to_unicode_dbcs mb offs i src))
      = i - snd (cp_to_unicode_dbcs mb offs i src) /\
    len (fst (cp_to_unicode_dbcs mb offs i src)) <= len src.
Proof.
  induction n as [|n IH]; intros src i Hn Hi.
  - destruct src; cbn [length] in Hn; [|lia].
    cbn [cp_to_unicode_dbcs fst snd]. rewrite (@len_nil Z). lia.
  - destruct src as [|c rest].
    { cbn [cp_to_unicode_dbcs fst snd]. rewrite (@len_nil Z). lia. }
    cbn [cp_to_unicode_dbcs]. cbn [length] in Hn.
    destruct (Z.eqb_spec i 0) as [->|Hi0].
    { cbn [fst snd]. rewrite (@len_nil Z), len_cons.
      pose proof (len_nonneg rest). lia. }
    cbv zeta.
    assert (Hone : forall u,
      let r := cp_to_unicode_dbcs mb offs (i - 1) rest in
      0 <= snd (let (out, i') := r in (u :: out, i')) /\
      len (fst (let (out, i') := r in (u :: out, i')))
        = i - snd (let (out, i') := r in (u :: out, i')) /\
      len (fst (let (out, i') := r in (u :: out, i'))) <= len (c :: rest)).
    { intros u r. subst r.
      destruct (IH rest (i - 1)) as (A & B & C); [lia | lia |].
      destruct (cp_to_unicode_dbcs mb offs (i - 1) rest) as [out i'].
      cbn [fst snd] in *. rewrite !len_cons. lia. }
    destruct rest as [|t rest'].
    + apply Hone.
    + destruct (offs c =? 0); [apply Hone|].
      destruct (IH rest' (i - 1)) as (A & B & C);
        [cbn [length] in Hn; lia | lia |].
      destruct (cp_to_unicode_dbcs mb offs (i - 1) rest') as [out i'].
      cbn [fst snd] in *. rewrite !len_cons. lia.
Qed.

(** X2.  RtlCustomCPToUnicodeN never stores past its destination and
    reports what it stored: for every table and input, the bytes reported
    are twice the code units written, at most [dstlen], and no more code
    units are written than bytes were given. *)
Theorem cp_to_unicode_stays_in_bounds :
  forall (info : CPTABLEINFO) (src : list Z) (dstlen : Z),
    0 <= dstlen < 2 ^ 32 ->
    let r := RtlCustomCPToUnicodeN info dstlen src (len src) in
    status r = STATUS_SUCCESS /\
    res_len r = len (written r) * sizeof_WCHAR /\
    res_len r <= dstlen /\
    len (written r) <= len src.
Proof.
  intros info src dstlen Hdst r. subst r.
  unfold RtlCustomCPToUnicodeN. rewrite firstn_len.
  pose proof (len_nonneg src) as Hlen.
  assert (Hq : 0 <= dstlen / sizeof_WCHAR)
    by (apply Z.div_pos; unfold sizeof_WCHAR; lia).
  assert (Hm : dstlen / sizeof_WCHAR * sizeof_WCHAR <= dstlen)
    by (unfold sizeof_WCHAR; rewrite Z.mul_comm; apply Z.mul_div_le; lia).
  destruct (DBCSOffsets info) as [offs|].
  - destruct (cp_to_unicode_dbcs_bounds_aux (MultiByteTable info) offs
                (length src) src (dstlen / sizeof_WCHAR))
      as (A & B & C); [lia | lia |].
    destruct (cp_to_unicode_dbcs (MultiByteTable info) offs
                (dstlen / sizeof_WCHAR) src) as [out i].
    cbn [fst snd status res_len written] in *.
    unfold sizeof_WCHAR in *. pose proof (len_nonneg out).
    rewrite (DWORD_small (dstlen / 2 - i)) by lia.
    rewrite DWORD_small by lia. repeat split; lia.
  - cbn [status res_len written].
    rewrite len_map, len_firstn by lia. unfold sizeof_WCHAR in *.
    rewrite DWORD_small by lia. repeat split; lia.
Qed.

Lemma cp_to_unicode_stays_in_bounds_witness :
  let r := RtlCustomCPToUnicodeN sample_dbcs 5 [0x41; 0x82; 0xa0; 0x42]
             (len [0x41; 0x82; 0xa0; 0x42]) in
  status r = STATUS_SUCCESS /\
  res_len r = len (written r) * sizeof_WCHAR /\
  res_len r <= 5 /\
  len (written r) <= len [0x41; 0x82; 0xa0; 0x42].
Proof.
  apply (cp_to_unicode_stays_in_bounds sample_dbcs [0x41; 0x82; 0xa0; 0x42] 5).
  lia.
Defined.

(** X3.  RtlUnicodeToCustomCPN never stores past its destination and
    reports what it stored: for every table and input, the length
    reported is the number of bytes written, at most [dstlen], and at
    most two bytes per code unit given. *)
Theorem unicode_to_cp_stays_in_bounds :
  forall (info : CPTABLEINFO) (src : list Z) (dstlen : Z),
    0 <= dstlen < 2 ^ 32 ->
    let r := RtlUnicodeToCustomCPN info dstlen src (len src * sizeof_WCHAR) in
    status r = STATUS_SUCCESS /\
    res_len r = len (written r) /\
    res_len r <= dstlen /\
    len (written r) <= 2 * len src.
Proof.
  intros info src dstlen Hdst r. subst r.
  unfold RtlUnicodeToCustomCPN. rewrite srclen_units, firstn_len.
  pose proof (len_nonneg src) as Hlen.
  destruct (DBCSCodePage info =? 0).
  - cbn [status res_len written]. rewrite len_map, len_firstn by lia.
    repeat split; lia.
  - destruct (unicode_to_cp_dbcs_whole (WideCharTable info) src dstlen)
      as (k & Hk & Ho & Hi & Hpos & _); [lia|].
    destruct (unicode_to_cp_dbcs (WideCharTable info) dstlen src) as [out i].
    cbn [fst snd status res_len written] in *. subst out i.
    pose proof (bytes_len_bounds (WideCharTable info) (firstn k src)) as Hb.
    assert (Hf : len (firstn k src) <= len src)
      by (unfold len; rewrite length_firstn; lia).
    rewrite DWORD_small by lia. repeat split; lia.
Qed.

Lemma unicode_to_cp_stays_in_bounds_witness :
  let r := RtlUnicodeToCustomCPN sample_dbcs 2 [0x3042; 0x3042]
             (len [0x3042; 0x3042] * sizeof_WCHAR) in
  status r = STATUS_SUCCESS /\
  res_len r = len (written r) /\
  res_len r <= 2 /\
  len (written r) <= 2 * len [0x3042; 0x3042].
Proof.
  apply (unicode_to_cp_stays_in_bounds sample_dbcs [0x3042; 0x3042] 2). lia.
Defined.

(** *** Round trip through a double-byte page *)

Section RoundTrip.
Variables mb offs uni2cp : Z -> Z.

(** With room for every code unit, the narrow-to-wide loop turns a
    mappable string into code units whose byte sequences spell the string
    again. *)
Lemma cp_to_unicode_dbcs_mappable (src : list Z) :
  mappable mb offs uni2cp src ->
  forall i, mb_units offs src <= i ->
    flat_map (mb_seq uni2cp) (fst (cp_to_unicode_dbcs mb offs i src)) = src.
Proof.
  induction 1 as [|b rest Hsingle Hhigh Hlow _ IH
                  |l t rest Hlead Hhigh Hl Ht _ IH]; intros i Hi.
  - reflexivity.
  - assert (Hstep : cp_to_unicode_dbcs mb offs i (b :: rest)
                    = (mb b :: fst (cp_to_unicode_dbcs mb offs (i - 1) rest),
                       snd (cp_to_unicode_dbcs mb offs (i - 1) rest)) /\
                    mb_units offs rest <= i - 1).
    { pose proof (mb_units_bounds offs rest) as Hb.
      cbn [cp_to_unicode_dbcs mb_units] in *.
      destruct rest as [|t rest'].
      - destruct (Z.eqb_spec i 0); [lia|]. split; [reflexivity | cbn; lia].
      - destruct Hsingle as [H0|Hnil]; [|discriminate].
        rewrite H0 in *. cbn [Z.eqb] in *.
        destruct (Z.eqb_spec i 0); [lia|].
        destruct (cp_to_unicode_dbcs mb offs (i - 1) (t :: rest')).
        split; [reflexivity | lia]. }
    destruct Hstep as [-> Hi']. cbn [fst flat_map].
    rewrite (IH _ Hi'). unfold mb_seq. rewrite Hhigh, Hlow. reflexivity.
  - pose proof (mb_units_bounds offs rest) as Hb.
    cbn [cp_to_unicode_dbcs mb_units] in *.
    destruct (Z.eqb_spec (offs l) 0); [contradiction|].
    destruct (Z.eqb_spec i 0); [lia|].
    specialize (IH (i - 1)).
    destruct (cp_to_unicode_dbcs mb offs (i - 1) rest) as [out i'].
    cbn [fst flat_map] in *. rewrite IH by lia.
    unfold mb_seq.
    destruct (Z.eqb_spec (Z.land (uni2cp (offs (offs l + t))) 0xff00) 0);
      [contradiction|].
    rewrite Hl, Ht. reflexivity.
Qed.
End RoundTrip.

(** X4.  On a double-byte page, a byte string the table maps both ways
    survives the round trip: RtlCustomCPToUnicodeN into a destination
    that holds all its code units, then RtlUnicodeToCustomCPN of those
    code units into a destination as long as the string, gives back the
    bytes and their count. *)
Theorem cp_round_trip :
  forall (info : CPTABLEINFO) (offs : Z -> Z) (src : list Z)
         (dstlen : Z),
    DBCSCodePage info <> 0 ->
    DBCSOffsets info = Some offs ->
    mappable (MultiByteTable info) offs (WideCharTable info) src ->
    len src < 2 ^ 31 ->
    len src * sizeof_WCHAR <= dstlen < 2 ^ 32 ->
    let wide := written (RtlCustomCPToUnicodeN info dstlen src (len src)) in
    RtlUnicodeToCustomCPN info (len src) wide (len wide * sizeof_WCHAR)
    = mk_conv STATUS_SUCCESS (len src) src.
Proof.
  intros info offs src dstlen Hflag Hoffs Hmap Hsrc Hdst wide. subst wide.
  unfold RtlCustomCPToUnicodeN, RtlUnicodeToCustomCPN.
  rewrite Hoffs, firstn_len.
  pose proof (mb_units_bounds offs src) as Hu.
  pose proof (len_nonneg src) as Hlen.
  assert (Hroom : mb_units offs src <= dstlen / sizeof_WCHAR).
  { apply Z.div_le_lower_bound; unfold sizeof_WCHAR in *; lia. }
  pose proof (cp_to_unicode_dbcs_mappable _ _ _ src Hmap _ Hroom) as Hback.
  destruct (cp_to_unicode_dbcs (MultiByteTable info) offs
              (dstlen / sizeof_WCHAR) src) as [out i].
  cbn [fst written] in *.
  rewrite srclen_units, firstn_len.
  destruct (Z.eqb_spec (DBCSCodePage info) 0); [contradiction|].
  rewrite unicode_to_cp_dbcs_all by (rewrite Hback; lia).
  rewrite Hback. replace (len src - (len src - len src)) with (len src) by lia.
  rewrite DWORD_small by lia. reflexivity.
Qed.

(** The round trip of 41 82 A0 42 through the sample page. *)
Lemma cp_round_trip_witness :
  let src := [0x41; 0x82; 0xa0; 0x42] in
  let wide := written (RtlCustomCPToUnicodeN sample_dbcs 8 src (len src)) in
  RtlUnicodeToCustomCPN sample_dbcs (len src) wide (len wide * sizeof_WCHAR)
  = mk_conv STATUS_SUCCESS (len src) src.
Proof.
  apply (cp_round_trip sample_dbcs sample_dbcs_offsets
           [0x41; 0x82; 0xa0; 0x42] 8).
  - cbn. lia.
  - reflexivity.
  - apply mappable_single; [left; reflexivity | reflexivity | reflexivity |].
    apply mappable_pair;
      [cbn; lia | cbn; lia | reflexivity | reflexivity |].
    apply mappable_single; [right; reflexivity | reflexivity | reflexivity |].
    apply mappable_nil.
  - vm_compute. reflexivity.
  - vm_compute. split; [discriminate | reflexivity].
Defined.

(** *** Upper-casing before the conversion *)

Lemma upcase_unicode_to_cp_dbcs_map (upper uni2cp : Z -> Z) (src : list Z) :
  forall i,
    upcase_unicode_to_cp_dbcs upper uni2cp i src
    = unicode_to_cp_dbcs uni2cp i (map (casemap upper) src).
Proof.
  induction src as [|c src IH]; intros i; [reflexivity|].
  cbn [upcase_unicode_to_cp_dbcs unicode_to_cp_dbcs map]. cbv zeta.
  rewrite !IH. reflexivity.
Qed.

(** X5.  RtlUpcaseUnicodeToCustomCPN is RtlUnicodeToCustomCPN applied to
    the input with every code unit mapped through the upper-case table:
    same status, same reported length, same bytes, on every table and for
    every destination length. *)
Theorem upcase_conversion_is_conversion_of_upcased :
  forall (upper : Z -> Z) (info : CPTABLEINFO) (dstlen : Z)
         (src : list Z) (srclen : Z),
    RtlUpcaseUnicodeToCustomCPN upper info dstlen src srclen
    = RtlUnicodeToCustomCPN info dstlen (map (casemap upper) src) srclen.
Proof.
  intros upper info dstlen src srclen.
  unfold RtlUpcaseUnicodeToCustomCPN, RtlUnicodeToCustomCPN.
  rewrite !firstn_map.
  destruct (DBCSCodePage info =? 0).
  - rewrite map_map. reflexivity.
  - rewrite upcase_unicode_to_cp_dbcs_map. reflexivity.
Qed.

Example upcase_conversion_sample :
  RtlUpcaseUnicodeToCustomCPN sample_upper sample_dbcs 8
    [0x61; 0x3042; 0x7a; 0x7b] 8
  = mk_conv STATUS_SUCCESS 5 [0x41; 0x82; 0xa0; 0x5a; 0x7b].
Proof. vm_compute. reflexivity. Qed.

(** *** One character at a time *)

Lemma cp_to_unicode_dbcs_two (mb offs : Z -> Z) (i b t : Z)
    (rest : list Z) :
  i <> 0 ->
  fst (cp_to_unicode_dbcs mb offs i (b :: t :: rest))
  = if offs b =? 0
    then mb b :: fst (cp_to_unicode_dbcs mb offs (i - 1) (t :: rest))
    else offs (offs b + t) :: fst (cp_to_unicode_dbcs mb offs (i - 1) rest).
Proof.
  intros Hi.
  change (cp_to_unicode_dbcs mb offs i (b :: t :: rest))
    with (if i =? 0 then ([], i)
          else if offs b =? 0
          then let (out, i') :=
                 cp_to_unicode_dbcs mb offs (i - 1) (t :: rest) in
               (mb b :: out, i')
          else let (out, i') :=
                 cp_to_unicode_dbcs mb offs (i - 1) rest in
               (offs (offs b + t) :: out, i')).
  destruct (Z.eqb_spec i 0); [contradiction|].
  destruct (offs b =? 0).
  - destruct (cp_to_unicode_dbcs mb offs (i - 1) (t :: rest)); reflexivity.
  - destruct (cp_to_unicode_dbcs mb offs (i - 1) rest); reflexivity.
Qed.

Lemma written_dbcs (info : CPTABLEINFO) (offs : Z -> Z) (dstlen : Z)
    (src : list Z) :
  DBCSOffsets info = Some offs ->
  written (RtlCustomCPToUnicodeN info dstlen src (len src))
  = fst (cp_to_unicode_dbcs (MultiByteTable info) offs
           (dstlen / sizeof_WCHAR) src).
Proof.
  intros H. unfold RtlCustomCPToUnicodeN. rewrite H, firstn_len.
  destruct (cp_to_unicode_dbcs (MultiByteTable info) offs
              (dstlen / sizeof_WCHAR) src). reflexivity.
Qed.

Lemma written_sbcs (info : CPTABLEINFO) (dstlen : Z) (src : list Z) :
  DBCSOffsets info = None ->
  written (RtlCustomCPToUnicodeN info dstlen src (len src))
  = map (MultiByteTable info)
        (firstn (Z.to_nat (Z.min (len src) (dstlen / sizeof_WCHAR))) src).
Proof.
  intros H. unfold RtlCustomCPToUnicodeN. rewrite H, firstn_len.
  reflexivity.
Qed.

(** X6.  The bulk conversion starts with the character
    RtlAnsiCharToUnicodeChar reads: for a string of at least two bytes
    and a destination with room for at least one code unit,
    RtlCustomCPToUnicodeN stores the code unit RtlAnsiCharToUnicodeChar
    returns, followed by what the conversion of the bytes behind that
    character stores in the room that is left. *)
Theorem bulk_conversion_starts_with_ansi_char :
  forall (info : CPTABLEINFO) (b t : Z) (rest : list Z) (dstlen : Z),
    sizeof_WCHAR <= dstlen ->
    let src := b :: t :: rest in
    let first := RtlAnsiCharToUnicodeChar info src in
    let behind := skipn (Z.to_nat (snd first)) src in
    written (RtlCustomCPToUnicodeN info dstlen src (len src))
    = fst first
      :: written (RtlCustomCPToUnicodeN info (dstlen - sizeof_WCHAR)
                                        behind (len behind)).
Proof.
  intros info b t rest dstlen Hdst src first behind.
  subst src first behind.
  assert (Hq : (dstlen - sizeof_WCHAR) / sizeof_WCHAR
               = dstlen / sizeof_WCHAR - 1).
  { unfold sizeof_WCHAR.
    replace (dstlen - 2) with (dstlen + (-1) * 2) by lia.
    rewrite Z.div_add by lia. lia. }
  assert (Hpos : 1 <= dstlen / sizeof_WCHAR).
  { apply Z.div_le_lower_bound; unfold sizeof_WCHAR in *; lia. }
  unfold RtlAnsiCharToUnicodeChar.
  destruct (DBCSOffsets info) as [offs|] eqn:Hoffs; cbn [hd tl].
  - rewrite !(written_dbcs info offs) by exact Hoffs.
    rewrite Hq, cp_to_unicode_dbcs_two by lia.
    destruct (offs b =? 0); reflexivity.
  - rewrite !written_sbcs by exact Hoffs.
    cbn [fst snd]. change (skipn (Z.to_nat 1) (b :: t :: rest))
      with (t :: rest).
    rewrite Hq, !len_cons.
    pose proof (len_nonneg rest) as Hl.
    assert (Hmin : Z.min (len rest + 1 + 1) (dstlen / sizeof_WCHAR)
                   = Z.min (len rest + 1) (dstlen / sizeof_WCHAR - 1) + 1)
      by lia.
    rewrite Hmin, Z2Nat.inj_add by lia.
    change (Z.to_nat 1) with 1%nat.
    rewrite Nat.add_1_r. reflexivity.
Qed.

Lemma bulk_conversion_starts_with_ansi_char_witness :
  let src := 0x82 :: 0xa0 :: [0x41] in
  let first := RtlAnsiCharToUnicodeChar sample_dbcs src in
  let behind := skipn (Z.to_nat (snd first)) src in
  written (RtlCustomCPToUnicodeN sample_dbcs 8 src (len src))
  = fst first
    :: written (RtlCustomCPToUnicodeN sample_dbcs (8 - sizeof_WCHAR)
                                      behind (len behind)).
Proof.
  apply (bulk_conversion_starts_with_ansi_char sample_dbcs 0x82 0xa0 [0x41] 8).
  vm_compute. discriminate.
Defined.

(** *** Before the tables are set up *)

(** X7.  With no table set up yet, RtlMultiByteToUnicodeN followed by
    RtlUnicodeToMultiByteN gives back every string of 7-bit bytes, and
    RtlUnicodeToMultiByteN never produces a byte above 0x7f from code
    units, whatever they are. *)
Theorem cold_start_round_trip :
  forall (src : list Z),
    len src < 2 ^ 31 ->
    (Forall (fun b => 0 <= b < 0x80) src ->
     let wide := written (RtlMultiByteToUnicodeN None
                            (len src * sizeof_WCHAR) src (len src)) in
     RtlUnicodeToMultiByteN None (len src) wide (len wide * sizeof_WCHAR)
     = mk_conv STATUS_SUCCESS (len src) src) /\
    (Forall (fun c => 0 <= c) src ->
     forall dstlen : Z,
       Forall (fun b => 0 <= b <= 0x7f)
              (written (RtlUnicodeToMultiByteN None dstlen src
                          (len src * sizeof_WCHAR)))).
Proof.
  intros src Hsrc. pose proof (len_nonneg src) as Hlen. split.
  - intros H7 wide.
    assert (Hwide : wide = map (fun c => Z.land c 0x7f) src).
    { subst wide. unfold RtlMultiByteToUnicodeN. cbn [written].
      rewrite srclen_units, Z.min_id, firstn_len. reflexivity. }
    rewrite Hwide. unfold RtlUnicodeToMultiByteN.
    rewrite len_map, srclen_units, Z.min_id.
    rewrite <- (len_map (fun c : Z => Z.land c 0x7f) src) at 2.
    rewrite firstn_len, map_map. f_equal.
    rewrite <- (map_id src) at 2. apply map_ext_in.
    intros b Hb. rewrite Forall_forall in H7. specialize (H7 b Hb).
    assert (H7f : Z.land b 0x7f = b).
    { change 0x7f with (Z.ones 7). rewrite Z.land_ones by lia.
      apply Z.mod_small. lia. }
    rewrite H7f. destruct (Z.gtb_spec b 0x7f); [lia|].
    apply to_char_small. lia.
  - intros Hpos dstlen.
    unfold RtlUnicodeToMultiByteN. cbn [written].
    apply Forall_forall. intros x Hx. apply in_map_iff in Hx.
    destruct Hx as (c & <- & Hc).
    apply In_firstn in Hc.
    rewrite Forall_forall in Hpos. specialize (Hpos c Hc).
    destruct (Z.gtb_spec c 0x7f); rewrite to_char_small by lia; lia.
Qed.

Lemma cold_start_round_trip_witness :
  (let wide := written (RtlMultiByteToUnicodeN None
                          (len [0x41; 0x7f; 0] * sizeof_WCHAR)
                          [0x41; 0x7f; 0] (len [0x41; 0x7f; 0])) in
   RtlUnicodeToMultiByteN None (len [0x41; 0x7f; 0]) wide
     (len wide * sizeof_WCHAR)
   = mk_conv STATUS_SUCCESS (len [0x41; 0x7f; 0]) [0x41; 0x7f; 0]) /\
  Forall (fun b => 0 <= b <= 0x7f)
         (written (RtlUnicodeToMultiByteN None 8 [0x41; 0xe9; 0x3042]
                     (len [0x41; 0xe9; 0x3042] * sizeof_WCHAR))).
Proof.
  split.
  - apply (cold_start_round_trip [0x41; 0x7f; 0]).
    + vm_compute. reflexivity.
    + repeat constructor; lia.
  - apply (cold_start_round_trip [0x41; 0xe9; 0x3042]).
    + vm_compute. reflexivity.
    + repeat constructor; lia.
Defined.

End CodePageExtFacts.

(** ** String comparison, prefix test, hashing and case conversion *)

Module Strings.
Import Locale CodePageExt.

(** A SIZE_T difference or sum stored in a LONG. *)
Definition to_LONG (x : Z) : Z := (x + 2 ^ 31) mod 2 ^ 32 - 2 ^ 31.

(** [while (!ret && len--) ret = f( *s1++ ) - f( *s2++ );] with
    [len = min( len1, len2 )]: the lists hold the [len1] and [len2] units,
    and the loop ends when either is used up. *)
Fixpoint compare_units (f : Z -> Z) (s1 s2 : list Z) : Z :=
  match s1, s2 with
  | c1 :: r1, c2 :: r2 =>
      let ret := f c1 - f c2 in
      if ret =? 0 then compare_units f r1 r2 else ret
  | _, _ => 0
  end.

(** The mapping a case-insensitive operation applies to each unit: the
    upper-case table, or the ASCII fallback while the locale is not set
    up. *)
Definition fold_case (upper : case_table) (case_insensitive : bool)
  : Z -> Z :=
  if case_insensitive then
    match upper with
    | Some table => casemap table
    | None => casemap_ascii
    end
  else fun ch => ch.

(** RtlCompareUnicodeStrings; the lengths count code units. *)
Definition RtlCompareUnicodeStrings (upper : case_table)
    (s1 : list Z) (len1 : Z) (s2 : list Z) (len2 : Z)
    (case_insensitive : bool) : Z :=
  let ret := compare_units (fold_case upper case_insensitive)
               (firstn (Z.to_nat len1) s1) (firstn (Z.to_nat len2) s2) in
  if ret =? 0 then to_LONG (len1 - len2) else ret.

(** The [Length / sizeof(WCHAR)] code units at [Buffer]; a NULL buffer
    goes with length 0 only. *)
Definition string_units (s : UNICODE_STRING) : list Z :=
  firstn (Z.to_nat (Length s / sizeof_WCHAR))
         (match Buffer s with Some b => b | None => [] end).

(** [for (i = 0; i < s1->Length / sizeof(WCHAR); i++)
      if (f( s1->Buffer[i] ) != f( s2->Buffer[i] )) return FALSE;] over
    the units of [s1] and the units of [s2] beside them. *)
Fixpoint prefix_units (f : Z -> Z) (s1 s2 : list Z) : bool :=
  match s1 with
  | [] => true
  | c1 :: r1 =>
      if negb (f c1 =? f (hd 0 s2)) then false
      else prefix_units f r1 (tl s2)
  end.

(** RtlPrefixUnicodeString; with [ignore_case] the upper-case table is
    used without a NULL test, so [upper] is the table itself. *)
Definition RtlPrefixUnicodeString (upper : Z -> Z)
    (s1 s2 : UNICODE_STRING) (ignore_case : bool) : bool :=
  if Length s1 >? Length s2 then false
  else prefix_units (if ignore_case then casemap upper else fun ch => ch)
                    (string_units s1)
                    (match Buffer s2 with Some b => b | None => [] end).

Definition HASH_STRING_ALGORITHM_DEFAULT : Z := 0.
Definition HASH_STRING_ALGORITHM_X65599 : Z := 1.

(** [*hash = *hash * 65599 + f( string->Buffer[i] )] over the units. *)
Fixpoint hash_units (f : Z -> Z) (s : list Z) (hash : Z) : Z :=
  match s with
  | [] => hash
  | c :: rest => hash_units f rest (DWORD (hash * 65599 + f c))
  end.

(** RtlHashUnicodeString: the status and the value stored in [*hash];
    [hash] tells whether that pointer is non-NULL. *)
Definition RtlHashUnicodeString (upper : case_table)
    (string : option UNICODE_STRING) (case_insensitive : bool) (alg : Z)
    (hash : bool) : NTSTATUS * option Z :=
  match string with
  | None => (STATUS_INVALID_PARAMETER, None)
  | Some s =>
      if negb hash then (STATUS_INVALID_PARAMETER, None)
      else if (alg =? HASH_STRING_ALGORITHM_DEFAULT)
              || (alg =? HASH_STRING_ALGORITHM_X65599)
      then (STATUS_SUCCESS,
            Some (hash_units (fold_case upper case_insensitive)
                             (string_units s) 0))
      else (STATUS_INVALID_PARAMETER, None)
  end.

(** The body shared by RtlUpcaseUnicodeString and
    RtlDowncaseUnicodeString, for the case table [table] each uses:
    the status and [dest] as the call leaves it.  [heap_alloc] tells
    whether RtlAllocateHeap returns memory for a size. *)
Definition convert_case_string (table : Z -> Z) (heap_alloc : Z -> bool)
    (dest src : UNICODE_STRING) (alloc : bool)
  : NTSTATUS * UNICODE_STRING :=
  let len := Length src in
  let mapped := map (casemap table) (string_units src) in
  if alloc then
    if heap_alloc len
    then (STATUS_SUCCESS,
          {| Length := len; MaximumLength := USHORT len;
             Buffer := Some mapped |})
    else (STATUS_NO_MEMORY,
          {| Length := Length dest; MaximumLength := USHORT len;
             Buffer := None |})
  else if len >? MaximumLength dest then (STATUS_BUFFER_OVERFLOW, dest)
  else (STATUS_SUCCESS,
        {| Length := len; MaximumLength := MaximumLength dest;
           Buffer :=
             Some (mapped
                   ++ skipn (length mapped)
                            (match Buffer dest with
                             | Some b => b
                             | None => []
                             end)) |}).

(** RtlUpcaseUnicodeString, on [nls_info.UpperCaseTable]. *)
Definition RtlUpcaseUnicodeString (upper : Z -> Z) (heap_alloc : Z -> bool)
    (dest src : UNICODE_STRING) (alloc : bool)
  : NTSTATUS * UNICODE_STRING :=
  convert_case_string upper heap_alloc dest src alloc.

(** RtlDowncaseUnicodeString, on [nls_info.LowerCaseTable]. *)
Definition RtlDowncaseUnicodeString (lower : Z -> Z) (heap_alloc : Z -> bool)
    (dest src : UNICODE_STRING) (alloc : bool)
  : NTSTATUS * UNICODE_STRING :=
  convert_case_string lower heap_alloc dest src alloc.

(** The counted string over the units [l]. *)
Definition counted (l : list Z) : UNICODE_STRING :=
  {| Length := len l * sizeof_WCHAR;
     MaximumLength := len l * sizeof_WCHAR;
     Buffer := Some l |}.

End Strings.

(** ** Facts about the string functions *)

Module StringsFacts.
Import Locale CodePageExt Strings CodePageFacts CodePageExtFacts.

Lemma to_LONG_small (x : Z) : - 2 ^ 31 <= x < 2 ^ 31 -> to_LONG x = x.
Proof.
  intros H. unfold to_LONG. rewrite Z.mod_small by lia. lia.
Qed.

Lemma string_units_counted (l : list Z) : string_units (counted l) = l.
Proof.
  unfold string_units, counted, sizeof_WCHAR. cbn [Length Buffer].
  rewrite Z.div_mul by lia. apply firstn_len.
Qed.

Lemma Length_counted (l : list Z) :
  Length (counted l) / sizeof_WCHAR = len l.
Proof.
  unfold counted, sizeof_WCHAR. cbn [Length]. apply Z.div_mul. lia.
Qed.

Lemma compare_units_zero_iff (f : Z -> Z) (s1 s2 : list Z) :
  length s1 = length s2 ->
  (compare_units f s1 s2 = 0 <-> map f s1 = map f s2).
Proof.
  revert s2. induction s1 as [|c1 r1 IH]; intros [|c2 r2] Hlen;
    cbn [length] in Hlen; try discriminate.
  - cbn. tauto.
  - cbn [compare_units map].
    destruct (f c1 - f c2 =? 0) eqn:E.
    + apply Z.eqb_eq in E. rewrite IH by lia.
      split; intros H.
      * f_equal; [lia | exact H].
      * injection H as _ H. exact H.
    + apply Z.eqb_neq in E. split; intros H; [contradiction|].
      injection H as H _. lia.
Qed.

Lemma compare_units_common (f : Z -> Z) (s1 s2 : list Z) :
  compare_units f s1 s2
  = compare_units f (firstn (Nat.min (length s1) (length s2)) s1)
                    (firstn (Nat.min (length s1) (length s2)) s2).
Proof.
  revert s2. induction s1 as [|c1 r1 IH]; intros [|c2 r2];
    cbn [length Nat.min firstn compare_units]; try reflexivity.
  rewrite <- IH. reflexivity.
Qed.

Lemma compare_units_antisym (f : Z -> Z) (s1 s2 : list Z) :
  compare_units f s2 s1 = - compare_units f s1 s2.
Proof.
  revert s2. induction s1 as [|c1 r1 IH]; intros [|c2 r2];
    cbn [compare_units]; try reflexivity.
  destruct (f c1 - f c2 =? 0) eqn:E.
  - apply Z.eqb_eq in E.
    replace (f c2 - f c1 =? 0) with true by (symmetry; apply Z.eqb_eq; lia).
    apply IH.
  - apply Z.eqb_neq in E.
    replace (f c2 - f c1 =? 0) with false by (symmetry; apply Z.eqb_neq; lia).
    lia.
Qed.

(** The comparison of two whole strings, before the result is stored in
    a LONG. *)
Definition ordering (f : Z -> Z) (s1 s2 : list Z) : Z :=
  let ret := compare_units f s1 s2 in
  if ret =? 0 then len s1 - len s2 else ret.

Lemma compare_is_ordering (upper : case_table) (s1 s2 : list Z)
    (case_insensitive : bool) :
  len s1 < 2 ^ 31 -> len s2 < 2 ^ 31 ->
  RtlCompareUnicodeStrings upper s1 (len s1) s2 (len s2) case_insensitive
  = ordering (fold_case upper case_insensitive) s1 s2.
Proof.
  intros H1 H2. unfold RtlCompareUnicodeStrings, ordering.
  rewrite !firstn_len.
  destruct (compare_units _ s1 s2 =? 0); [|reflexivity].
  pose proof (len_nonneg s1). pose proof (len_nonneg s2).
  apply to_LONG_small. lia.
Qed.

Lemma ordering_cons (f : Z -> Z) (c1 c2 : Z) (r1 r2 : list Z) :
  ordering f (c1 :: r1) (c2 :: r2)
  = if f c1 - f c2 =? 0 then ordering f r1 r2 else f c1 - f c2.
Proof.
  unfold ordering. cbn [compare_units].
  destruct (f c1 - f c2 =? 0) eqn:E.
  - rewrite !len_cons. destruct (compare_units f r1 r2 =? 0); lia.
  - rewrite E. reflexivity.
Qed.

Lemma ordering_trans (f : Z -> Z) (a b c : list Z) :
  ordering f a b <= 0 -> ordering f b c <= 0 -> ordering f a c <= 0.
Proof.
  revert b c. induction a as [|x a IH]; intros b c Hab Hbc.
  - unfold ordering. cbn [compare_units Z.eqb].
    rewrite (@len_nil Z). pose proof (len_nonneg c). lia.
  - destruct b as [|y b].
    + unfold ordering in Hab. cbn [compare_units Z.eqb] in Hab.
      rewrite len_cons, (@len_nil Z) in Hab. pose proof (len_nonneg a). lia.
    + destruct c as [|z c].
      * unfold ordering in Hbc. cbn [compare_units Z.eqb] in Hbc.
        rewrite len_cons, (@len_nil Z) in Hbc. pose proof (len_nonneg b). lia.
      * rewrite ordering_cons in *.
        destruct (f x - f y =? 0) eqn:Exy; destruct (f y - f z =? 0) eqn:Eyz;
          destruct (f x - f z =? 0) eqn:Exz;
          rewrite ?Z.eqb_eq, ?Z.eqb_neq in *; try lia.
        eapply IH; eassumption.
Qed.

Lemma ordering_zero_iff (f : Z -> Z) (s1 s2 : list Z) :
  ordering f s1 s2 = 0 <-> map f s1 = map f s2.
Proof.
  unfold ordering.
  destruct (compare_units f s1 s2 =? 0) eqn:E.
  - apply Z.eqb_eq in E. split; intros H.
    + apply compare_units_zero_iff; [unfold len in H; lia | exact E].
    + apply (f_equal (@length Z)) in H. rewrite !length_map in H.
      unfold len. lia.
  - apply Z.eqb_neq in E. split; intros H; [contradiction|].
    exfalso. apply E. apply compare_units_zero_iff; [|exact H].
    apply (f_equal (@length Z)) in H. rewrite !length_map in H. exact H.
Qed.

(** X8.  RtlCompareUnicodeStrings returns 0 exactly when the two strings
    are equal unit by unit after the case mapping in effect (none for a
    case-sensitive comparison, the upper-case table or the ASCII fallback
    otherwise); the lengths are below 2^31 units, so that their
    difference fits the LONG result. *)
Theorem compare_zero_iff_same_folded (upper : case_table)
    (s1 s2 : list Z) (case_insensitive : bool) :
  len s1 < 2 ^ 31 -> len s2 < 2 ^ 31 ->
  (RtlCompareUnicodeStrings upper s1 (len s1) s2 (len s2) case_insensitive
   = 0
   <-> map (fold_case upper case_insensitive) s1
       = map (fold_case upper case_insensitive) s2).
Proof.
  intros H1 H2. rewrite compare_is_ordering by assumption.
  apply ordering_zero_iff.
Qed.

Lemma compare_zero_iff_same_folded_witness :
  RtlCompareUnicodeStrings None [0x41; 0x62] 2 [0x61; 0x42] 2 true = 0.
Proof.
  apply (compare_zero_iff_same_folded None [0x41; 0x62] [0x61; 0x42] true);
    [vm_compute; reflexivity | vm_compute; reflexivity | reflexivity].
Defined.

(** X9.  Swapping the operands of RtlCompareUnicodeStrings negates the
    result, for strings of fewer than 2^31 units. *)
Theorem compare_antisymmetric (upper : case_table)
    (s1 s2 : list Z) (case_insensitive : bool) :
  len s1 < 2 ^ 31 -> len s2 < 2 ^ 31 ->
  RtlCompareUnicodeStrings upper s2 (len s2) s1 (len s1) case_insensitive
  = - RtlCompareUnicodeStrings upper s1 (len s1) s2 (len s2)
        case_insensitive.
Proof.
  intros H1 H2. rewrite !compare_is_ordering by assumption.
  unfold ordering. rewrite (compare_units_antisym _ s1 s2).
  destruct (compare_units _ s1 s2 =? 0) eqn:E.
  - apply Z.eqb_eq in E. rewrite E. cbn [Z.opp Z.eqb]. lia.
  - apply Z.eqb_neq in E.
    replace (- compare_units _ s1 s2 =? 0) with false
      by (symmetry; apply Z.eqb_neq; lia).
    reflexivity.
Qed.

Lemma compare_antisymmetric_witness :
  RtlCompareUnicodeStrings None [0x62] 1 [0x41; 0x42] 2 true
  = - RtlCompareUnicodeStrings None [0x41; 0x42] 2 [0x62] 1 true.
Proof.
  apply (compare_antisymmetric None [0x41; 0x42] [0x62] true);
    vm_compute; reflexivity.
Defined.

(** X10.  The results of RtlCompareUnicodeStrings order strings
    transitively: if [a] is not after [b] and [b] is not after [c], then
    [a] is not after [c] (strings of fewer than 2^31 units, one case
    mode). *)
Theorem compare_transitive (upper : case_table)
    (a b c : list Z) (case_insensitive : bool) :
  len a < 2 ^ 31 -> len b < 2 ^ 31 -> len c < 2 ^ 31 ->
  RtlCompareUnicodeStrings upper a (len a) b (len b) case_insensitive <= 0 ->
  RtlCompareUnicodeStrings upper b (len b) c (len c) case_insensitive <= 0 ->
  RtlCompareUnicodeStrings upper a (len a) c (len c) case_insensitive <= 0.
Proof.
  intros Ha Hb Hc. rewrite !compare_is_ordering by assumption.
  apply ordering_trans.
Qed.

Lemma compare_transitive_witness :
  RtlCompareUnicodeStrings None [0x41] 1 [0x62; 0x63] 2 true <= 0.
Proof.
  apply (compare_transitive None [0x41] [0x61; 0x42] [0x62; 0x63] true);
    vm_compute; try reflexivity; discriminate.
Defined.

Lemma prefix_units_spec (f : Z -> Z) (s1 s2 : list Z) :
  (length s1 <= length s2)%nat ->
  (prefix_units f s1 s2 = true <-> exists t, map f s2 = map f s1 ++ t).
Proof.
  revert s2. induction s1 as [|c1 r1 IH]; intros s2 Hlen.
  - cbn. split; [intros _; exists (map f s2); reflexivity | reflexivity].
  - destruct s2 as [|c2 r2]; cbn [length] in Hlen; [lia|].
    cbn [prefix_units hd tl map app].
    destruct (f c1 =? f c2) eqn:E; cbn [negb].
    + apply Z.eqb_eq in E. rewrite IH by lia. split; intros [t Ht]; exists t.
      * rewrite E, Ht. reflexivity.
      * injection Ht as _ Ht. exact Ht.
    + apply Z.eqb_neq in E. split; [discriminate|].
      intros [t Ht]. injection Ht as Ht _. congruence.
Qed.

(** X11.  RtlPrefixUnicodeString answers TRUE exactly when the units of
    the second string start with the units of the first, both taken
    through the upper-case table when [ignore_case] is set. *)
Theorem prefix_iff_starts_with (upper : Z -> Z) (s1 s2 : list Z)
    (ignore_case : bool) :
  let f := if ignore_case then casemap upper else fun ch => ch in
  RtlPrefixUnicodeString upper (counted s1) (counted s2) ignore_case = true
  <-> exists t, map f s2 = map f s1 ++ t.
Proof.
  intros f. unfold RtlPrefixUnicodeString.
  rewrite string_units_counted. unfold counted at 1 2 3. cbn [Length Buffer].
  fold f. unfold sizeof_WCHAR.
  destruct (len s1 * 2 >? len s2 * 2) eqn:E.
  - split; [discriminate|]. intros [t Ht].
    apply (f_equal (@length Z)) in Ht.
    rewrite length_app, !length_map in Ht. unfold len in E. lia.
  - apply prefix_units_spec. unfold len in E. lia.
Qed.

Lemma hash_units_app (f : Z -> Z) (a b : list Z) (h : Z) :
  hash_units f (a ++ b) h = hash_units f b (hash_units f a h).
Proof.
  revert h. induction a as [|c a IH]; intros h; cbn [app hash_units].
  - reflexivity.
  - apply IH.
Qed.

Lemma hash_units_range (f : Z -> Z) (s : list Z) (h : Z) :
  0 <= h < 2 ^ 32 -> 0 <= hash_units f s h < 2 ^ 32.
Proof.
  revert h. induction s as [|c s IH]; intros h Hh; cbn [hash_units].
  - exact Hh.
  - apply IH. unfold DWORD. apply Z.mod_pos_bound. lia.
Qed.

Lemma hash_units_seed (f : Z -> Z) (s : list Z) (h : Z) :
  0 <= h < 2 ^ 32 ->
  hash_units f s h
  = DWORD (h * 65599 ^ len s + hash_units f s 0).
Proof.
  revert h. induction s as [|c s IH]; intros h Hh.
  - cbn [hash_units]. rewrite (@len_nil Z), Z.pow_0_r, Z.mul_1_r, Z.add_0_r.
    symmetry. apply DWORD_small. exact Hh.
  - cbn [hash_units]. rewrite len_cons.
    rewrite Z.pow_add_r by (pose proof (len_nonneg s); lia).
    rewrite Z.pow_1_r.
    assert (Hr : forall x, 0 <= DWORD x < 2 ^ 32)
      by (intros x; unfold DWORD; apply Z.mod_pos_bound; lia).
    rewrite (IH (DWORD (h * 65599 + f c))) by apply Hr.
    rewrite (IH (DWORD (0 * 65599 + f c))) by apply Hr.
    set (P := 65599 ^ len s). set (H := hash_units f s 0).
    unfold DWORD. rewrite Z.mul_0_l, Z.add_0_l.
    rewrite Z.add_mod_idemp_r by lia.
    rewrite <- (Z.add_mod_idemp_l ((h * 65599 + f c) mod 2 ^ 32 * P)) by lia.
    rewrite Z.mul_mod_idemp_l by lia. rewrite Z.add_mod_idemp_l by lia.
    replace (h * (P * 65599) + (f c mod 2 ^ 32 * P + H))
      with (f c mod 2 ^ 32 * P + (h * (P * 65599) + H)) by ring.
    rewrite <- (Z.add_mod_idemp_l (f c mod 2 ^ 32 * P)) by lia.
    rewrite Z.mul_mod_idemp_l by lia. rewrite Z.add_mod_idemp_l by lia.
    f_equal. ring.
Qed.

Lemma hash_units_map (f : Z -> Z) (s : list Z) (h : Z) :
  hash_units f s h = hash_units (fun ch => ch) (map f s) h.
Proof.
  revert h. induction s as [|c s IH]; intros h; cbn [map hash_units].
  - reflexivity.
  - apply IH.
Qed.

Definition valid_alg (alg : Z) : Prop :=
  alg = HASH_STRING_ALGORITHM_DEFAULT \/ alg = HASH_STRING_ALGORITHM_X65599.

Lemma hash_counted (upper : case_table) (s : list Z)
    (case_insensitive : bool) (alg : Z) :
  valid_alg alg ->
  RtlHashUnicodeString upper (Some (counted s)) case_insensitive alg true
  = (STATUS_SUCCESS,
     Some (hash_units (fold_case upper case_insensitive) s 0)).
Proof.
  intros Halg. unfold RtlHashUnicodeString. cbn [negb].
  rewrite string_units_counted.
  destruct Halg as [-> | ->]; reflexivity.
Qed.

(** X12.  The hash of a concatenation is determined by the hashes of the
    parts: RtlHashUnicodeString on [a ++ b] stores
    [hash a * 65599 ^ |b| + hash b], reduced to 32 bits. *)
Theorem hash_of_concatenation (upper : case_table) (a b : list Z)
    (case_insensitive : bool) (alg ha hb : Z) :
  len (a ++ b) * sizeof_WCHAR < 2 ^ 16 ->
  RtlHashUnicodeString upper (Some (counted a)) case_insensitive alg true
  = (STATUS_SUCCESS, Some ha) ->
  RtlHashUnicodeString upper (Some (counted b)) case_insensitive alg true
  = (STATUS_SUCCESS, Some hb) ->
  RtlHashUnicodeString upper (Some (counted (a ++ b))) case_insensitive alg
    true
  = (STATUS_SUCCESS, Some (DWORD (ha * 65599 ^ len b + hb))).
Proof.
  intros _ Ha Hb.
  assert (Halg : valid_alg alg).
  { unfold RtlHashUnicodeString in Ha. cbn [negb] in Ha.
    destruct (alg =? HASH_STRING_ALGORITHM_DEFAULT) eqn:E0.
    - left. apply Z.eqb_eq. exact E0.
    - destruct (alg =? HASH_STRING_ALGORITHM_X65599) eqn:E1.
      + right. apply Z.eqb_eq. exact E1.
      + discriminate Ha. }
  rewrite hash_counted in * by exact Halg.
  injection Ha as <-. injection Hb as <-.
  rewrite hash_units_app, hash_units_seed.
  - reflexivity.
  - apply hash_units_range. lia.
Qed.

Lemma hash_of_concatenation_witness :
  RtlHashUnicodeString None (Some (counted ([0x61; 0x62] ++ [0x43]))) true
    HASH_STRING_ALGORITHM_X65599 true
  = (STATUS_SUCCESS, Some (DWORD (4264001 * 65599 ^ len [0x43] + 67))).
Proof.
  apply (hash_of_concatenation None [0x61; 0x62] [0x43] true
           HASH_STRING_ALGORITHM_X65599 4264001 67);
    vm_compute; reflexivity.
Defined.

(** X13.  Strings that RtlCompareUnicodeStrings finds equal hash to the
    same value under RtlHashUnicodeString in the same case mode: the
    case-insensitive hash does not tell apart strings that differ in case
    only. *)
Theorem equal_strings_hash_alike (upper : case_table) (s1 s2 : list Z)
    (case_insensitive : bool) (alg : Z) :
  len s1 * sizeof_WCHAR < 2 ^ 16 -> len s2 * sizeof_WCHAR < 2 ^ 16 ->
  valid_alg alg ->
  RtlCompareUnicodeStrings upper s1 (len s1) s2 (len s2) case_insensitive
  = 0 ->
  RtlHashUnicodeString upper (Some (counted s1)) case_insensitive alg true
  = RtlHashUnicodeString upper (Some (counted s2)) case_insensitive alg
      true.
Proof.
  unfold sizeof_WCHAR. intros H1 H2 Halg Hcmp.
  rewrite compare_is_ordering in Hcmp by lia.
  apply ordering_zero_iff in Hcmp.
  rewrite !hash_counted by exact Halg.
  rewrite (hash_units_map _ s1), (hash_units_map _ s2), Hcmp.
  reflexivity.
Qed.

Lemma equal_strings_hash_alike_witness :
  RtlHashUnicodeString None (Some (counted [0x41; 0x62])) true
    HASH_STRING_ALGORITHM_DEFAULT true
  = RtlHashUnicodeString None (Some (counted [0x61; 0x42])) true
      HASH_STRING_ALGORITHM_DEFAULT true.
Proof.
  apply (equal_strings_hash_alike None [0x41; 0x62] [0x61; 0x42] true
           HASH_STRING_ALGORITHM_DEFAULT);
    [vm_compute; reflexivity | vm_compute; reflexivity
    | left; reflexivity | vm_compute; reflexivity].
Defined.

Lemma compare_units_map (f : Z -> Z) (s1 s2 : list Z) :
  compare_units f s1 s2 = compare_units (fun ch => ch) (map f s1) (map f s2).
Proof.
  revert s2. induction s1 as [|c1 r1 IH]; intros [|c2 r2];
    cbn [map compare_units]; try reflexivity.
  rewrite IH. reflexivity.
Qed.

Lemma convert_case_alloc (table : Z -> Z) (heap_alloc : Z -> bool)
    (dest : UNICODE_STRING) (s : list Z) (u : UNICODE_STRING) :
  convert_case_string table heap_alloc dest (counted s) true
  = (STATUS_SUCCESS, u) ->
  string_units u = map (casemap table) s
  /\ Length u / sizeof_WCHAR = len s.
Proof.
  unfold convert_case_string. rewrite string_units_counted.
  destruct (heap_alloc (Length (counted s))); [|discriminate].
  intros H. injection H as <-. split.
  - unfold string_units. cbn [Length Buffer].
    unfold sizeof_WCHAR. rewrite Z.div_mul by lia.
    rewrite <- (len_map (casemap table) s). apply firstn_len.
  - cbn [Length]. unfold sizeof_WCHAR. apply Z.div_mul. lia.
Qed.

(** X14.  A case-insensitive comparison is the case-sensitive comparison
    of the upper-cased strings: comparing what RtlUpcaseUnicodeString
    allocates for the two strings, unit for unit, gives the result of
    RtlCompareUnicodeStrings with [case_insensitive] on the originals. *)
Theorem compare_insensitive_is_compare_of_upcased (upper : Z -> Z)
    (heap_alloc : Z -> bool) (d1 d2 : UNICODE_STRING) (s1 s2 : list Z)
    (u1 u2 : UNICODE_STRING) (any : case_table) :
  len s1 * sizeof_WCHAR < 2 ^ 16 -> len s2 * sizeof_WCHAR < 2 ^ 16 ->
  RtlUpcaseUnicodeString upper heap_alloc d1 (counted s1) true
  = (STATUS_SUCCESS, u1) ->
  RtlUpcaseUnicodeString upper heap_alloc d2 (counted s2) true
  = (STATUS_SUCCESS, u2) ->
  RtlCompareUnicodeStrings any
    (string_units u1) (Length u1 / sizeof_WCHAR)
    (string_units u2) (Length u2 / sizeof_WCHAR) false
  = RtlCompareUnicodeStrings (Some upper) s1 (len s1) s2 (len s2) true.
Proof.
  unfold sizeof_WCHAR at 1 2. intros H1 H2 Hu1 Hu2.
  apply convert_case_alloc in Hu1. destruct Hu1 as [E1 L1].
  apply convert_case_alloc in Hu2. destruct Hu2 as [E2 L2].
  rewrite E1, E2, L1, L2.
  rewrite <- (len_map (casemap upper) s1) at 1.
  rewrite <- (len_map (casemap upper) s2) at 1.
  rewrite !compare_is_ordering by (rewrite ?len_map; lia).
  unfold ordering. cbn [fold_case].
  rewrite <- compare_units_map, !len_map. reflexivity.
Qed.

Lemma compare_insensitive_is_compare_of_upcased_witness :
  RtlCompareUnicodeStrings None [0x41; 0x5a] 2 [0x41; 0x42; 0x43] 3 false
  = RtlCompareUnicodeStrings (Some sample_upper) [0x61; 0x7a] 2
      [0x41; 0x62; 0x43] 3 true.
Proof.
  apply (compare_insensitive_is_compare_of_upcased sample_upper
           (fun _ => true) (counted []) (counted [])
           [0x61; 0x7a] [0x41; 0x62; 0x43]
           (counted [0x41; 0x5a]) (counted [0x41; 0x42; 0x43]) None);
    vm_compute; reflexivity.
Defined.

End StringsFacts.

(** ** More facts about the locale registry: the two searches *)

Module LocaleExtFacts.
Import Locale LocaleFacts.

Lemma compare_zero_same (a b : list Z) :
  compare_locale_names a b = 0 ->
  forall s, compare_locale_names a s = compare_locale_names b s.
Proof.
  intros H s.
  rewrite <- (compare_c_string_l a s), <- (compare_c_string_l b s).
  apply compare_variant_l.
  apply compare_zero_iff; try apply c_string_nonzero.
  rewrite compare_c_string_l, compare_c_string_r. exact H.
Qed.

Lemma c_string_app_nul (l : list Z) :
  c_string (c_string l ++ [0]) = c_string l.
Proof.
  induction l as [|c r IH]; [reflexivity|].
  cbn [c_string]. destruct (Z.eqb_spec c 0) as [->|Hc]; [reflexivity|].
  cbn [app c_string]. destruct (Z.eqb_spec c 0); [contradiction|].
  rewrite IH. reflexivity.
Qed.

Lemma compare_copied_name (n : list Z) :
  compare_locale_names (c_string n ++ [0]) n = 0.
Proof.
  rewrite <- compare_c_string_l, c_string_app_nul, compare_c_string_l.
  apply compare_refl.
Qed.

Section SearchFacts.
Variable locale_table : NLS_LOCALE_HEADER.
Variable lcids_index : Z -> NLS_LOCALE_LCID_INDEX.
Variable lcnames_index : Z -> NLS_LOCALE_LCNAME_INDEX.
Variable locale_strings : list Z.
Variable locale_mem : Z -> NLS_LOCALE_DATA.
Variable user_default_lcid : Z.
Variable system_default_lcid : Z.
Variable heap_alloc : Z -> bool.

Local Abbreviation name_of :=
  (name_at lcnames_index locale_strings).

(** The id index is in strictly increasing order of id. *)
Definition ids_sorted : Prop :=
  forall i j, 0 <= i -> i < j -> j < nb_lcids locale_table ->
    lcid_id (lcids_index i) < lcid_id (lcids_index j).

Lemma lcid_search_sound (lcid : Z) (e : NLS_LOCALE_LCID_INDEX) :
  forall fuel min max,
    0 <= min ->
    lcid_search lcids_index fuel lcid min max = Some e ->
    exists p, min <= p <= max /\ e = lcids_index p /\ lcid_id e = lcid.
Proof.
  induction fuel as [|fuel IH]; intros min max Hmin H; [discriminate|].
  cbn [lcid_search] in H.
  destruct (Z.leb_spec min max) as [Hle|Hgt]; [|discriminate].
  pose proof (quot2_between min max Hmin Hle) as Hq.
  set (pos := Z.quot (min + max) 2) in *.
  destruct (Z.ltb_spec lcid (lcid_id (lcids_index pos))) as [Hlt|Hge].
  - apply IH in H; [|lia]. destruct H as (p & Hp & He). exists p.
    split; [lia | exact He].
  - destruct (Z.gtb_spec lcid (lcid_id (lcids_index pos))) as [Hgt|Hle'].
    + apply IH in H; [|lia]. destruct H as (p & Hp & He). exists p.
      split; [lia | exact He].
    + injection H as <-. exists pos. repeat split; lia.
Qed.

Lemma lcid_search_finds (p : Z) :
  ids_sorted ->
  forall fuel min max,
    0 <= min -> min <= p -> p <= max -> max < nb_lcids locale_table ->
    (Z.to_nat (max - min) < fuel)%nat ->
    lcid_search lcids_index fuel (lcid_id (lcids_index p)) min max
    = Some (lcids_index p).
Proof.
  intros Hsorted.
  induction fuel as [|fuel IH]; intros min max H0 H1 H2 H3 Hf; [lia|].
  cbn [lcid_search].
  destruct (Z.leb_spec min max) as [Hle|Hgt]; [|lia].
  pose proof (quot2_between min max H0 Hle) as Hq.
  set (pos := Z.quot (min + max) 2) in *.
  destruct (Z.lt_trichotomy pos p) as [Hc|[Hc|Hc]].
  - pose proof (Hsorted pos p).
    destruct (Z.ltb_spec (lcid_id (lcids_index p))
                (lcid_id (lcids_index pos))); [lia|].
    destruct (Z.gtb_spec (lcid_id (lcids_index p))
                (lcid_id (lcids_index pos))); [|lia].
    apply IH; lia.
  - rewrite Hc, Z.ltb_irrefl.
    destruct (Z.gtb_spec (lcid_id (lcids_index p))
                (lcid_id (lcids_index p))); [lia | reflexivity].
  - pose proof (Hsorted p pos).
    destruct (Z.ltb_spec (lcid_id (lcids_index p))
                (lcid_id (lcids_index pos))); [|lia].
    apply IH; lia.
Qed.

Lemma lcname_search_sound (name : list Z) (e : NLS_LOCALE_LCNAME_INDEX) :
  forall fuel min max,
    0 <= min ->
    lcname_search lcnames_index locale_strings fuel name min max = Some e ->
    exists p, min <= p <= max /\ e = lcnames_index p
              /\ compare_locale_names name (name_of p) = 0.
Proof.
  induction fuel as [|fuel IH]; intros min max Hmin H; [discriminate|].
  cbn [lcname_search] in H.
  destruct (Z.leb_spec min max) as [Hle|Hgt]; [|discriminate].
  pose proof (quot2_between min max Hmin Hle) as Hq.
  set (pos := Z.quot (min + max) 2) in *.
  fold (name_of pos) in H.
  destruct (Z.ltb_spec (compare_locale_names name (name_of pos)) 0)
    as [Hlt|Hge].
  - apply IH in H; [|lia]. destruct H as (p & Hp & He). exists p.
    split; [lia | exact He].
  - destruct (Z.gtb_spec (compare_locale_names name (name_of pos)) 0)
      as [Hgt|Hle'].
    + apply IH in H; [|lia]. destruct H as (p & Hp & He). exists p.
      split; [lia | exact He].
    + injection H as <-. exists pos. repeat split; lia.
Qed.

Lemma find_lcname_entry_finds (name : list Z) (p : Z) :
  names_sorted locale_table lcnames_index locale_strings ->
  0 <= p < nb_lcnames locale_table ->
  compare_locale_names name (name_of p) = 0 ->
  find_lcname_entry locale_table lcnames_index locale_strings (Some name)
  = Some (lcnames_index p).
Proof.
  intros Hsorted Hp Hzero. unfold find_lcname_entry.
  apply (lcname_search_finds locale_table lcnames_index locale_strings
           name p); try lia.
  intros pos Hpos. rewrite (compare_zero_same _ _ Hzero).
  repeat split; intros Hc.
  - rewrite compare_antisym. pose proof (Hsorted pos p). lia.
  - apply Hsorted; lia.
  - subst pos. apply compare_refl.
Qed.

(** X15.  On an id index in increasing order, find_lcid_entry returns
    the entry whose id is the one asked for, and NULL exactly when no
    entry of the index has that id. *)
Theorem find_lcid_entry_correct (lcid : Z) :
  ids_sorted ->
  match find_lcid_entry locale_table lcids_index lcid with
  | Some e =>
      lcid_id e = lcid
      /\ exists p, 0 <= p < nb_lcids locale_table /\ e = lcids_index p
  | None =>
      forall p, 0 <= p < nb_lcids locale_table ->
        lcid_id (lcids_index p) <> lcid
  end.
Proof.
  intros Hsorted.
  destruct (find_lcid_entry locale_table lcids_index lcid) as [e|] eqn:E.
  - unfold find_lcid_entry in E. apply lcid_search_sound in E; [|lia].
    destruct E as (p & Hp & He & Hid). split; [exact Hid|].
    exists p. split; [lia | exact He].
  - intros p Hp Hid. unfold find_lcid_entry in E. rewrite <- Hid in E.
    rewrite (lcid_search_finds p Hsorted) in E; [discriminate | lia..].
Qed.

(** X16.  On a name index in comparator order, find_lcname_entry returns
    an entry whose stored name compares equal to the key, and NULL
    exactly when no stored name does; a NULL key finds nothing. *)
Theorem find_lcname_entry_correct (name : list Z) :
  names_sorted locale_table lcnames_index locale_strings ->
  find_lcname_entry locale_table lcnames_index locale_strings None = None
  /\ match find_lcname_entry locale_table lcnames_index locale_strings
             (Some name) with
     | Some e =>
         exists p, 0 <= p < nb_lcnames locale_table
                   /\ e = lcnames_index p
                   /\ compare_locale_names name (name_of p) = 0
     | None =>
         forall p, 0 <= p < nb_lcnames locale_table ->
           compare_locale_names name (name_of p) <> 0
     end.
Proof.
  intros Hsorted. split; [reflexivity|].
  destruct (find_lcname_entry locale_table lcnames_index locale_strings
              (Some name)) as [e|] eqn:E.
  - unfold find_lcname_entry in E. apply lcname_search_sound in E; [|lia].
    destruct E as (p & Hp & He & Hz). exists p.
    split; [lia | split; assumption].
  - intros p Hp Hz.
    rewrite (find_lcname_entry_finds name p Hsorted Hp Hz) in E.
    discriminate.
Qed.

(** The name index has, for the entry [e'] of the id index, an entry
    with the same name, id and locale record. *)
Definition indexed_by_name (e' : NLS_LOCALE_LCID_INDEX) : Prop :=
  exists q, 0 <= q < nb_lcnames locale_table
            /\ lcname_name (lcnames_index q) = lcid_name e'
            /\ lcname_id (lcnames_index q) = lcid_id e'
            /\ lcname_idx (lcnames_index q) = lcid_idx e'.

(** X17.  The name RtlLcidToLocaleName gives for an id converts back to
    that id: when the id index entries are also indexed by name and the
    name index is sorted, RtlLocaleNameToLcid on the returned buffer,
    with the same flags, succeeds with the id that was looked up (the
    default ids resolved). *)
Theorem lcid_name_round_trip (lcid id flags : Z) (s u : UNICODE_STRING)
    (alloc : bool) :
  names_sorted locale_table lcnames_index locale_strings ->
  (forall p, 0 <= p < nb_lcids locale_table ->
     indexed_by_name (lcids_index p)) ->
  resolve_lcid user_default_lcid system_default_lcid lcid = inr id ->
  RtlLcidToLocaleName locale_table lcids_index locale_strings locale_mem
    user_default_lcid system_default_lcid heap_alloc lcid (Some s) flags
    alloc
  = (STATUS_SUCCESS, Some u) ->
  RtlLocaleNameToLcid locale_table lcnames_index locale_strings locale_mem
    (Buffer u) flags
  = (STATUS_SUCCESS, Some id).
Proof.
  intros Hsorted Hcons Hres Hcall.
  unfold RtlLcidToLocaleName in Hcall. rewrite Hres in Hcall.
  destruct (find_lcid_entry locale_table lcids_index id) as [e'|] eqn:E;
    [|discriminate].
  unfold find_lcid_entry in E. apply lcid_search_sound in E; [|lia].
  destruct E as (p & Hp & He & Hid).
  destruct (Hcons p) as (q & Hq & Hname & Hqid & Hidx); [lia|].
  rewrite <- He in *.
  destruct ((Z.land flags 2 =? 0)
            && (inotneutral
                  (get_locale_data locale_table locale_mem (lcid_idx e'))
                =? 0)) eqn:Hflag; [discriminate|].
  assert (Hbuf : Buffer u
                 = Some (c_string
                           (skipn 1 (string_at locale_strings
                                       (lcid_name e'))) ++ [0])).
  { destruct alloc.
    - destruct (heap_alloc _); [|discriminate].
      injection Hcall as <-. reflexivity.
    - destruct (_ <? _); [discriminate|].
      injection Hcall as <-. reflexivity. }
  unfold RtlLocaleNameToLcid. rewrite Hbuf.
  rewrite (find_lcname_entry_finds _ q Hsorted Hq).
  - rewrite Hidx, Hflag, Hqid, Hid. reflexivity.
  - unfold name_at. rewrite Hname. apply compare_copied_name.
Qed.

(** X18.  RtlIsValidLocaleName and RtlLocaleNameToLcid agree: a name is
    valid under some flags exactly when it converts to an id under the
    same flags, and the id is then the one of the entry found. *)
Theorem valid_name_iff_has_lcid (name : option (list Z)) (flags : Z) :
  let to_lcid := RtlLocaleNameToLcid locale_table lcnames_index
                   locale_strings locale_mem name flags in
  (RtlIsValidLocaleName locale_table lcnames_index locale_strings
     locale_mem name flags = true
   <-> fst to_lcid = STATUS_SUCCESS)
  /\ (fst to_lcid = STATUS_SUCCESS ->
      exists e,
        find_lcname_entry locale_table lcnames_index locale_strings name
        = Some e
        /\ snd to_lcid = Some (lcname_id e))
  /\ (fst to_lcid <> STATUS_SUCCESS ->
      to_lcid = (STATUS_INVALID_PARAMETER_1, None)).
Proof.
  cbv zeta. unfold RtlIsValidLocaleName, RtlLocaleNameToLcid.
  destruct (find_lcname_entry _ _ _ name) as [e|].
  - destruct ((Z.land flags 2 =? 0) && _); cbn [fst snd].
    + repeat split; try discriminate.
    + repeat split; try discriminate; try contradiction.
      intros _. exists e. split; reflexivity.
  - cbn [fst snd]. repeat split; try discriminate.
Qed.
End SearchFacts.

Lemma sample_ids_sorted : ids_sorted sample_header sample_lcids.
Proof.
  intros i j Hi Hij Hj. cbn in Hj.
  assert (Ci : i = 0 \/ i = 1 \/ i = 2) by lia.
  assert (Cj : j = 1 \/ j = 2 \/ j = 3) by lia.
  destruct Ci as [->|[->| ->]]; destruct Cj as [->|[->| ->]];
    try lia; vm_compute; reflexivity.
Qed.

Lemma sample_indexed_by_name :
  forall p, 0 <= p < nb_lcids sample_header ->
    indexed_by_name sample_header sample_lcnames (sample_lcids p).
Proof.
  intros p Hp. cbn in Hp.
  assert (C : p = 0 \/ p = 1 \/ p = 2 \/ p = 3) by lia.
  destruct C as [->|[->|[->| ->]]];
    [exists 1 | exists 0 | exists 2 | exists 3];
    cbn; repeat split; lia.
Qed.

Lemma find_lcid_entry_correct_witness :
  match find_lcid_entry sample_header sample_lcids 0x0409 with
  | Some e =>
      lcid_id e = 0x0409
      /\ exists p, 0 <= p < nb_lcids sample_header /\ e = sample_lcids p
  | None =>
      forall p, 0 <= p < nb_lcids sample_header ->
        lcid_id (sample_lcids p) <> 0x0409
  end.
Proof.
  apply (find_lcid_entry_correct sample_header sample_lcids 0x0409).
  apply sample_ids_sorted.
Defined.

Lemma find_lcname_entry_correct_witness :
  find_lcname_entry sample_header sample_lcnames sample_strings None = None
  /\ match find_lcname_entry sample_header sample_lcnames sample_strings
             (Some [102; 82]) with
     | Some e =>
         exists p, 0 <= p < nb_lcnames sample_header
                   /\ e = sample_lcnames p
                   /\ compare_locale_names [102; 82]
                        (name_at sample_lcnames sample_strings p) = 0
     | None =>
         forall p, 0 <= p < nb_lcnames sample_header ->
           compare_locale_names [102; 82]
             (name_at sample_lcnames sample_strings p) <> 0
     end.
Proof.
  apply (find_lcname_entry_correct sample_header sample_lcnames
           sample_strings [102; 82]).
  apply sample_names_sorted.
Defined.

(** The user default id, here 0x0407, gives "de-DE", which converts back
    to 0x0407. *)
Lemma lcid_name_round_trip_witness :
  RtlLocaleNameToLcid sample_header sample_lcnames sample_strings
    sample_locale_mem (Some [100; 101; 45; 68; 69; 0]) 0
  = (STATUS_SUCCESS, Some 0x0407).
Proof.
  apply (lcid_name_round_trip sample_header sample_lcids sample_lcnames
           sample_strings sample_locale_mem 0x0407 0x0409 sample_heap
           LOCALE_USER_DEFAULT 0x0407 0
           {| Length := 0; MaximumLength := 0; Buffer := None |}
           {| Length := 10; MaximumLength := 12;
              Buffer := Some [100; 101; 45; 68; 69; 0] |} true).
  - apply sample_names_sorted.
  - apply sample_indexed_by_name.
  - reflexivity.
  - vm_compute. reflexivity.
Defined.

End LocaleExtFacts.

(** ** More facts about the UTF-8 codec: bounds and overflow *)

Module Utf8ExtFacts.
Import Utf8 Utf8Facts CodePageFacts CodePageExtFacts.

(** *** UTF-16 to UTF-8 *)

Lemma utf16_write_cons_bytes (ch : Z) (rest : list Z) (room : Z)
    (st : NTSTATUS) :
  exists bytes : list Z,
    len bytes = utf16_width ch rest /\
    utf16_write room (ch :: rest) st =
    (if room <? utf16_width ch rest
     then ([], room, ch :: rest, utf16_status ch rest st)
     else
       let r := utf16_write (room - utf16_width ch rest) (utf16_next ch rest)
                  (utf16_status ch rest st) in
       (bytes ++ fst (fst (fst r)), snd (fst (fst r)), snd (fst r), snd r))
    /\ Forall (fun b => 0 <= b < 256) bytes.
Proof.
  cbn [utf16_write]. unfold utf16_next, utf16_width, utf16_status.
  fold (utf16_val ch rest).
  destruct (Z.ltb_spec ch 0x80).
  { destruct (Z.ltb_spec ch 0x800); [|lia].
    eexists [_]. split; [reflexivity|].
    split; [destruct (room <? 1); reflexivity|].
    repeat constructor; apply to_char_range. }
  destruct (Z.ltb_spec ch 0x800).
  { eexists [_; _]. split; [reflexivity|].
    split; [destruct (room <? 2); reflexivity|].
    repeat constructor; apply to_char_range. }
  destruct (utf16_val ch rest <? 0x10000).
  { eexists [_; _; _]. split; [reflexivity|].
    split; [destruct (room <? 3); reflexivity|].
    repeat constructor; apply to_char_range. }
  eexists [_; _; _; _]. split; [reflexivity|].
  split.
  - destruct (room <? 4); [reflexivity|].
    destruct rest; cbn [Z.eqb Pos.eqb tl utf16_write fst snd app];
      reflexivity.
  - repeat constructor; apply to_char_range.
Qed.

Lemma utf16_scan_status_aux (n : nat) :
  forall src st, (length src <= n)%nat ->
    snd (utf16_scan src st) = st
    \/ snd (utf16_scan src st) = STATUS_SOME_NOT_MAPPED.
Proof.
  induction n as [|n IH]; intros [|ch rest] st Hn; cbn [length] in Hn;
    try lia; try (left; reflexivity).
  rewrite utf16_scan_cons. cbn [snd].
  pose proof (utf16_next_length ch rest).
  destruct (IH (utf16_next ch rest) (utf16_status ch rest st)) as [E|E];
    [lia| |right; exact E].
  rewrite E. unfold utf16_status.
  destruct (ch <? 0x800); [left; reflexivity|].
  destruct (get_utf16 (ch :: rest)); [left|right]; reflexivity.
Qed.

(** What the writing loop does for any room: it stores whole characters
    only, never more than the room, and stops early only in front of a
    character that does not fit. *)
Lemma utf16_write_general_aux (n : nat) :
  forall src room st, (length src <= n)%nat -> 0 <= room ->
    let r := utf16_write room src st in
    len (fst (fst (fst r))) + snd (fst (fst r)) = room
    /\ 0 <= snd (fst (fst r))
    /\ Forall (fun b => 0 <= b < 256) (fst (fst (fst r)))
    /\ (room < fst (utf16_scan src st) ->
        snd (fst r) <> [] /\ snd (fst (fst r)) < 4).
Proof.
  induction n as [|n IH]; intros [|ch rest] room st Hn Hroom;
    cbn [length] in Hn; try lia.
  - cbn. repeat split; try lia. constructor.
  - cbn. repeat split; try lia. constructor.
  - cbv zeta.
    destruct (utf16_write_cons_bytes ch rest room st)
      as (bytes & Hlen & Heq & Hbytes).
    rewrite Heq, utf16_scan_cons. cbn [fst].
    pose proof (utf16_width_range ch rest) as Hw.
    pose proof (utf16_next_length ch rest) as Hnext.
    pose proof (utf16_scan_bounds (utf16_next ch rest)
                  (utf16_status ch rest st)) as Hb.
    destruct (Z.ltb_spec room (utf16_width ch rest)) as [Hlt|Hge].
    + cbn [fst snd]. rewrite (@len_nil Z).
      split; [lia|]. split; [lia|]. split; [constructor|].
      intros _. split; [discriminate | lia].
    + cbv zeta. cbn [fst snd].
      destruct (IH (utf16_next ch rest) (room - utf16_width ch rest)
                  (utf16_status ch rest st)) as (A & B & C & D);
        [lia | lia |].
      rewrite len_app, Hlen.
      split; [lia|]. split; [lia|].
      split; [apply Forall_app; split; assumption|].
      intros Hshort. apply D. lia.
Qed.

(** X19.  RtlUnicodeToUTF8N reports STATUS_BUFFER_TOO_SMALL exactly when
    the destination is shorter than the length its size-only pass gives;
    in every case it stores bytes (values below 256) within the
    destination, reports exactly the number stored, and when it stops
    early it leaves fewer than four bytes unused. *)
Theorem utf16_to_utf8_overflow_exactly_when_short (src : list Z)
    (dstlen : Z) :
  len src < 2 ^ 30 -> 0 <= dstlen < 2 ^ 32 ->
  let sz := RtlUnicodeToUTF8N false 0 true (Some src)
              (len src * sizeof_WCHAR) in
  let wr := RtlUnicodeToUTF8N true dstlen true (Some src)
              (len src * sizeof_WCHAR) in
  exists need,
    u_reslen sz = Some need
    /\ (u_status wr = STATUS_BUFFER_TOO_SMALL <-> dstlen < need)
    /\ u_reslen wr = Some (len (u_written wr))
    /\ len (u_written wr) <= dstlen
    /\ Forall (fun b => 0 <= b < 256) (u_written wr)
    /\ (dstlen < need -> dstlen - 3 <= len (u_written wr)).
Proof.
  intros Hsrc Hdst. cbv zeta. unfold RtlUnicodeToUTF8N.
  cbn [negb andb].
  replace (Z.land (len src * sizeof_WCHAR) 1 =? 0) with true.
  2:{ symmetry. apply Z.eqb_eq. unfold sizeof_WCHAR.
      change 1 with (Z.ones 1). rewrite Z.land_ones by lia.
      change (2 ^ 1) with 2. apply Z.mod_mul. lia. }
  cbn [negb]. rewrite srclen_units, firstn_len. cbn [u_reslen u_status u_written].
  pose proof (utf16_scan_bounds src STATUS_SUCCESS) as Hb.
  rewrite utf16_size_scan by lia.
  exists (fst (utf16_scan src STATUS_SUCCESS)).
  destruct (utf16_write_general_aux (length src) src dstlen STATUS_SUCCESS)
    as (A & B & C & D); [lia | lia |].
  pose proof (len_nonneg (fst (fst (fst (utf16_write dstlen src
                                            STATUS_SUCCESS))))) as Hout.
  split; [reflexivity|]. split; [|split; [|split; [|split]]].
  - destruct (Z.lt_ge_cases dstlen (fst (utf16_scan src STATUS_SUCCESS)))
      as [Hshort|Hfits].
    + destruct (D Hshort) as [Hrest _].
      destruct (snd (fst (utf16_write dstlen src STATUS_SUCCESS)));
        [contradiction|]. tauto.
    + destruct (utf16_write_fits src dstlen STATUS_SUCCESS Hfits)
        as (_ & _ & Hrest & Hst).
      rewrite Hrest, Hst. split; [|lia].
      destruct (utf16_scan_status_aux (length src) src STATUS_SUCCESS)
        as [E|E]; [lia | rewrite E; discriminate..].
  - f_equal. rewrite DWORD_small by lia. lia.
  - lia.
  - exact C.
  - intros Hshort. destruct (D Hshort). lia.
Qed.

Lemma utf16_to_utf8_overflow_exactly_when_short_witness :
  let src := [0x41; 0xe9; 0x20ac; 0xd83d; 0xde00] in
  let sz := RtlUnicodeToUTF8N false 0 true (Some src)
              (len src * sizeof_WCHAR) in
  let wr := RtlUnicodeToUTF8N true 8 true (Some src)
              (len src * sizeof_WCHAR) in
  exists need,
    u_reslen sz = Some need
    /\ (u_status wr = STATUS_BUFFER_TOO_SMALL <-> 8 < need)
    /\ u_reslen wr = Some (len (u_written wr))
    /\ len (u_written wr) <= 8
    /\ Forall (fun b => 0 <= b < 256) (u_written wr)
    /\ (8 < need -> 8 - 3 <= len (u_written wr)).
Proof.
  apply (utf16_to_utf8_overflow_exactly_when_short
           [0x41; 0xe9; 0x20ac; 0xd83d; 0xde00] 8);
    [vm_compute; reflexivity | lia].
Defined.

Lemma utf16_write_ascii (src : list Z) :
  forall room st,
    Forall (fun c => 0 <= c < 0x80) src -> len src <= room ->
    utf16_write room src st = (src, room - len src, [], st).
Proof.
  induction src as [|c src IH]; intros room st Hascii Hroom.
  - cbn [utf16_write]. rewrite (@len_nil Z), Z.sub_0_r. reflexivity.
  - inversion Hascii; subst. rewrite len_cons in *.
    pose proof (len_nonneg src).
    cbn [utf16_write].
    destruct (Z.ltb_spec c 0x80); [|lia].
    destruct (Z.ltb_spec room 1); [lia|].
    rewrite IH by (assumption || lia). cbn [fst snd].
    rewrite to_char_small by lia.
    replace (room - 1 - len src) with (room - (len src + 1)) by lia.
    reflexivity.
Qed.

(** *** UTF-8 to UTF-16 *)

Section Utf8ToUnicodeMore.
Variable decode : Z -> list Z -> Z * nat.

(** What the writing loop does for any room: it appends to what is
    stored, never more than the room, leaves the loop with input left
    only when the room is used up, and sets no status but
    STATUS_SOME_NOT_MAPPED. *)
Lemma utf8_write_general_aux (n : nat) :
  forall src out room st, (length src <= n)%nat -> 0 <= room ->
    let r := utf8_write decode out room src st in
    (exists more, fst (fst (fst r)) = out ++ more
                  /\ len more + snd (fst (fst r)) = room)
    /\ 0 <= snd (fst (fst r))
    /\ (snd (fst r) <> [] -> snd (fst (fst r)) = 0)
    /\ (snd r = st \/ snd r = STATUS_SOME_NOT_MAPPED).
Proof.
  induction n as [|n IH]; intros [|ch rest] out room st Hn Hroom;
    cbn [length] in Hn; simp utf8_write; try lia.
  - cbn. repeat split; try lia; [|congruence|left; reflexivity].
    exists []. rewrite app_nil_r, (@len_nil Z). split; [reflexivity|lia].
  - cbn. repeat split; try lia; [|congruence|left; reflexivity].
    exists []. rewrite app_nil_r, (@len_nil Z). split; [reflexivity|lia].
  - cbv zeta.
    assert (Hk' : (length (skipn (snd (decode ch rest)) rest) <= n)%nat)
      by (rewrite length_skipn; lia).
    destruct (Z.leb_spec room 0) as [Hfull|Hfree].
    { cbn [fst snd]. repeat split; try lia; [|left; reflexivity].
      exists []. rewrite app_nil_r, (@len_nil Z). split; [reflexivity|lia]. }
    assert (Hstep : forall units src' st',
              (length src' <= n)%nat -> 0 <= room - len units ->
              (st' = st \/ st' = STATUS_SOME_NOT_MAPPED) ->
              let r := utf8_write decode (out ++ units) (room - len units)
                         src' st' in
              (exists more, fst (fst (fst r)) = out ++ more
                            /\ len more + snd (fst (fst r)) = room)
              /\ 0 <= snd (fst (fst r))
              /\ (snd (fst r) <> [] -> snd (fst (fst r)) = 0)
              /\ (snd r = st \/ snd r = STATUS_SOME_NOT_MAPPED)).
    { intros units src' st' Hs Hr Hst. cbv zeta.
      destruct (IH src' (out ++ units) (room - len units) st' Hs Hr)
        as ((more & Hm & Hl) & B & C & D).
      split; [|split; [exact B | split; [exact C|]]].
      - exists (units ++ more). rewrite app_assoc, len_app.
        split; [exact Hm | lia].
      - destruct D as [D|D]; [rewrite D; exact Hst | right; exact D]. }
    destruct (ch <? 0x80).
    + apply (Hstep [ch] rest st); [lia | cbn; lia | left; reflexivity].
    + set (res := DWORD (fst (decode ch rest))) in *.
      set (src' := skipn (snd (decode ch rest)) rest) in *.
      destruct (res <=? 0xffff).
      * apply (Hstep [res] src' st);
          [assumption | cbn; lia | left; reflexivity].
      * destruct (res <=? 0x10ffff).
        -- destruct (Z.eqb_spec (room - 1) 0) as [Hone|Hmore].
           ++ cbn [fst snd].
              split; [|split; [lia | split; [intros _; lia|]]].
              ** exists [high_surrogate res]. split; [reflexivity|].
                 rewrite len_cons, (@len_nil Z). lia.
              ** left; reflexivity.
           ++ replace (room - 1 - 1)
                with (room - len [high_surrogate res; low_surrogate res])
                by (cbn; lia).
              apply (Hstep [high_surrogate res; low_surrogate res] src' st);
                [assumption | cbn; lia | left; reflexivity].
        -- apply (Hstep [0xfffd] src' STATUS_SOME_NOT_MAPPED);
             [assumption | cbn; lia | right; reflexivity].
Qed.

(** X20.  For any decoder, RtlUTF8ToUnicodeN stores whole code units
    within the destination and reports twice their number; and when it
    reports STATUS_BUFFER_TOO_SMALL the destination is full. *)
Theorem utf8_to_utf16_stays_in_bounds (src : list Z) (dstlen : Z) :
  0 <= dstlen < 2 ^ 32 ->
  let wr := RtlUTF8ToUnicodeN decode true dstlen true (Some src)
              (len src) in
  u_reslen wr = Some (len (u_written wr) * sizeof_WCHAR)
  /\ len (u_written wr) * sizeof_WCHAR <= dstlen
  /\ (u_status wr = STATUS_BUFFER_TOO_SMALL ->
      len (u_written wr) = dstlen / sizeof_WCHAR).
Proof.
  intros Hdst. cbv zeta. unfold RtlUTF8ToUnicodeN. cbn [negb].
  rewrite firstn_len. cbn [u_reslen u_status u_written].
  assert (Hunits : 0 <= dstlen / sizeof_WCHAR
                   /\ dstlen / sizeof_WCHAR * sizeof_WCHAR <= dstlen).
  { unfold sizeof_WCHAR. split.
    - apply Z.div_pos; lia.
    - pose proof (Z.mul_div_le dstlen 2). lia. }
  destruct (utf8_write_general_aux (length src) src []
              (dstlen / sizeof_WCHAR) STATUS_SUCCESS)
    as ((more & Hm & Hl) & B & C & D); [lia | lia |].
  cbn [app] in Hm. rewrite Hm.
  pose proof (len_nonneg more) as Hmore.
  unfold sizeof_WCHAR in *.
  split; [|split].
  - f_equal. rewrite DWORD_small by lia. f_equal. lia.
  - lia.
  - destruct (snd (fst (utf8_write decode [] (dstlen / 2) src
                          STATUS_SUCCESS))) eqn:Hrest.
    + intros Hst. destruct D as [D|D]; rewrite D in Hst; discriminate.
    + intros _. assert (H0 : snd (fst (fst (utf8_write decode []
                                  (dstlen / 2) src STATUS_SUCCESS))) = 0)
        by (apply C; discriminate).
      lia.
Qed.

(** X21.  Seven-bit text passes through both converters unchanged,
    whatever decoder is in use: with room for it, RtlUTF8ToUnicodeN
    stores the bytes as code units and RtlUnicodeToUTF8N stores the code
    units as bytes, both with STATUS_SUCCESS. *)
Theorem ascii_passes_unchanged (src : list Z) (dstlen : Z) :
  Forall (fun c => 0 <= c < 0x80) src ->
  len src * sizeof_WCHAR <= dstlen < 2 ^ 32 ->
  RtlUTF8ToUnicodeN decode true dstlen true (Some src) (len src)
  = mk_codec STATUS_SUCCESS (Some (len src * sizeof_WCHAR)) src
  /\ RtlUnicodeToUTF8N true dstlen true (Some src) (len src * sizeof_WCHAR)
     = mk_codec STATUS_SUCCESS (Some (len src)) src.
Proof.
  unfold sizeof_WCHAR at 1. intros Hascii Hdst.
  pose proof (len_nonneg src) as Hlen.
  assert (Hunits : len src <= dstlen / sizeof_WCHAR).
  { unfold sizeof_WCHAR. apply Z.div_le_lower_bound; lia. }
  split.
  - unfold RtlUTF8ToUnicodeN. cbn [negb]. rewrite firstn_len.
    assert (Hlt : Forall (fun c => c < 0x80) src)
      by (eapply Forall_impl; [|exact Hascii]; cbv beta; intros; lia).
    assert (Hw : utf8_write decode [] (dstlen / sizeof_WCHAR) src
                   STATUS_SUCCESS
                 = (src, dstlen / sizeof_WCHAR - len src, [],
                    STATUS_SUCCESS)).
    { pose proof (utf8_write_ascii_prefix decode src [] []
                    (dstlen / sizeof_WCHAR) STATUS_SUCCESS) as E.
      rewrite app_nil_r in E. rewrite E; [|exact Hlt|exact Hunits].
      simp utf8_write. reflexivity. }
    rewrite Hw. cbn [fst snd]. f_equal. f_equal.
    rewrite DWORD_small by (unfold sizeof_WCHAR; lia).
    f_equal. lia.
  - unfold RtlUnicodeToUTF8N. cbn [negb andb].
    replace (Z.land (len src * sizeof_WCHAR) 1 =? 0) with true.
    2:{ symmetry. apply Z.eqb_eq. unfold sizeof_WCHAR.
        change 1 with (Z.ones 1). rewrite Z.land_ones by lia.
        change (2 ^ 1) with 2. apply Z.mod_mul. lia. }
    cbn [negb]. rewrite srclen_units, firstn_len.
    rewrite utf16_write_ascii by (assumption || lia).
    cbn [fst snd]. f_equal. f_equal. rewrite DWORD_small by lia. lia.
Qed.
End Utf8ToUnicodeMore.

Lemma utf8_to_utf16_stays_in_bounds_witness :
  let wr := RtlUTF8ToUnicodeN decode_utf8_char true 5 true
              (Some [0x41; 0xc3; 0xa9; 0xe2; 0x82; 0xac]) 6 in
  u_reslen wr = Some (len (u_written wr) * sizeof_WCHAR)
  /\ len (u_written wr) * sizeof_WCHAR <= 5
  /\ (u_status wr = STATUS_BUFFER_TOO_SMALL ->
      len (u_written wr) = 5 / sizeof_WCHAR).
Proof.
  apply (utf8_to_utf16_stays_in_bounds decode_utf8_char
           [0x41; 0xc3; 0xa9; 0xe2; 0x82; 0xac] 5).
  lia.
Defined.

Lemma ascii_passes_unchanged_witness :
  RtlUTF8ToUnicodeN decode_utf8_char true 8 true (Some [0x77; 0x69; 0x6e])
    (len [0x77; 0x69; 0x6e])
  = mk_codec STATUS_SUCCESS (Some (len [0x77; 0x69; 0x6e] * sizeof_WCHAR))
      [0x77; 0x69; 0x6e]
  /\ RtlUnicodeToUTF8N true 8 true (Some [0x77; 0x69; 0x6e])
       (len [0x77; 0x69; 0x6e] * sizeof_WCHAR)
     = mk_codec STATUS_SUCCESS (Some (len [0x77; 0x69; 0x6e]))
         [0x77; 0x69; 0x6e].
Proof.
  apply (ascii_passes_unchanged decode_utf8_char [0x77; 0x69; 0x6e] 8).
  - repeat constructor; lia.
  - vm_compute. split; [discriminate | reflexivity].
Defined.

End Utf8ExtFacts.

(** ** Upper-casing conversion to the OEM page *)

Module OemUpcase.
Import CodePage CodePageExt.

(** RtlUpcaseUnicodeToOemN; [upper] is [nls_info.UpperCaseTable], read
    only once the OEM table is set up. *)
Definition RtlUpcaseUnicodeToOemN (upper : Z -> Z) (oem : nls_table)
    (dstlen : Z) (src : list Z) (srclen : Z) : conv_result :=
  match oem with
  | Some info => RtlUpcaseUnicodeToCustomCPN upper info dstlen src srclen
  | None =>
      (* locale not setup yet *)
      let dstlen := Z.min (srclen / sizeof_WCHAR) dstlen in
      mk_conv STATUS_SUCCESS dstlen
              (map (fun ch => to_char (if ch >? 0x7f then 63
                                       else casemap_ascii ch))
                   (firstn (Z.to_nat dstlen) src))
  end.

End OemUpcase.

Module OemUpcaseFacts.
Import CodePage CodePageExt OemUpcase CodePageFacts CodePageExtFacts.

Lemma casemap_ascii_cases (ch : Z) :
  (97 <= ch <= 122 /\ casemap_ascii ch = ch - 32)
  \/ (~ 97 <= ch <= 122 /\ casemap_ascii ch = ch).
Proof.
  unfold casemap_ascii, Locale.casemap_ascii.
  destruct (Z.leb_spec 97 ch); destruct (Z.leb_spec ch 122);
    cbn [andb]; lia.
Qed.

(** X22.  While no case table is set up, the ASCII fallbacks of towupper
    and RtlDowncaseUnicodeChar touch the ASCII letters only and undo each
    other there: every other code unit is returned as it is, a letter
    comes back in the case asked for, and upper-casing after lower-casing
    (or the reverse) is the same as the last conversion alone. *)
Theorem cold_case_maps_are_ascii_only (ch : Z) :
  let up := towupper None in
  let down := RtlDowncaseUnicodeChar None in
  (~ 97 <= ch <= 122 -> up ch = ch)
  /\ (~ 65 <= ch <= 90 -> down ch = ch)
  /\ (97 <= ch <= 122 -> 65 <= up ch <= 90 /\ down (up ch) = ch)
  /\ (65 <= ch <= 90 -> 97 <= down ch <= 122 /\ up (down ch) = ch)
  /\ up (down ch) = up ch
  /\ down (up ch) = down ch.
Proof.
  cbv zeta. unfold towupper, RtlDowncaseUnicodeChar, casemap_ascii,
    Locale.casemap_ascii, USHORT.
  assert (Hmod : forall x, 0 <= x < 2 ^ 16 -> x mod 2 ^ 16 = x)
    by (intros x Hx; apply Z.mod_small; exact Hx).
  destruct (Z.leb_spec 97 ch); destruct (Z.leb_spec ch 122);
    destruct (Z.leb_spec 65 ch); destruct (Z.leb_spec ch 90);
    cbn [andb]; try lia;
    repeat match goal with
           | |- context [(?x + (97 - 65)) mod 2 ^ 16] =>
               rewrite (Hmod (x + (97 - 65))) by lia
           | |- context [(?a <=? ?b)] => destruct (Z.leb_spec a b)
           | _ => progress cbn [andb]
           end;
    repeat split; intros; try lia.
Qed.

(** X23.  RtlUpcaseUnicodeToOemN converts the upper-cased source: with
    the OEM table set up it gives what RtlUnicodeToMultiByteN gives on
    that table for the source mapped through the upper-case table, and
    before that what the fallback of RtlUnicodeToMultiByteN gives for the
    source mapped through the ASCII fallback of towupper. *)
Theorem oem_upcase_is_conversion_of_upcased (upper : Z -> Z)
    (dstlen : Z) (src : list Z) (srclen : Z) :
  (forall info : CPTABLEINFO,
     RtlUpcaseUnicodeToOemN upper (Some info) dstlen src srclen
     = RtlUnicodeToMultiByteN (Some info) dstlen
         (map (towupper (Some upper)) src) srclen)
  /\ RtlUpcaseUnicodeToOemN upper None dstlen src srclen
     = RtlUnicodeToMultiByteN None dstlen (map (towupper None) src) srclen.
Proof.
  split.
  - intros info.
    unfold RtlUpcaseUnicodeToOemN, RtlUnicodeToMultiByteN, towupper,
      RtlUpcaseUnicodeToCustomCPN, RtlUnicodeToCustomCPN.
    rewrite !firstn_map.
    destruct (DBCSCodePage info =? 0).
    + rewrite map_map. reflexivity.
    + rewrite upcase_unicode_to_cp_dbcs_map. reflexivity.
  - unfold RtlUpcaseUnicodeToOemN, RtlUnicodeToMultiByteN, towupper.
    rewrite firstn_map, map_map. f_equal.
    apply map_ext. intros ch.
    destruct (casemap_ascii_cases ch) as [[Hr E]|[Hr E]]; rewrite E.
    + destruct (Z.gtb_spec ch 0x7f); [lia|].
      destruct (Z.gtb_spec (ch - 32) 0x7f); [lia | reflexivity].
    + reflexivity.
Qed.

End OemUpcaseFacts.

(** ** More facts about the normalization-table loader: stability *)

Module NormTableExtFacts.
Import NormTable NormTableFacts.

(** Any number of steps of the threads running the loader. *)
Inductive sys_steps : config -> config -> Prop :=
| steps_none : forall c, sys_steps c c
| steps_more : forall c c' c'',
    sys_steps c c' -> sys_step c' c'' -> sys_steps c c''.

Lemma publish_keeps_slot (form0 : Z) (data : nls_section) (sh : shared)
    (form : Z) (t : nls_section) :
  norm_tables sh form = Some t ->
  norm_tables (snd (load_norm_table_publish form0 data sh)) form = Some t.
Proof.
  intros Hslot.
  unfold load_norm_table_publish, InterlockedCompareExchangePointer.
  destruct (norm_tables sh form0) eqn:Hslot0; cbn [snd norm_tables
    NtUnmapViewOfSection].
  - exact Hslot.
  - destruct (Z.eqb_spec form form0) as [->|Hne]; [congruence | exact Hslot].
Qed.

Lemma step_keeps_slot (c c' : config) (form : Z) (t : nls_section) :
  sys_step c c' ->
  norm_tables (fst c) form = Some t ->
  norm_tables (fst c') form = Some t.
Proof.
  intros Hstep. destruct Hstep as
    [provider form0 sh pending st info sh' Hcheck
    |provider form0 sh pending data sh' Hcheck
    |form0 data sh before after]; cbn [fst].
  - apply check_preserves in Hcheck. destruct Hcheck as [E _].
    rewrite E. trivial.
  - apply check_preserves in Hcheck. destruct Hcheck as [E _].
    rewrite E. trivial.
  - apply publish_keeps_slot.
Qed.

Lemma steps_keep_slot (c c' : config) (form : Z) (t : nls_section) :
  sys_steps c c' ->
  norm_tables (fst c) form = Some t ->
  norm_tables (fst c') form = Some t.
Proof.
  induction 1 as [c|c c' c'' _ IH Hstep]; intros Hslot.
  - exact Hslot.
  - eapply step_keeps_slot; [exact Hstep | apply IH; exact Hslot].
Qed.

(** X24.  A cached table is final: once the slot of a form holds a
    table, it holds the same table after any number of steps of any
    number of threads running the loader, and every later call of
    load_norm_table for that form returns this table with STATUS_SUCCESS,
    whatever the table provider would answer, and leaves the shared state
    as it is. *)
Theorem cached_table_is_final (c c' : config) (form : Z)
    (t : nls_section) :
  sys_steps c c' ->
  0 < form < ARRAY_SIZE_norm_tables ->
  norm_tables (fst c) form = Some t ->
  norm_tables (fst c') form = Some t
  /\ forall provider : Z -> NTSTATUS * nls_section,
       load_norm_table provider form (fst c')
       = (STATUS_SUCCESS, Some t, fst c').
Proof.
  intros Hsteps Hform Hslot.
  pose proof (steps_keep_slot c c' form t Hsteps Hslot) as Hslot'.
  split; [exact Hslot'|].
  intros provider. unfold load_norm_table, load_norm_table_check.
  destruct (Z.eqb_spec form 0); [lia|].
  destruct (Z.geb_spec form ARRAY_SIZE_norm_tables); [lia|].
  rewrite Hslot'. reflexivity.
Qed.

(** From the state with form 13 loaded, a call for form 12 is handed a
    table tagged for form 1 and turns it away; form 13 is served from the
    cache afterwards. *)
Lemma cached_table_is_final_witness :
  let after :=
    snd (load_norm_table_check (sample_provider 1) 12 (fst sample_loaded)) in
  norm_tables after 13 = Some (sample_table 13)
  /\ forall provider : Z -> NTSTATUS * nls_section,
       load_norm_table provider 13 after
       = (STATUS_SUCCESS, Some (sample_table 13), after).
Proof.
  apply (cached_table_is_final sample_loaded
           (snd (load_norm_table_check (sample_provider 1) 12
                   (fst sample_loaded)), [])
           13 (sample_table 13)).
  - eapply steps_more; [apply steps_none|].
    apply (step_check_done (sample_provider 1) 12 (fst sample_loaded) []
             STATUS_INVALID_PARAMETER None).
    reflexivity.
  - unfold ARRAY_SIZE_norm_tables. lia.
  - reflexivity.
Defined.

End NormTableExtFacts.

(** ** More facts about IDN Nameprep: the flags *)

Module IdnExtFacts.
Import Utf8 NormTable Idn IdnFacts CodePageFacts.

Section FlagFacts.
Variable NtGetNlsSectionPtr : Z -> NTSTATUS * nls_section.
Variable get_char_props : option nls_section -> Z -> Z.
Variable RtlNormalizeString : Z -> list Z -> Z -> Z -> NTSTATUS * list Z.

Local Abbreviation nameprep :=
  (RtlIdnToNameprepUnicode NtGetNlsSectionPtr get_char_props
     RtlNormalizeString).
Local Abbreviation scan := (nameprep_scan get_char_props).
Local Abbreviation step := (label_step get_char_props).

(** Every status a turn of the validation loop returns with is
    STATUS_INVALID_IDN_NORMALIZATION. *)
Lemma label_step_status (flags : Z) (info : option nls_section)
    (buf : list Z) (i start ch : Z) (st : NTSTATUS) :
  step flags info buf i start ch = Ret st ->
  st = STATUS_INVALID_IDN_NORMALIZATION.
Proof.
  unfold label_step.
  repeat match goal with
         | |- context [if ?b then _ else _] => destruct b
         end; intros H; inversion H; reflexivity.
Qed.

(** A turn that goes on under some flags goes on in the same way under
    IDN_ALLOW_UNASSIGNED alone. *)
Lemma label_step_loosen (flags : Z) (info : option nls_section)
    (buf : list Z) (i start ch s : Z) :
  step flags info buf i start ch = Next s ->
  step IDN_ALLOW_UNASSIGNED info buf i start ch = Next s.
Proof.
  unfold label_step.
  change (std3 IDN_ALLOW_UNASSIGNED) with false.
  change (allow_unassigned IDN_ALLOW_UNASSIGNED) with true.
  cbn [andb negb].
  destruct (ch =? 46).
  - destruct (start =? i); [discriminate|].
    destruct (i - start >? 63); [discriminate|].
    destruct (std3 flags && _); [discriminate | trivial].
  - destruct (std3 flags).
    + destruct (std3_char ch); [trivial | discriminate].
    + destruct (negb (allow_unassigned flags) && _);
        [discriminate | trivial].
Qed.

Lemma scan_loosen_aux (flags : Z) (info : option nls_section)
    (buf : list Z) (n : nat) :
  forall rem i start,
    (length rem <= n)%nat ->
    match scan flags info buf rem i start with
    | inl st => st = STATUS_INVALID_IDN_NORMALIZATION
    | inr x => scan IDN_ALLOW_UNASSIGNED info buf rem i start = inr x
    end.
Proof.
  induction n as [|n IH]; intros [|c rest] i start Hn;
    cbn [length] in Hn; try lia; try reflexivity.
  cbn [nameprep_scan].
  destruct (get_utf16 (c :: rest)) as [[k ch]|]; [|reflexivity].
  destruct (ch =? 0); [reflexivity|].
  destruct (step flags info buf i start ch) as [st|s] eqn:Hstep.
  - apply label_step_status in Hstep. exact Hstep.
  - rewrite (label_step_loosen _ _ _ _ _ _ _ Hstep).
    destruct (k =? 1).
    + apply IH. lia.
    + destruct rest as [|c' rest']; [reflexivity|].
      apply IH. cbn [length] in Hn. lia.
Qed.

(** X25.  IDN_ALLOW_UNASSIGNED alone is the most permissive setting of
    RtlIdnToNameprepUnicode: whenever a call with accepted flags ends in
    a status other than STATUS_INVALID_IDN_NORMALIZATION, the same call
    with IDN_ALLOW_UNASSIGNED as its only flag gives the same status,
    length, output and shared state, whatever the stack holds in either
    call. *)
Theorem allow_unassigned_is_most_permissive (flags : Z)
    (src : option (list Z)) (srclen dstlen : Z) (sh : shared)
    (stale stale' : Z -> Z) :
  0 <= flags <= 3 ->
  i_status (fst (nameprep stale flags src srclen dstlen sh))
    <> STATUS_INVALID_IDN_NORMALIZATION ->
  nameprep stale' IDN_ALLOW_UNASSIGNED src srclen dstlen sh
  = nameprep stale flags src srclen dstlen sh.
Proof.
  intros Hflags. unfold RtlIdnToNameprepUnicode.
  rewrite (flags_accepted flags Hflags).
  rewrite (flags_accepted IDN_ALLOW_UNASSIGNED)
    by (unfold IDN_ALLOW_UNASSIGNED; lia).
  cbn [Z.eqb negb].
  destruct src as [src|]; [|reflexivity].
  destruct (srclen <? -1); [reflexivity|].
  destruct (load_norm_table NtGetNlsSectionPtr 13 sh)
    as [[status info] sh'].
  destruct (failed status); [reflexivity|].
  set (n := if srclen =? -1 then wcslen src + 1 else srclen).
  destruct (prepare RtlNormalizeString (units src n) n) as [st|buf];
    [reflexivity|].
  pose proof (scan_loosen_aux flags info buf (length buf) buf 0 0
                (Nat.le_refl _)) as Hscan.
  destruct (scan flags info buf buf 0 0) as [st|[i start]].
  - subst st. cbn [fst i_status]. congruence.
  - rewrite Hscan.
    change (std3 IDN_ALLOW_UNASSIGNED) with false. cbn [andb].
    destruct ((i =? 0) || (i - start >? 63)); [reflexivity|].
    destruct (std3 flags && _).
    + cbn [fst i_status]. congruence.
    + reflexivity.
Qed.
End FlagFacts.

(** The hyphen-framed label "-a-" under no flag and under
    IDN_ALLOW_UNASSIGNED. *)
Lemma allow_unassigned_is_most_permissive_witness :
  RtlIdnToNameprepUnicode (sample_provider 13) sample_props
    sample_normalize (fun _ => 45) IDN_ALLOW_UNASSIGNED
    (Some [45; 97; 45]) 3 8 initial
  = RtlIdnToNameprepUnicode (sample_provider 13) sample_props
      sample_normalize (fun _ => 0) 0 (Some [45; 97; 45]) 3 8 initial.
Proof.
  apply (allow_unassigned_is_most_permissive (sample_provider 13)
           sample_props sample_normalize 0 (Some [45; 97; 45]) 3 8 initial
           (fun _ => 0) (fun _ => 45)).
  - lia.
  - vm_compute. discriminate.
Defined.

End IdnExtFacts.

(** ** The character checks of the Punycode labels *)

Module IdnChars.
Import Idn.

Section InvalidChars.
(** get_combining_class( info, ch ) and get_char_props( info, ch ) of
    locale_private.h for the table in use, and its constant
    HANGUL_SBASE; that header is not among the sources. *)
Variable get_combining_class : Z -> Z.
Variable get_char_props : Z -> Z.
Variable HANGUL_SBASE : Z.

(** The [for (i = 0; i < len; i++)] loop of check_invalid_chars over the
    code points from [buffer[i]] on; [prev] is [buffer[i - 1]], absent
    for [i = 0].  [true] when the loop returns TRUE. *)
Fixpoint invalid_char_loop (flags : Z) (prev : option Z)
    (buffer : list Z) : bool :=
  match buffer with
  | [] => false
  | c :: rest =>
      if ((c =? 0x200c) (* zero-width non-joiner *)
          || (c =? 0x200d)) (* zero-width joiner *)
         && match prev with
            | None => true
            | Some p => negb (get_combining_class p =? 9)
            end
      then true
      else if ((c =? 0x2260) (* not equal to *)
               || (c =? 0x226e) (* not less than *)
               || (c =? 0x226f)) (* not greater than *)
              && std3 flags
      then true
      else
        let props := get_char_props c in
        if props =? 0xbf then true
        else if (props =? 0xff)
                && negb ((c >=? HANGUL_SBASE)
                         && (c <? HANGUL_SBASE + 0x2c00))
        then true
        else if (props =? 0x7f) && negb (allow_unassigned flags) then true
        else invalid_char_loop flags (Some c) rest
  end.

(** check_invalid_chars on the [len] code points at [buffer]. *)
Definition check_invalid_chars (flags : Z) (buffer : list Z) (len : Z)
  : bool :=
  if invalid_char_loop flags None (firstn (Z.to_nat len) buffer) then true
  else std3 flags && negb (len =? 0)
       && ((wchar_at buffer 0 =? 45) || (wchar_at buffer (len - 1) =? 45)).
End InvalidChars.

End IdnChars.

Module IdnCharsFacts.
Import Idn IdnChars.

Section InvalidCharsFacts.
Variable get_combining_class : Z -> Z.
Variable get_char_props : Z -> Z.
Variable HANGUL_SBASE : Z.

Local Abbreviation loop :=
  (invalid_char_loop get_combining_class get_char_props HANGUL_SBASE).

Lemma invalid_char_loop_loosen (flags flags' : Z) (buffer : list Z) :
  (std3 flags' = true -> std3 flags = true) ->
  (allow_unassigned flags = true -> allow_unassigned flags' = true) ->
  forall prev,
    loop flags prev buffer = false -> loop flags' prev buffer = false.
Proof.
  intros Hstd Hallow.
  induction buffer as [|c rest IH]; intros prev; [trivial|].
  cbn [invalid_char_loop]. cbv zeta.
  destruct (((c =? 0x200c) || (c =? 0x200d)) && _); [discriminate|].
  destruct ((c =? 0x2260) || (c =? 0x226e) || (c =? 0x226f)); cbn [andb].
  - destruct (std3 flags) eqn:E; [discriminate|].
    destruct (std3 flags') eqn:E'; [specialize (Hstd eq_refl); congruence|].
    destruct (get_char_props c =? 0xbf); [discriminate|].
    destruct ((get_char_props c =? 0xff) && _); [discriminate|].
    destruct (get_char_props c =? 0x7f); cbn [andb]; [|apply IH].
    destruct (allow_unassigned flags) eqn:A; [|discriminate].
    rewrite (Hallow eq_refl). cbn [negb]. apply IH.
  - destruct (get_char_props c =? 0xbf); [discriminate|].
    destruct ((get_char_props c =? 0xff) && _); [discriminate|].
    destruct (get_char_props c =? 0x7f); cbn [andb]; [|apply IH].
    destruct (allow_unassigned flags) eqn:A; [|discriminate].
    rewrite (Hallow eq_refl). cbn [negb]. apply IH.
Qed.

(** X26.  The flags act on check_invalid_chars in one direction only:
    a label it lets through under some flags it lets through under any
    flags that add no STD3 rules and drop no permission for unassigned
    code points, whatever the tables hold. *)
Theorem check_invalid_chars_flags_monotone (flags flags' : Z)
    (buffer : list Z) (len : Z) :
  (std3 flags' = true -> std3 flags = true) ->
  (allow_unassigned flags = true -> allow_unassigned flags' = true) ->
  check_invalid_chars get_combining_class get_char_props HANGUL_SBASE
    flags buffer len = false ->
  check_invalid_chars get_combining_class get_char_props HANGUL_SBASE
    flags' buffer len = false.
Proof.
  intros Hstd Hallow. unfold check_invalid_chars.
  destruct (loop flags None (firstn (Z.to_nat len) buffer)) eqn:E;
    [discriminate|].
  rewrite (invalid_char_loop_loosen flags flags' _ Hstd Hallow None E).
  destruct (std3 flags') eqn:E'; [|trivial].
  rewrite (Hstd eq_refl). trivial.
Qed.
End InvalidCharsFacts.

(** The label of "a" and U+2260 passes under no flags, hence under
    IDN_ALLOW_UNASSIGNED; every code point here has the property
    byte 0. *)
Lemma check_invalid_chars_flags_monotone_witness :
  check_invalid_chars (fun _ => 0) (fun _ => 0) 0xac00
    IDN_ALLOW_UNASSIGNED [97; 0x2260] 2 = false.
Proof.
  apply (check_invalid_chars_flags_monotone (fun _ => 0) (fun _ => 0) 0xac00
           0 IDN_ALLOW_UNASSIGNED [97; 0x2260] 2).
  - vm_compute. discriminate.
  - vm_compute. discriminate.
  - vm_compute. reflexivity.
Defined.

End IdnCharsFacts.

(** ** Punycode encoding: RtlIdnToAscii *)

Module Punycode.
Import Utf8 NormTable Idn IdnChars.

(** What a piece of the encoder comes to: a value, a return from the
    function with a status, or no defined result (a store past the 64
    entries of [buffer], or a loop of this model out of turns). *)
Inductive outcome (A : Type) : Type :=
| Got (a : A)
| Fails (st : NTSTATUS)
| Undefined.
Arguments Got {A} a.
Arguments Fails {A} st.
Arguments Undefined {A}.

(** Punycode parameters *)
Definition BASE : Z := 36.
Definition TMIN : Z := 1.
Definition TMAX : Z := 26.
Definition SKEW : Z := 38.
Definition DAMP : Z := 700.

Definition ARRAY_SIZE_res : Z := 256.
Definition ARRAY_SIZE_buffer : Z := 64.

Definition prefixW : list Z := [120; 110; 45; 45].

(** [t = k <= bias ? TMIN : k >= bias + TMAX ? TMAX : k - bias] *)
Definition threshold (k bias : Z) : Z :=
  if k <=? bias then TMIN
  else if k >=? bias + TMAX then TMAX
  else k - bias.

(** [for (q = delta, k = BASE; ; k += BASE)]: the digits of one
    code point appended to [res].  An int divided by ten or more in each
    turn is used up within [fuel] turns when [fuel] is 32. *)
Fixpoint emit_digits (fuel : nat) (q k bias : Z) (res : list Z)
  : outcome (list Z) :=
  match fuel with
  | O => Undefined
  | S fuel' =>
      let t := threshold k bias in
      let disp := if q <? t then q else t + Z.rem (q - t) (BASE - t) in
      if len res + 1 >? ARRAY_SIZE_res
      then Fails STATUS_INVALID_IDN_NORMALIZATION
      else
        let res := res ++ [if disp <=? 25 then 97 + disp
                           else 48 + disp - 26] in
        if q <? t then Got res
        else emit_digits fuel' (Z.quot (q - t) (BASE - t)) (k + BASE) bias
                         res
  end.

(** [for (k = 0; delta > ((BASE - TMIN) * TMAX) / 2; k += BASE)
      delta /= BASE - TMIN;]: the final [delta] and [k]. *)
Fixpoint adapt_loop (fuel : nat) (delta k : Z) : option (Z * Z) :=
  match fuel with
  | O => None
  | S fuel' =>
      if delta >? Z.quot ((BASE - TMIN) * TMAX) 2
      then adapt_loop fuel' (Z.quot delta (BASE - TMIN)) (k + BASE)
      else Some (delta, k)
  end.

(** The bias after a code point: [delta] is already divided by DAMP
    or 2. *)
Definition adapt (delta h : Z) : option Z :=
  let delta := delta + Z.quot delta (h + 1) in
  match adapt_loop 32 delta 0 with
  | Some (delta, k) =>
      Some (k + Z.quot ((BASE - TMIN + 1) * delta) (delta + SKEW))
  | None => None
  end.

(** [for (i = 0; i < buflen; i++)
      if (buffer[i] >= n && m > buffer[i]) m = buffer[i];] *)
Fixpoint next_code_point (buffer : list Z) (n m : Z) : Z :=
  match buffer with
  | [] => m
  | c :: rest =>
      next_code_point rest n (if (c >=? n) && (m >? c) then c else m)
  end.

Record enc_state : Type := mk_enc {
  e_delta : Z;
  e_bias : Z;
  e_h : Z;
  e_res : list Z
}.

(** The pass over the label for the code point [n]: every entry equal to
    [n] is written out, every smaller one counted in [delta]. *)
Fixpoint encode_pass (buffer : list Z) (n b : Z) (s : enc_state)
  : outcome enc_state :=
  match buffer with
  | [] => Got s
  | c :: rest =>
      if c =? n then
        match emit_digits 32 (e_delta s) BASE (e_bias s) (e_res s) with
        | Got res =>
            let delta := Z.quot (e_delta s)
                                (if e_h s =? b then DAMP else 2) in
            match adapt delta (e_h s) with
            | Some bias =>
                encode_pass rest n b (mk_enc 0 bias (e_h s + 1) res)
            | None => Undefined
            end
        | Fails st => Fails st
        | Undefined => Undefined
        end
      else if c <? n
      then encode_pass rest n b
             (mk_enc (e_delta s + 1) (e_bias s) (e_h s) (e_res s))
      else encode_pass rest n b s
  end.

(** [for (h = b; h < buflen; delta++, n++)]; every turn writes out at
    least one entry, so the entries of the label bound the turns. *)
Fixpoint encode_loop (fuel : nat) (buffer : list Z) (b n : Z)
    (s : enc_state) : outcome (list Z) :=
  match fuel with
  | O => Undefined
  | S fuel' =>
      if e_h s <? len buffer then
        let m := next_code_point buffer n 0x10ffff in
        let delta := e_delta s + (m - n) * (e_h s + 1) in
        let n := m in
        match encode_pass buffer n b
                (mk_enc delta (e_bias s) (e_h s) (e_res s)) with
        | Got s' =>
            encode_loop fuel' buffer b (n + 1)
              (mk_enc (e_delta s' + 1) (e_bias s') (e_h s') (e_res s'))
        | Fails st => Fails st
        | Undefined => Undefined
        end
      else Got (e_res s)
  end.

(** [for (i = start; i < normlen; i += len)] over the units from [i] on:
    the [i] the loop ends with, the count [b] of basic code points and
    the code points put in [buffer]; nothing when [buffer] is full. *)
Fixpoint label_units (rem : list Z) (i b : Z) (buffer : list Z)
  : option (Z * Z * list Z) :=
  match rem with
  | [] => Some (i, b, buffer)
  | _ :: rest =>
      match get_utf16 rem with
      | None => Some (i, b, buffer)
      | Some (n, ch) =>
          if (ch =? 0) || (ch =? 46) then Some (i, b, buffer)
          else if len buffer >=? ARRAY_SIZE_buffer then None
          else
            let b := if ch <? 0x80 then b + 1 else b in
            if n =? 1 then label_units rest (i + n) b (buffer ++ [ch])
            else match rest with
                 | _ :: rest' =>
                     label_units rest' (i + n) b (buffer ++ [ch])
                 | [] => Some (i + n, b, buffer ++ [ch])
                 end
      end
  end.

Section ToAscii.
Variable NtGetNlsSectionPtr : Z -> NTSTATUS * nls_section.
(** get_char_props and get_combining_class of locale_private.h and its
    constant HANGUL_SBASE, as in the modules above. *)
Variable get_char_props : option nls_section -> Z -> Z.
Variable get_combining_class : option nls_section -> Z -> Z.
Variable HANGUL_SBASE : Z.
Variable RtlNormalizeString : Z -> list Z -> Z -> Z -> NTSTATUS * list Z.
(** What the stack holds in the unwritten elements of the local [buf] of
    the call to RtlIdnToNameprepUnicode. *)
Variable stale : Z -> Z.

(** A label with a code point above 0x7f, from the ACE prefix check to
    the separator: [res] afterwards. *)
Definition encode_label (flags : Z) (info : option nls_section)
    (normstr : list Z) (start end_ b : Z) (buffer : list Z)
    (res : list Z) : outcome (list Z) :=
  let normlen := len normstr in
  let buflen := len buffer in
  let out_label := len res in
  if (buflen >=? 4) && (wchar_at buffer 2 =? 45) && (wchar_at buffer 3 =? 45)
  then Fails STATUS_INVALID_IDN_NORMALIZATION
  else if check_invalid_chars (get_combining_class info)
            (get_char_props info) HANGUL_SBASE flags buffer buflen
  then Fails STATUS_INVALID_IDN_NORMALIZATION
  else if len res + 5 + b >? ARRAY_SIZE_res
  then Fails STATUS_INVALID_IDN_NORMALIZATION
  else
    let res := res ++ prefixW in
    let res :=
      if b =? 0 then res
      else res
           ++ filter (fun c => c <? 0x80)
                (firstn (Z.to_nat (end_ - start))
                        (skipn (Z.to_nat start) normstr))
           ++ [45] in
    match encode_loop (S (length buffer)) buffer b 0x80
            (mk_enc 0 72 b res) with
    | Got res =>
        if len res - out_label >? 63
        then Fails STATUS_INVALID_IDN_NORMALIZATION
        else if end_ <? normlen then
          if len res + 1 >? ARRAY_SIZE_res
          then Fails STATUS_INVALID_IDN_NORMALIZATION
          else Got (res ++ [wchar_at normstr end_])
        else Got res
    | Fails st => Fails st
    | Undefined => Undefined
    end.

(** [for (start = 0; start < normlen; start = end + 1)]; [start] grows
    in every turn, so [fuel] above [normlen] is never used up. *)
Fixpoint labels_loop (fuel : nat) (flags : Z) (info : option nls_section)
    (normstr : list Z) (start : Z) (res : list Z) : outcome (list Z) :=
  match fuel with
  | O => Undefined
  | S fuel' =>
      if start <? len normstr then
        match label_units (skipn (Z.to_nat start) normstr) start 0 [] with
        | None => Undefined
        | Some (end_, b, buffer) =>
            if b =? end_ - start then
              let b := if end_ <? len normstr then b + 1 else b in
              if len res + b >? ARRAY_SIZE_res
              then Fails STATUS_INVALID_IDN_NORMALIZATION
              else labels_loop fuel' flags info normstr (end_ + 1)
                     (res ++ firstn (Z.to_nat b)
                                    (skipn (Z.to_nat start) normstr))
            else
              match encode_label flags info normstr start end_ b buffer
                      res with
              | Got res =>
                  labels_loop fuel' flags info normstr (end_ + 1) res
              | Fails st => Fails st
              | Undefined => Undefined
              end
        end
      else Got res
  end.

(** RtlIdnToAscii.  [src] is NULL or the units it points to, [dstlen]
    the value of [*dstlen] on entry. *)
Definition RtlIdnToAscii (flags : Z) (src : option (list Z))
    (srclen : Z) (dstlen : Z) (sh : shared)
  : outcome (idn_result * shared) :=
  match load_norm_table NtGetNlsSectionPtr 13 sh with
  | (status, info, sh) =>
      if failed status then Got (mk_idn status None [], sh)
      else
        match RtlIdnToNameprepUnicode NtGetNlsSectionPtr get_char_props
                RtlNormalizeString stale flags src srclen 256 sh with
        | (prep, sh) =>
            if failed (i_status prep)
            then Got (mk_idn (i_status prep) None [], sh)
            else
              let normstr := i_written prep in
              (* implementation of Punycode based on RFC 3492 *)
              match labels_loop (S (S (length normstr))) flags info
                      normstr 0 [] with
              | Got res =>
                  let out := len res in
                  if dstlen =? 0
                  then Got (mk_idn STATUS_SUCCESS (Some out) [], sh)
                  else if out <=? dstlen
                  then Got (mk_idn STATUS_SUCCESS (Some out) res, sh)
                  else Got (mk_idn STATUS_BUFFER_TOO_SMALL (Some out) [],
                            sh)
              | Fails st => Got (mk_idn st None [], sh)
              | Undefined => Undefined
              end
        end
  end.
End ToAscii.

End Punycode.

(** ** Facts about RtlIdnToAscii *)

Module PunycodeFacts.
Import Utf8 NormTable NormTableFacts Idn IdnFacts IdnChars Punycode
  CodePageFacts.

(** A table that has been loaded is served from its slot afterwards. *)
Lemma load_norm_table_again (provider provider' : Z -> NTSTATUS * nls_section)
    (sh sh' : shared) (info : option nls_section) :
  load_norm_table provider 13 sh = (STATUS_SUCCESS, info, sh') ->
  load_norm_table provider' 13 sh' = (STATUS_SUCCESS, info, sh').
Proof.
  unfold load_norm_table, load_norm_table_check.
  change (13 =? 0) with false.
  change (13 >=? ARRAY_SIZE_norm_tables) with false. cbv iota.
  destruct (norm_tables sh 13) as [t|] eqn:Hslot.
  - intros H. inversion H; subst. rewrite Hslot. reflexivity.
  - destruct (provider 13) as [status data].
    destruct (failed status) eqn:Hf.
    + intros H. inversion H; subst. discriminate Hf.
    + destruct (sanity_checks 13 data); [|intros H; inversion H].
      unfold load_norm_table_publish, InterlockedCompareExchangePointer.
      rewrite Hslot. cbn [norm_tables]. rewrite Z.eqb_refl.
      intros H. inversion H; subst. cbn [norm_tables].
      rewrite Z.eqb_refl. reflexivity.
Qed.

Lemma skipn_app_len {A : Type} (l1 l2 : list A) :
  skipn (Z.to_nat (len l1)) (l1 ++ l2) = l2.
Proof.
  unfold len. rewrite Nat2Z.id, skipn_app, Nat.sub_diag, skipn_all.
  reflexivity.
Qed.

Lemma firstn_app_len {A : Type} (l1 l2 : list A) :
  firstn (Z.to_nat (len l1)) (l1 ++ l2) = l1.
Proof.
  unfold len. rewrite Nat2Z.id, firstn_app, Nat.sub_diag, firstn_all.
  cbn [firstn]. apply app_nil_r.
Qed.

(** Low-ASCII units split into a first label and what follows it. *)
Lemma split_label (rem : list Z) :
  Forall low_ascii rem ->
  exists label tail,
    rem = label ++ tail /\ Forall label_char label /\ follows_label tail.
Proof.
  induction rem as [|c rem IH]; intros H.
  - exists [], []. repeat split; [constructor | left; reflexivity].
  - inversion H as [|? ? Hc Hrem]; subst.
    destruct (Z.eq_dec c 46) as [->|Hdot].
    + exists [], (46 :: rem). repeat split; [constructor|].
      right. exists rem. reflexivity.
    + destruct (IH Hrem) as (label & tail & -> & Hl & Ht).
      exists (c :: label), tail. repeat split; [|exact Ht].
      constructor; [split; assumption | exact Hl].
Qed.

(** The label scan of the encoder over an all-ASCII label that fits the
    code point buffer. *)
Lemma label_units_label (label tail : list Z) :
  forall i b buffer,
    Forall label_char label -> follows_label tail ->
    len buffer + len label <= ARRAY_SIZE_buffer ->
    label_units (label ++ tail) i b buffer
    = Some (i + len label, b + len label, buffer ++ label).
Proof.
  induction label as [|c label IH]; intros i b buffer Hl Ht Hfit.
  - cbn [app]. rewrite (@len_nil Z), !Z.add_0_r, app_nil_r.
    destruct Ht as [->|[rest ->]]; [reflexivity|].
    cbn [label_units].
    rewrite (get_utf16_low_ascii 46 rest low_ascii_dot).
    reflexivity.
  - inversion Hl as [|? ? [Hc Hdot] Hl']; subst.
    rewrite len_cons in *. pose proof (len_nonneg label).
    cbn [app label_units].
    rewrite (get_utf16_low_ascii c _ Hc).
    unfold low_ascii in Hc.
    destruct (Z.eqb_spec c 0); [lia|].
    destruct (Z.eqb_spec c 46); [contradiction|]. cbn [orb].
    destruct (Z.geb_spec (len buffer) ARRAY_SIZE_buffer); [lia|].
    destruct (Z.ltb_spec c 0x80); [|lia].
    cbn [Z.eqb Pos.eqb].
    rewrite IH; [|assumption|assumption|rewrite len_app, len_cons, len_nil; lia].
    rewrite <- app_assoc. cbn [app]. f_equal. f_equal. f_equal; lia.
Qed.

Section ToAsciiFacts.
Variable NtGetNlsSectionPtr : Z -> NTSTATUS * nls_section.
Variable get_char_props : option nls_section -> Z -> Z.
Variable get_combining_class : option nls_section -> Z -> Z.
Variable HANGUL_SBASE : Z.
Variable RtlNormalizeString : Z -> list Z -> Z -> Z -> NTSTATUS * list Z.

Local Abbreviation nameprep :=
  (RtlIdnToNameprepUnicode NtGetNlsSectionPtr get_char_props
     RtlNormalizeString).
Local Abbreviation to_ascii :=
  (RtlIdnToAscii NtGetNlsSectionPtr get_char_props get_combining_class
     HANGUL_SBASE RtlNormalizeString).
Local Abbreviation labels :=
  (labels_loop get_char_props get_combining_class HANGUL_SBASE).

Lemma labels_loop_done (fuel : nat) (flags : Z) (info : option nls_section)
    (normstr : list Z) (start : Z) (res : list Z) :
  len normstr <= start ->
  labels (S fuel) flags info normstr start res = Got res.
Proof.
  intros H. cbn [labels_loop].
  destruct (Z.ltb_spec start (len normstr)); [lia | reflexivity].
Qed.

(** Over a low-ASCII name that the validation loop of Nameprep lets
    through, the label loop of the encoder copies every label as it
    is. *)
Lemma labels_loop_low_ascii (flags : Z) (info : option nls_section)
    (buf : list Z) :
  forall fuel rem pre normstr r,
    normstr = pre ++ rem ->
    Forall low_ascii rem ->
    len normstr <= ARRAY_SIZE_res ->
    (S (length rem) < fuel)%nat ->
    nameprep_scan get_char_props flags info buf rem (len pre) (len pre)
      = inr r ->
    fst r - snd r <= 63 ->
    labels fuel flags info normstr (len pre) pre = Got normstr.
Proof.
  induction fuel as [|fuel IH];
    intros rem pre normstr r Hnorm Hascii Hsize Hfuel Hscan Hgap; [lia|].
  destruct rem as [|c0 rem0].
  { subst normstr. rewrite app_nil_r in *. apply labels_loop_done. lia. }
  destruct (split_label (c0 :: rem0) Hascii)
    as (label & tail & Hrem & Hlabel & Htail).
  assert (Hcount : length (label ++ tail) = S (length rem0))
    by (rewrite <- Hrem; reflexivity).
  rewrite Hrem in *. clear Hrem.
  assert (Hlen : len normstr = len pre + len label + len tail)
    by (subst normstr; rewrite !len_app; lia).
  pose proof (len_nonneg pre) as Hp. pose proof (len_nonneg label) as Hl.
  pose proof (len_nonneg tail) as Ht.
  assert (Hpos : 0 < len label + len tail).
  { rewrite length_app in Hcount. unfold len. lia. }
  (* what the validation loop says about this label *)
  destruct (scan_label get_char_props flags info buf label tail
              (len pre) (len pre) Hlabel) as [Hret|Hs];
    [rewrite Hret in Hscan; discriminate|].
  rewrite Hs in Hscan.
  assert (Hshort : len label <= 63
                   /\ forall rest, tail = 46 :: rest ->
                        nameprep_scan get_char_props flags info buf rest
                          (len pre + len label + 1)
                          (len pre + len label + 1) = inr r).
  { destruct Htail as [->|[rest ->]].
    - cbn [nameprep_scan] in Hscan. inversion Hscan; subst r.
      cbn [fst snd] in Hgap. split; [lia | discriminate].
    - rewrite scan_cons_low_ascii in Hscan by apply low_ascii_dot.
      destruct (step_dot get_char_props flags info buf
                  (len pre + len label) (len pre))
        as [E|(E & _ & Hle)]; rewrite E in Hscan; [discriminate|].
      split; [lia|]. intros rest' Hr. inversion Hr; subst. exact Hscan. }
  destruct Hshort as [Hshort Hnext].
  cbn [labels_loop].
  destruct (Z.ltb_spec (len pre) (len normstr)); [|lia].
  rewrite Hnorm at 1. rewrite skipn_app_len.
  rewrite (label_units_label label tail (len pre) 0 [] Hlabel Htail)
    by (rewrite (@len_nil Z); unfold ARRAY_SIZE_buffer; lia).
  rewrite Z.add_0_l. cbn [app].
  replace (len label =? len pre + len label - len pre) with true
    by (symmetry; apply Z.eqb_eq; lia).
  destruct Htail as [->|[rest ->]].
  - (* the last label *)
    rewrite (@len_nil Z) in *.
    destruct (Z.ltb_spec (len pre + len label) (len normstr)); [lia|].
    destruct (Z.gtb_spec (len pre + len label) ARRAY_SIZE_res); [lia|].
    rewrite Hnorm at 2. rewrite skipn_app_len, firstn_app_len.
    rewrite app_nil_r in Hnorm. rewrite <- Hnorm.
    destruct fuel as [|fuel]; [cbn [length] in Hfuel; lia|].
    apply labels_loop_done. lia.
  - (* a label and its dot *)
    rewrite len_cons in *. pose proof (len_nonneg rest).
    destruct (Z.ltb_spec (len pre + len label) (len normstr)); [|lia].
    destruct (Z.gtb_spec (len pre + (len label + 1)) ARRAY_SIZE_res);
      [lia|].
    rewrite Hnorm at 2. rewrite skipn_app_len.
    replace (label ++ 46 :: rest) with ((label ++ [46]) ++ rest)
      by (rewrite <- app_assoc; reflexivity).
    replace (len label + 1) with (len (label ++ [46]))
      by (rewrite len_app, len_cons, (@len_nil Z); lia).
    rewrite firstn_app_len.
    replace (len pre + len label + 1) with (len (pre ++ label ++ [46]))
      by (rewrite !len_app, len_cons, (@len_nil Z); lia).
    apply (IH rest (pre ++ label ++ [46]) normstr r).
    + rewrite Hnorm, <- !app_assoc. reflexivity.
    + apply Forall_app in Hascii. destruct Hascii as [_ Hrest].
      inversion Hrest; assumption.
    + exact Hsize.
    + rewrite length_app in Hfuel. cbn [length] in Hfuel. lia.
    + rewrite !len_app, len_cons, (@len_nil Z).
      replace (len pre + (len label + (0 + 1)))
        with (len pre + len label + 1) by lia.
      apply Hnext. reflexivity.
    + exact Hgap.
Qed.

(** X27.  Names that are ASCII already pass RtlIdnToAscii unchanged:
    on a low-ASCII name (units 0x20 to 0x7e) of a given length, with
    accepted flags and the table of form 13 there, RtlIdnToAscii gives
    what RtlIdnToNameprepUnicode gives for the same destination length:
    the same status, the same length and the same units, the name itself
    when it is valid.  Under the STD3 rules this is for names that do not
    end in a dot: behind a final dot the Nameprep call looks for a hyphen
    in an element of its buffer that it never wrote, and the two calls
    need not find the same there.  For the names covered the answer is
    the same whatever the stack holds in either call. *)
Theorem ascii_names_encode_to_themselves (flags : Z) (src : list Z)
    (dstlen : Z) (sh sh' : shared) (info : option nls_section)
    (stale stale' : Z -> Z) :
  0 <= flags <= 3 ->
  load_norm_table NtGetNlsSectionPtr 13 sh = (STATUS_SUCCESS, info, sh') ->
  Forall low_ascii src ->
  (std3 flags = true -> last src 0 <> 46) ->
  exists sh'',
    to_ascii stale flags (Some src) (len src) dstlen sh
    = Got (fst (nameprep stale' flags (Some src) (len src) dstlen sh), sh'').
Proof.
  intros Hflags Hload Hascii Hdot.
  pose proof (load_norm_table_again _ NtGetNlsSectionPtr _ _ _ Hload)
    as Hload'.
  rewrite (nameprep_low_ascii NtGetNlsSectionPtr get_char_props
             RtlNormalizeString stale' flags src dstlen sh sh' info
             Hflags Hload Hascii).
  pose proof (nameprep_low_ascii NtGetNlsSectionPtr get_char_props
                RtlNormalizeString stale flags src 256 sh' sh' info
                Hflags Hload' Hascii) as Hprep.
  unfold RtlIdnToAscii. rewrite Hload.
  change (failed STATUS_SUCCESS) with false. cbv iota.
  destruct (nameprep stale flags (Some src) (len src) 256 sh')
    as [prep sh2].
  cbn [fst] in Hprep. subst prep. exists sh2.
  destruct (Z.gtb_spec (len src) 256) as [Hbig|Hsmall]; [reflexivity|].
  destruct (nameprep_scan get_char_props flags info src src 0 0)
    as [st|[i start]] eqn:Hscan.
  { cbn [i_status].
    destruct (failed st) eqn:Hf; [reflexivity|].
    apply failed_false in Hf. subst st. cbn [i_status failed].
    assert (Hst := scan_low_ascii get_char_props flags info src src
                     [] 0 0 Hascii).
    rewrite app_nil_r, Hscan in Hst.
    destruct Hst as [Hst|[s Hst]]; [discriminate|].
    cbn [nameprep_scan] in Hst. discriminate. }
  destruct ((i =? 0) || (i - start >? 63)) eqn:Hchk; [reflexivity|].
  apply orb_false_iff in Hchk. destruct Hchk as [Hi Hgap].
  (* the hyphen check behind the loop reads units of the name *)
  assert (Hsame : std3 flags
                  && ((buf_at stale src start =? 45)
                      || (wchar_at src (i - 1) =? 45))
                  = std3 flags
                    && ((buf_at stale' src start =? 45)
                        || (wchar_at src (i - 1) =? 45))).
  { destruct (std3 flags) eqn:Hstd3; [|reflexivity].
    destruct (scan_low_ascii_end get_char_props flags info src src 0 0
                (i, start) Hascii (Z.le_refl _) Hscan)
      as (Hend & Hle & Hlast).
    cbn [fst snd] in Hend, Hle, Hlast.
    assert (Hin : start < len src).
    { destruct (Z.eq_dec start i) as [Heq|Hne]; [|lia].
      destruct (Hlast Heq) as [[-> _]|Hl46].
      - rewrite (@len_nil Z) in Hend.
        destruct (Z.eqb_spec i 0); [discriminate | lia].
      - exfalso. apply (Hdot eq_refl). exact Hl46. }
    unfold buf_at.
    destruct (Z.ltb_spec start (len src)); [reflexivity | lia]. }
  rewrite Hsame. clear Hsame.
  destruct (std3 flags && _); [reflexivity|].
  change (256 =? 0) with false. cbv iota.
  destruct (Z.leb_spec (len src) 256); [|lia].
  cbn [i_status i_written]. change (failed STATUS_SUCCESS) with false.
  cbv iota zeta.
  assert (Hloop : labels (S (S (length src))) flags info src 0 []
                  = Got src).
  { apply (labels_loop_low_ascii flags info src
             (S (S (length src))) src [] src (i, start)).
    - reflexivity.
    - exact Hascii.
    - unfold ARRAY_SIZE_res. lia.
    - lia.
    - exact Hscan.
    - cbn [fst snd].
      destruct (Z.gtb_spec (i - start) 63); [discriminate | lia]. }
  rewrite Hloop.
  destruct (dstlen =? 0); [reflexivity|].
  destruct (len src <=? dstlen); reflexivity.
Qed.
End ToAsciiFacts.

(** "www.example.com" through the encoder under the STD3 rules, and
    three names of RFC 3492 and its kind: the Punycode of "b", u-umlaut,
    "cher", of the same with a dot and "de" behind, and of the Japanese
    sample (L). *)
Lemma ascii_names_encode_to_themselves_witness :
  let name := [119; 119; 119; 46; 101; 120; 97; 109; 112; 108; 101; 46;
               99; 111; 109] in
  exists sh'',
    RtlIdnToAscii (sample_provider 13) sample_props (fun _ _ => 0) 0xac00
      sample_normalize (fun _ => 45) IDN_USE_STD3_ASCII_RULES
      (Some name) (len name) 32 initial
    = Got (fst (RtlIdnToNameprepUnicode (sample_provider 13) sample_props
                  sample_normalize (fun _ => 0) IDN_USE_STD3_ASCII_RULES
                  (Some name) (len name) 32 initial),
           sh'').
Proof.
  apply (ascii_names_encode_to_themselves (sample_provider 13) sample_props
           (fun _ _ => 0) 0xac00 sample_normalize IDN_USE_STD3_ASCII_RULES
           [119; 119; 119; 46; 101; 120; 97; 109; 112; 108; 101; 46;
            99; 111; 109] 32 initial
           (snd (load_norm_table (sample_provider 13) 13 initial))
           (Some (sample_table 13)) (fun _ => 45) (fun _ => 0)).
  - unfold IDN_USE_STD3_ASCII_RULES. lia.
  - reflexivity.
  - repeat constructor; unfold low_ascii; lia.
  - intros _. cbn [last]. lia.
Defined.

Example punycode_samples :
  let to_ascii name :=
    match RtlIdnToAscii (sample_provider 13) sample_props (fun _ _ => 0)
            0xac00 sample_normalize (fun _ => 0) 0 (Some name) (len name)
            64 initial with
    | Got (r, _) => Some (i_status r, i_written r)
    | _ => None
    end in
  to_ascii [0x62; 0xfc; 0x63; 0x68; 0x65; 0x72]
    = Some (STATUS_SUCCESS,
            [120; 110; 45; 45; 98; 99; 104; 101; 114; 45; 107; 118; 97])
  /\ to_ascii [0x62; 0xfc; 0x63; 0x68; 0x65; 0x72; 46; 100; 101]
     = Some (STATUS_SUCCESS,
             [120; 110; 45; 45; 98; 99; 104; 101; 114; 45; 107; 118; 97;
              46; 100; 101])
  /\ to_ascii [0x33; 0x5e74; 0x42; 0x7d44; 0x91d1; 0x516b; 0x5148; 0x751f]
     = Some (STATUS_SUCCESS,
             [120; 110; 45; 45; 51; 66; 45; 119; 119; 52; 99; 53; 101; 49;
              56; 48; 101; 53; 55; 53; 97; 54; 53; 108; 115; 121; 50; 98]).
Proof. vm_compute. repeat split. Qed.

End PunycodeFacts.

(** ** Punycode decoding: RtlIdnToUnicode *)

Module PunycodeDecode.
Import Utf8 NormTable Idn IdnChars Punycode.

Definition INT_MAX : Z := 2 ^ 31 - 1.

(** The digit of a unit: [ch - 'a'], [ch - 'A'] or [ch - '0' + 26]. *)
Definition digit_of (ch : Z) : option Z :=
  if (97 <=? ch) && (ch <=? 122) then Some (ch - 97)
  else if (65 <=? ch) && (ch <=? 90) then Some (ch - 65)
  else if (48 <=? ch) && (ch <=? 57) then Some (ch - 48 + 26)
  else None.

(** [for (i = start; i < srclen; i++)] over the units from [i] on: the
    status the loop returns with, or the [i] it ends with and [delim]. *)
Fixpoint decode_scan (flags : Z) (rem : list Z) (i srclen delim : Z)
  : NTSTATUS + (Z * Z) :=
  match rem with
  | [] => inr (i, delim)
  | ch :: rest =>
      if (ch >? 0x7f) || (negb (i =? srclen - 1) && (ch =? 0))
      then inl STATUS_INVALID_IDN_NORMALIZATION
      else if (ch =? 0) || (ch =? 46) then inr (i, delim)
      else
        let delim := if ch =? 45 then i else delim in
        if negb (std3 flags) then decode_scan flags rest (i + 1) srclen delim
        else if std3_char ch
        then decode_scan flags rest (i + 1) srclen delim
        else inl STATUS_INVALID_IDN_NORMALIZATION
  end.

(** [for (k = BASE; ; k += BASE)] over the units from [i] on: one
    generalized variable-length integer added to [pos]; the new [pos],
    [i] and the units left.  An int that overflows leaves no defined
    result. *)
Fixpoint decode_digits (rem : list Z) (i end_ k bias pos w : Z)
  : outcome (Z * Z * list Z) :=
  match rem with
  | [] => Fails STATUS_INVALID_IDN_NORMALIZATION
  | ch :: rest =>
      if i >=? end_ then Fails STATUS_INVALID_IDN_NORMALIZATION
      else
        match digit_of ch with
        | None => Fails STATUS_INVALID_IDN_NORMALIZATION
        | Some digit =>
            let pos := pos + digit * w in
            if pos >? INT_MAX then Undefined
            else
              let t := threshold k bias in
              if digit <? t then Got (pos, i + 1, rest)
              else
                let w := w * (BASE - t) in
                if w >? INT_MAX then Undefined
                else decode_digits rest (i + 1) end_ (k + BASE) bias pos w
        end
  end.

(** [while (i < end)]: one code point inserted into [buffer] per turn;
    every turn uses up a unit, so the units left bound the turns. *)
Fixpoint decode_loop (fuel : nat) (rem : list Z) (i end_ n bias pos : Z)
    (buffer : list Z) : outcome (list Z) :=
  match fuel with
  | O => Undefined
  | S fuel' =>
      if i <? end_ then
        let old_pos := pos in
        match decode_digits rem i end_ BASE bias pos 1 with
        | Got (pos, i, rem) =>
            let buflen := len buffer in
            let delta := Z.quot (pos - old_pos)
                                (if old_pos =? 0 then DAMP else 2) in
            match adapt delta buflen with
            | Some bias =>
                let n := n + Z.quot pos (buflen + 1) in
                if n >? INT_MAX then Undefined
                else
                  let pos := Z.rem pos (buflen + 1) in
                  if buflen >=? ARRAY_SIZE_buffer - 1
                  then Fails STATUS_INVALID_IDN_NORMALIZATION
                  else
                    decode_loop fuel' rem i end_ n bias (pos + 1)
                      (firstn (Z.to_nat pos) buffer ++ [n]
                       ++ skipn (Z.to_nat pos) buffer)
            | None => Undefined
            end
        | Fails st => Fails st
        | Undefined => Undefined
        end
      else Got buffer
  end.

(** What a label leaves behind: the loop goes on with [out] and the
    units stored in [dst] so far, the function returns with a status, or
    there is no defined result. *)
Inductive label_result : Type :=
| Go (out : Z) (written : list Z)
| Stop (st : NTSTATUS) (written : list Z)
| Undef.

Section ToUnicode.
Variable NtGetNlsSectionPtr : Z -> NTSTATUS * nls_section.
Variable get_char_props : option nls_section -> Z -> Z.
Variable get_combining_class : option nls_section -> Z -> Z.
Variable HANGUL_SBASE : Z.
(** put_utf16( dst, ch ) of locale_private.h, which is not among the
    sources: the units it stores for a code point. *)
Variable put_utf16 : Z -> list Z.
(** The unit that stands in memory in front of the source string. *)
Variable before_src : Z.

(** [src[i]]: a unit of the source string, or for [i = -1] the unit in
    front of it. *)
Definition src_at (src : list Z) (i : Z) : Z :=
  if i <? 0 then before_src else wchar_at src i.

(** [for (i = 0; i < buflen; i++)] storing the code points of a decoded
    label. *)
Fixpoint put_code_points (buffer : list Z) (dstlen out : Z)
    (written : list Z) : label_result :=
  match buffer with
  | [] => Go out written
  | c :: rest =>
      let n := 1 + (if c >=? 0x10000 then 1 else 0) in
      if dstlen =? 0 then put_code_points rest dstlen (out + n) written
      else if out + n <=? dstlen
      then put_code_points rest dstlen (out + n) (written ++ put_utf16 c)
      else Stop STATUS_BUFFER_TOO_SMALL written
  end.

(** A label with the ACE prefix, from [if (delim == start + 3)] on. *)
Definition decode_label (flags : Z) (info : option nls_section)
    (src : list Z) (srclen start end_ delim dstlen out : Z)
    (written : list Z) : label_result :=
  let out_label := out in
  let delim := if delim =? start + 3 then delim + 1 else delim in
  let buffer :=
    firstn (Z.to_nat ARRAY_SIZE_buffer)
           (firstn (Z.to_nat (delim - (start + 4)))
                   (skipn (Z.to_nat (start + 4)) src)) in
  let i := start + 4 + len buffer in
  let i := if len buffer =? 0 then i else i + 1 in
  match decode_loop (S (length src)) (skipn (Z.to_nat i) src) i end_
          0x80 72 0 buffer with
  | Got buffer =>
      if check_invalid_chars (get_combining_class info)
           (get_char_props info) HANGUL_SBASE flags buffer (len buffer)
      then Stop STATUS_INVALID_IDN_NORMALIZATION written
      else
        match put_code_points buffer dstlen out written with
        | Go out written =>
            if out - out_label >? 63
            then Stop STATUS_INVALID_IDN_NORMALIZATION written
            else if end_ <? srclen then
              if dstlen =? 0 then Go (out + 1) written
              else if out + 1 <=? dstlen
              then Go (out + 1) (written ++ [wchar_at src end_])
              else Stop STATUS_BUFFER_TOO_SMALL written
            else Go out written
        | other => other
        end
  | Fails st => Stop st written
  | Undefined => Undef
  end.

(** One turn of [for (start = 0; start < srclen; )]: the result and the
    next [start].  For an empty label at the start of the string the
    hyphen check of the STD3 rules reads [src[end - 1]] in front of the
    string. *)
Definition unicode_label (flags : Z) (info : option nls_section)
    (src : list Z) (srclen start dstlen out : Z) (written : list Z)
  : label_result * Z :=
  match decode_scan flags (skipn (Z.to_nat start) src) start srclen 0 with
  | inl st => (Stop st written, start)
  | inr (end_, delim) =>
      (* last label may be empty *)
      if (start =? end_) && negb (wchar_at src start =? 0)
      then (Stop STATUS_INVALID_IDN_NORMALIZATION written, start)
      else if (end_ - start <? 4)
              || (negb (wchar_at src start =? 120)
                  && negb (wchar_at src start =? 88))
              || (negb (wchar_at src (start + 1) =? 110)
                  && negb (wchar_at src (start + 1) =? 78))
              || negb (wchar_at src (start + 2) =? 45)
              || negb (wchar_at src (start + 3) =? 45)
      then
        if end_ - start >? 63
        then (Stop STATUS_INVALID_IDN_NORMALIZATION written, start)
        else if std3 flags
                && ((wchar_at src start =? 45)
                    || (src_at src (end_ - 1) =? 45))
        then (Stop STATUS_INVALID_IDN_NORMALIZATION written, start)
        else
          let end_ := if end_ <? srclen then end_ + 1 else end_ in
          if dstlen =? 0 then (Go (out + end_ - start) written, end_)
          else if out + end_ - start <=? dstlen
          then (Go (out + end_ - start)
                   (written ++ firstn (Z.to_nat (end_ - start))
                                      (skipn (Z.to_nat start) src)),
                end_)
          else (Stop STATUS_BUFFER_TOO_SMALL written, start)
      else
        (decode_label flags info src srclen start end_ delim dstlen out
           written,
         end_ + 1)
  end.

(** [for (start = 0; start < srclen; )]; every turn moves [start]
    forward, so [fuel] above [srclen] is never used up. *)
Fixpoint unicode_labels (fuel : nat) (flags : Z)
    (info : option nls_section) (src : list Z) (srclen start dstlen : Z)
    (out : Z) (written : list Z) : label_result :=
  match fuel with
  | O => Undef
  | S fuel' =>
      if start <? srclen then
        match unicode_label flags info src srclen start dstlen out
                written with
        | (Go out written, start) =>
            unicode_labels fuel' flags info src srclen start dstlen out
              written
        | (other, _) => other
        end
      else Go out written
  end.

(** RtlIdnToUnicode.  [src] is NULL or the units it points to, [dstlen]
    the value of [*dstlen] on entry; [i_written] holds the units stored
    in [dst], also when the call fails after storing some. *)
Definition RtlIdnToUnicode (flags : Z) (src : option (list Z))
    (srclen : Z) (dstlen : Z) (sh : shared)
  : outcome (idn_result * shared) :=
  match src with
  | None => Got (mk_idn STATUS_INVALID_PARAMETER None [], sh)
  | Some src =>
      if srclen <? -1
      then Got (mk_idn STATUS_INVALID_PARAMETER None [], sh)
      else
        let srclen := if srclen =? -1 then wcslen src + 1 else srclen in
        match load_norm_table NtGetNlsSectionPtr 13 sh with
        | (status, info, sh) =>
            if failed status then Got (mk_idn status None [], sh)
            else
              let src := units src srclen in
              match unicode_labels (S (S (length src))) flags info src
                      srclen 0 dstlen 0 [] with
              | Go out written =>
                  Got (mk_idn STATUS_SUCCESS (Some out) written, sh)
              | Stop st written => Got (mk_idn st None written, sh)
              | Undef => Undefined
              end
        end
  end.
End ToUnicode.

(** The units of a code point, for the concrete checks: one unit, or a
    surrogate pair from 0x10000 on. *)
Definition sample_put_utf16 (ch : Z) : list Z :=
  if ch >=? 0x10000
  then [high_surrogate ch; low_surrogate ch]
  else [ch].

End PunycodeDecode.

(** ** Facts about RtlIdnToUnicode *)

Module PunycodeDecodeFacts.
Import Utf8 NormTable NormTableFacts Idn IdnFacts IdnChars Punycode
  PunycodeDecode PunycodeFacts CodePageFacts.

(** A label that begins with the ACE prefix, in either case. *)
Definition ace_prefixed (l : list Z) : bool :=
  (4 <=? len l)
  && ((wchar_at l 0 =? 120) || (wchar_at l 0 =? 88))
  && ((wchar_at l 1 =? 110) || (wchar_at l 1 =? 78))
  && (wchar_at l 2 =? 45)
  && (wchar_at l 3 =? 45).

(** A label RtlIdnToUnicode copies: low ASCII without a dot, no ACE
    prefix, at most 63 units and, under the STD3 rules, letters, digits
    and hyphens only with no hyphen at either end. *)
Definition plain_label (flags : Z) (l : list Z) : Prop :=
  Forall label_char l
  /\ ace_prefixed l = false
  /\ len l <= 63
  /\ (std3 flags = true ->
      Forall (fun c => std3_char c = true) l
      /\ wchar_at l 0 <> 45 /\ wchar_at l (len l - 1) <> 45).

(** A name of plain labels; only the last one may be empty. *)
Fixpoint plain_name (flags : Z) (ls : list (list Z)) : Prop :=
  match ls with
  | [] => True
  | l :: rest =>
      plain_label flags l
      /\ match rest with
         | [] => True
         | _ :: _ => l <> [] /\ plain_name flags rest
         end
  end.

Lemma wchar_at_past (l : list Z) (k : Z) :
  len l <= k -> wchar_at l k = 0.
Proof.
  intros Hk. unfold wchar_at, len in *. apply nth_overflow. lia.
Qed.

Lemma decode_scan_label (flags : Z) (l tail : list Z) (srclen : Z) :
  forall i delim,
    Forall label_char l -> follows_label tail ->
    (std3 flags = true -> Forall (fun c => std3_char c = true) l) ->
    i + len l + len tail <= srclen ->
    exists delim',
      decode_scan flags (l ++ tail) i srclen delim
      = inr (i + len l, delim').
Proof.
  induction l as [|c l IH]; intros i delim Hl Ht Hstd Hlen.
  - rewrite (@len_nil Z), Z.add_0_r in *. cbn [app].
    destruct Ht as [->|[rest ->]]; [exists delim; reflexivity|].
    exists delim. cbn [decode_scan].
    rewrite len_cons in Hlen. pose proof (len_nonneg rest).
    change (46 >? 0x7f) with false. change (46 =? 0) with false.
    rewrite andb_false_r. reflexivity.
  - inversion Hl as [|? ? [Hc Hdot] Hl']; subst.
    rewrite len_cons in *. pose proof (len_nonneg l).
    pose proof (len_nonneg tail).
    unfold low_ascii in Hc. cbn [app decode_scan].
    destruct (Z.gtb_spec c 0x7f); [lia|].
    destruct (Z.eqb_spec c 0); [lia|]. rewrite andb_false_r. cbn [orb].
    destruct (Z.eqb_spec c 46); [contradiction|].
    assert (Hnext : forall d, exists delim',
               decode_scan flags (l ++ tail) (i + 1) srclen d
               = inr (i + (len l + 1), delim')).
    { intros d. destruct (IH (i + 1) d Hl' Ht) as [d' E].
      - intros Hs. specialize (Hstd Hs). inversion Hstd; assumption.
      - lia.
      - exists d'. rewrite E. f_equal. f_equal. lia. }
    destruct (std3 flags) eqn:Es; cbn [negb].
    + specialize (Hstd eq_refl). inversion Hstd as [|? ? Hc' _]; subst.
      rewrite Hc'. apply Hnext.
    + apply Hnext.
Qed.

Section ToUnicodeFacts.
Variable NtGetNlsSectionPtr : Z -> NTSTATUS * nls_section.
Variable get_char_props : option nls_section -> Z -> Z.
Variable get_combining_class : option nls_section -> Z -> Z.
Variable HANGUL_SBASE : Z.
Variable put_utf16 : Z -> list Z.
Variable before_src : Z.

Local Abbreviation to_unicode :=
  (RtlIdnToUnicode NtGetNlsSectionPtr get_char_props get_combining_class
     HANGUL_SBASE put_utf16 before_src).
Local Abbreviation one_label :=
  (unicode_label get_char_props get_combining_class HANGUL_SBASE
     put_utf16 before_src).
Local Abbreviation all_labels :=
  (unicode_labels get_char_props get_combining_class HANGUL_SBASE
     put_utf16 before_src).

(** What is in [dst] when [l] has been copied: nothing for a length
    query. *)
Definition stored (dstlen : Z) (l : list Z) : list Z :=
  if dstlen =? 0 then [] else l.

(** One turn on a plain label that is not empty: the label is copied,
    with the dot behind it if there is one. *)
Lemma unicode_label_plain (flags : Z) (info : option nls_section)
    (pre l tail src : list Z) (dstlen : Z) :
  src = pre ++ l ++ tail ->
  plain_label flags l -> l <> [] -> follows_label tail ->
  dstlen = 0 \/ len src <= dstlen ->
  one_label flags info src (len src) (len pre) dstlen (len pre)
    (stored dstlen pre)
  = (Go (len (pre ++ l ++ firstn 1 tail))
        (stored dstlen (pre ++ l ++ firstn 1 tail)),
     len (pre ++ l ++ firstn 1 tail)).
Proof.
  intros Hsrc (Hchars & Hace & Hshort & Hstd) Hne Htail Hroom.
  assert (Hlen : len src = len pre + len l + len tail)
    by (subst src; rewrite !len_app; lia).
  pose proof (len_nonneg pre) as Hp. pose proof (len_nonneg l) as Hl.
  pose proof (len_nonneg tail) as Ht.
  assert (Hpos : 0 < len l).
  { destruct l; [contradiction|]. rewrite len_cons.
    pose proof (len_nonneg l). lia. }
  unfold unicode_label.
  rewrite Hsrc at 1. rewrite skipn_app_len.
  destruct (decode_scan_label flags l tail (len src) (len pre) 0
              Hchars Htail) as [delim E].
  { intros Hs. apply (Hstd Hs). }
  { lia. }
  rewrite E.
  destruct (Z.eqb_spec (len pre) (len pre + len l)); [lia|]. cbn [andb].
  replace (len pre + len l - len pre) with (len l) by lia.
  (* the units the prefix test and the hyphen test read *)
  assert (Hat : forall k, 0 <= k < len l ->
                  wchar_at src (len pre + k) = wchar_at l k).
  { intros k Hk. rewrite Hsrc. apply wchar_at_middle. exact Hk. }
  assert (Htest :
            (len l <? 4)
            || (negb (wchar_at src (len pre) =? 120)
                && negb (wchar_at src (len pre) =? 88))
            || (negb (wchar_at src (len pre + 1) =? 110)
                && negb (wchar_at src (len pre + 1) =? 78))
            || negb (wchar_at src (len pre + 2) =? 45)
            || negb (wchar_at src (len pre + 3) =? 45) = true).
  { destruct (Z.ltb_spec (len l) 4) as [Hlt|Hge]; [reflexivity|].
    rewrite <- (Z.add_0_r (len pre)) at 1 2.
    rewrite !Hat by lia.
    unfold ace_prefixed in Hace.
    destruct (Z.leb_spec 4 (len l)); [|lia].
    destruct (wchar_at l 0 =? 120); destruct (wchar_at l 0 =? 88);
      destruct (wchar_at l 1 =? 110); destruct (wchar_at l 1 =? 78);
      destruct (wchar_at l 2 =? 45); destruct (wchar_at l 3 =? 45);
      cbn in Hace |- *; congruence. }
  rewrite Htest.
  destruct (Z.gtb_spec (len l) 63); [lia|].
  assert (Hhyphen :
            std3 flags
            && ((wchar_at src (len pre) =? 45)
                || (src_at before_src src (len pre + len l - 1) =? 45))
            = false).
  { destruct (std3 flags); [|reflexivity].
    destruct (Hstd eq_refl) as (_ & H0 & Hlast).
    unfold src_at.
    destruct (Z.ltb_spec (len pre + len l - 1) 0); [lia|].
    rewrite <- (Z.add_0_r (len pre)) at 1.
    replace (len pre + len l - 1) with (len pre + (len l - 1)) by lia.
    rewrite !Hat by lia.
    destruct (Z.eqb_spec (wchar_at l 0) 45); [contradiction|].
    destruct (Z.eqb_spec (wchar_at l (len l - 1)) 45); [contradiction|].
    reflexivity. }
  rewrite Hhyphen.
  assert (Hcopied : forall count,
            count = len (l ++ firstn 1 tail) ->
            firstn (Z.to_nat count) (skipn (Z.to_nat (len pre)) src)
            = l ++ firstn 1 tail).
  { intros count ->. rewrite Hsrc, skipn_app_len.
    replace (l ++ tail) with ((l ++ firstn 1 tail) ++ skipn 1 tail)
      by (rewrite <- app_assoc, firstn_skipn; reflexivity).
    apply firstn_app_len. }
  destruct Htail as [->|[rest ->]].
  - (* the last label *)
    rewrite (@len_nil Z) in *. cbn [firstn] in *. rewrite !app_nil_r in *.
    destruct (Z.ltb_spec (len pre + len l) (len src)); [lia|].
    replace (len pre + (len pre + len l) - len pre)
      with (len (pre ++ l)) by (rewrite len_app; lia).
    replace (len pre + len l) with (len (pre ++ l))
      by (rewrite len_app; lia).
    unfold stored.
    destruct (Z.eqb_spec dstlen 0); [reflexivity|].
    destruct Hroom as [Hz|Hroom]; [contradiction|].
    destruct (Z.leb_spec (len (pre ++ l)) dstlen);
      [|rewrite len_app in *; lia].
    rewrite len_app.
    replace (len pre + len l - len pre) with (len l) by lia.
    rewrite (Hcopied (len l)) by reflexivity. reflexivity.
  - (* a label and its dot *)
    rewrite len_cons in *. pose proof (len_nonneg rest).
    cbn [firstn] in *.
    destruct (Z.ltb_spec (len pre + len l) (len src)); [|lia].
    assert (Hnew : len (pre ++ l ++ [46]) = len pre + len l + 1)
      by (rewrite !len_app, len_cons, (@len_nil Z); lia).
    replace (len pre + (len pre + len l + 1) - len pre)
      with (len (pre ++ l ++ [46])) by lia.
    replace (len pre + len l + 1) with (len (pre ++ l ++ [46])) by lia.
    unfold stored.
    destruct (Z.eqb_spec dstlen 0); [reflexivity|].
    destruct Hroom as [Hz|Hroom]; [contradiction|].
    destruct (Z.leb_spec (len (pre ++ l ++ [46])) dstlen); [|lia].
    rewrite Hnew.
    replace (len pre + len l + 1 - len pre) with (len l + 1) by lia.
    rewrite (Hcopied (len l + 1))
      by (rewrite len_app, len_cons, (@len_nil Z); lia).
    reflexivity.
Qed.

Lemma unicode_labels_plain (flags : Z) (info : option nls_section)
    (src : list Z) (dstlen : Z) :
  dstlen = 0 \/ len src <= dstlen ->
  forall ls fuel pre,
    src = pre ++ dotted ls ->
    plain_name flags ls ->
    (S (length (dotted ls)) < fuel)%nat ->
    all_labels fuel flags info src (len src) (len pre) dstlen (len pre)
      (stored dstlen pre)
    = Go (len src) (stored dstlen src).
Proof.
  intros Hroom.
  induction ls as [|l rest IH]; intros fuel pre Hsrc Hplain Hfuel;
    (destruct fuel as [|fuel]; [lia|]); cbn [unicode_labels].
  - cbn [dotted] in Hsrc. rewrite app_nil_r in Hsrc. subst pre.
    destruct (Z.ltb_spec (len src) (len src)); [lia | reflexivity].
  - destruct Hplain as [Hl Hrest].
    destruct rest as [|l' rest'].
    + (* the last label *)
      cbn [dotted] in Hsrc, Hfuel.
      destruct l as [|c l].
      * rewrite app_nil_r in Hsrc. subst pre.
        destruct (Z.ltb_spec (len src) (len src)); [lia | reflexivity].
      * assert (Hlt : len pre < len src).
        { subst src. rewrite len_app, len_cons.
          pose proof (len_nonneg l). lia. }
        destruct (Z.ltb_spec (len pre) (len src)); [|lia].
        rewrite (unicode_label_plain flags info pre (c :: l) [] src dstlen);
          [|rewrite app_nil_r; exact Hsrc | exact Hl | discriminate
           |left; reflexivity | exact Hroom].
        cbn [firstn]. rewrite app_nil_r, <- Hsrc.
        destruct fuel as [|fuel]; [cbn [length] in Hfuel; lia|].
        cbn [unicode_labels].
        destruct (Z.ltb_spec (len src) (len src)); [lia | reflexivity].
    + (* a label with more behind it *)
      destruct Hrest as [Hne Hrest].
      change (dotted (l :: l' :: rest'))
        with (l ++ 46 :: dotted (l' :: rest')) in Hsrc, Hfuel.
      assert (Hlt : len pre < len src).
      { subst src. rewrite !len_app, len_cons.
        pose proof (len_nonneg l).
        pose proof (len_nonneg (dotted (l' :: rest'))). lia. }
      destruct (Z.ltb_spec (len pre) (len src)); [|lia].
      rewrite (unicode_label_plain flags info pre l
                 (46 :: dotted (l' :: rest')) src dstlen);
        [|exact Hsrc | exact Hl | exact Hne
         |right; eexists; reflexivity | exact Hroom].
      cbn [firstn].
      apply IH.
      * rewrite Hsrc, <- !app_assoc. reflexivity.
      * exact Hrest.
      * rewrite length_app in Hfuel. cbn [length] in Hfuel. lia.
Qed.

(** X28.  Names without the ACE prefix pass RtlIdnToUnicode unchanged:
    for a name of plain labels joined by dots, the last label possibly
    empty, with the table of form 13 there and a destination that holds
    the name (or none, for a length query), RtlIdnToUnicode succeeds,
    reports the length of the name and stores the name itself. *)
Theorem plain_names_decode_to_themselves (flags : Z) (ls : list (list Z))
    (dstlen : Z) (sh sh' : shared) (info : option nls_section) :
  load_norm_table NtGetNlsSectionPtr 13 sh = (STATUS_SUCCESS, info, sh') ->
  plain_name flags ls ->
  dstlen = 0 \/ len (dotted ls) <= dstlen ->
  to_unicode flags (Some (dotted ls)) (len (dotted ls)) dstlen sh
  = Got (mk_idn STATUS_SUCCESS (Some (len (dotted ls)))
                (if dstlen =? 0 then [] else dotted ls),
         sh').
Proof.
  intros Hload Hplain Hroom. unfold RtlIdnToUnicode.
  pose proof (len_nonneg (dotted ls)) as Hlen.
  destruct (Z.ltb_spec (len (dotted ls)) (-1)); [lia|].
  destruct (Z.eqb_spec (len (dotted ls)) (-1)); [lia|].
  rewrite Hload. change (failed STATUS_SUCCESS) with false. cbv iota.
  rewrite units_all.
  pose proof (unicode_labels_plain flags info (dotted ls) dstlen Hroom
                ls (S (S (length (dotted ls)))) [] eq_refl Hplain)
    as Hloop.
  rewrite (@len_nil Z) in Hloop. unfold stored in Hloop at 1.
  replace (if dstlen =? 0 then [] else []) with (@nil Z) in Hloop
    by (destruct (dstlen =? 0); reflexivity).
  rewrite Hloop by lia. reflexivity.
Qed.
End ToUnicodeFacts.

(** "www.example.com" passes unchanged; the ACE forms of the samples
    above decode to the names they were made from; a run of the digit 9
    drives the weight of the decoder out of the ints. *)
Lemma plain_names_decode_to_themselves_witness :
  RtlIdnToUnicode (sample_provider 13) sample_props (fun _ _ => 0) 0xac00
    sample_put_utf16 45 0
    (Some (dotted [[119; 119; 119]; [101; 120; 97; 109; 112; 108; 101];
                   [99; 111; 109]]))
    (len (dotted [[119; 119; 119]; [101; 120; 97; 109; 112; 108; 101];
                  [99; 111; 109]])) 32 initial
  = Got (mk_idn STATUS_SUCCESS
           (Some (len (dotted [[119; 119; 119];
                               [101; 120; 97; 109; 112; 108; 101];
                               [99; 111; 109]])))
           (if 32 =? 0 then []
            else dotted [[119; 119; 119];
                         [101; 120; 97; 109; 112; 108; 101];
                         [99; 111; 109]]),
         snd (load_norm_table (sample_provider 13) 13 initial)).
Proof.
  apply (plain_names_decode_to_themselves (sample_provider 13) sample_props
           (fun _ _ => 0) 0xac00 sample_put_utf16 45 0
           [[119; 119; 119]; [101; 120; 97; 109; 112; 108; 101];
            [99; 111; 109]]
           32 initial
           (snd (load_norm_table (sample_provider 13) 13 initial))
           (Some (sample_table 13))).
  - reflexivity.
  - cbn [plain_name]. unfold plain_label.
    repeat split; try discriminate; try (vm_compute; discriminate);
      repeat constructor; unfold low_ascii; lia.
  - right. vm_compute. discriminate.
Defined.

Example punycode_decode_samples :
  let to_unicode name :=
    match RtlIdnToUnicode (sample_provider 13) sample_props (fun _ _ => 0)
            0xac00 sample_put_utf16 0 0 (Some name) (len name) 64
            initial with
    | Got (r, _) => Some (i_status r, i_written r)
    | _ => None
    end in
  (* the empty string under the STD3 rules: the answer is that of the
     unit in front of it *)
  let empty_std3 before :=
    match RtlIdnToUnicode (sample_provider 13) sample_props (fun _ _ => 0)
            0xac00 sample_put_utf16 before IDN_USE_STD3_ASCII_RULES
            (Some [0]) (-1) 64 initial with
    | Got (r, _) => Some (i_status r, i_written r)
    | _ => None
    end in
  to_unicode [120; 110; 45; 45; 98; 99; 104; 101; 114; 45; 107; 118; 97]
    = Some (STATUS_SUCCESS, [0x62; 0xfc; 0x63; 0x68; 0x65; 0x72])
  /\ to_unicode [120; 110; 45; 45; 51; 66; 45; 119; 119; 52; 99; 53; 101;
                 49; 56; 48; 101; 53; 55; 53; 97; 54; 53; 108; 115; 121;
                 50; 98]
     = Some (STATUS_SUCCESS,
             [0x33; 0x5e74; 0x42; 0x7d44; 0x91d1; 0x516b; 0x5148; 0x751f])
  /\ to_unicode [120; 110; 45; 45; 57; 57; 57; 57; 57; 57; 57; 57; 57;
                 57; 57]
     = None
  /\ empty_std3 0 = Some (STATUS_SUCCESS, [0])
  /\ empty_std3 45 = Some (STATUS_INVALID_IDN_NORMALIZATION, []).
Proof. vm_compute. repeat split. Qed.

End PunycodeDecodeFacts.

(** ** The variable-length integers of Punycode, written and read *)

Module PunycodeDigitsFacts.
Import Punycode PunycodeDecode CodePageFacts.

Lemma threshold_range (k bias : Z) : 1 <= threshold k bias <= 26.
Proof.
  unfold threshold, TMIN, TMAX.
  destruct (Z.leb_spec k bias); [lia|].
  destruct (Z.geb_spec k (bias + 26)); lia.
Qed.

(** A letter a-z or a digit 0-9. *)
Definition base36_char (c : Z) : Prop :=
  97 <= c <= 122 \/ 48 <= c <= 57.

(** The unit written for a digit is read back as that digit. *)
Lemma digit_of_written (disp : Z) :
  0 <= disp <= 35 ->
  let c := if disp <=? 25 then 97 + disp else 48 + disp - 26 in
  digit_of c = Some disp /\ base36_char c.
Proof.
  intros H. cbv zeta. unfold digit_of, base36_char.
  destruct (Z.leb_spec disp 25).
  - destruct (Z.leb_spec 97 (97 + disp)); [|lia].
    destruct (Z.leb_spec (97 + disp) 122); [|lia].
    cbn [andb]. split; [f_equal; lia | lia].
  - destruct (Z.leb_spec 97 (48 + disp - 26)); [lia|]. cbn [andb].
    destruct (Z.leb_spec 65 (48 + disp - 26)); [lia|]. cbn [andb].
    destruct (Z.leb_spec 48 (48 + disp - 26)); [|lia].
    destruct (Z.leb_spec (48 + disp - 26) 57); [|lia].
    cbn [andb]. split; [f_equal; lia | lia].
Qed.

Lemma emit_digits_turn (f : nat) (q k bias : Z) (res : list Z) :
  emit_digits (S f) q k bias res =
  let t := threshold k bias in
  let disp := if q <? t then q else t + Z.rem (q - t) (BASE - t) in
  if len res + 1 >? ARRAY_SIZE_res
  then Fails STATUS_INVALID_IDN_NORMALIZATION
  else
    let res := res ++ [if disp <=? 25 then 97 + disp else 48 + disp - 26] in
    if q <? t then Got res
    else emit_digits f (Z.quot (q - t) (BASE - t)) (k + BASE) bias res.
Proof. reflexivity. Qed.

(** The digits of [q]: written by the loop of the encoder within the
    turns allowed, and read back by the loop of the decoder as [q]
    times the weight it starts with. *)
Lemma digits_written_and_read (bias : Z) (rest : list Z) :
  forall (f : nat) (q k pos w : Z) (res : list Z) (i : Z),
    0 <= q < 10 ^ Z.of_nat f ->
    0 <= pos -> 1 <= w ->
    pos + q * w <= INT_MAX ->
    35 * (w * q) <= INT_MAX ->
    len res + Z.of_nat (S f) <= ARRAY_SIZE_res ->
    exists digits,
      emit_digits (S f) q k bias res = Got (res ++ digits)
      /\ 1 <= len digits <= Z.of_nat (S f)
      /\ Forall base36_char digits
      /\ forall end_,
           i + len digits <= end_ ->
           decode_digits (digits ++ rest) i end_ k bias pos w
           = Got (pos + q * w, i + len digits, rest).
Proof.
  induction f as [|f IH]; intros q k pos w res i Hq Hpos Hw Hsum Hmul Hroom.
  - (* q = 0: one digit *)
    assert (q = 0) by (change (10 ^ Z.of_nat 0) with 1 in Hq; lia).
    subst q. pose proof (threshold_range k bias) as Ht.
    rewrite emit_digits_turn. cbv zeta.
    destruct (Z.ltb_spec 0 (threshold k bias)); [|lia].
    destruct (Z.gtb_spec (len res + 1) ARRAY_SIZE_res);
      [change (Z.of_nat 1) with 1 in Hroom; lia|].
    exists [97]. change (0 <=? 25) with true. cbv iota.
    change (97 + 0) with 97.
    split; [reflexivity|]. split; [cbn; lia|].
    split; [constructor; [unfold base36_char; lia | constructor]|].
    intros end_ Hend. rewrite len_cons, (@len_nil Z) in Hend |- *.
    cbn [app decode_digits].
    destruct (Z.geb_spec i end_); [lia|].
    change (digit_of 97) with (Some 0). cbv iota zeta.
    rewrite Z.mul_0_l, Z.add_0_r in *.
    destruct (Z.gtb_spec pos INT_MAX); [lia|].
    destruct (Z.ltb_spec 0 (threshold k bias)); [|lia].
    reflexivity.
  - pose proof (threshold_range k bias) as Ht.
    set (t := threshold k bias) in *.
    rewrite Nat2Z.inj_succ in Hq, Hroom. rewrite Nat2Z.inj_succ.
    pose proof (Nat2Z.is_nonneg f) as Hf.
    rewrite emit_digits_turn. cbv zeta. fold t.
    destruct (Z.gtb_spec (len res + 1) ARRAY_SIZE_res);
      [rewrite Nat2Z.inj_succ in Hroom; lia|].
    destruct (Z.ltb_spec q t) as [Hlast|Hmore].
    + (* the last digit *)
      destruct (digit_of_written q) as [Hd Hc]; [lia|]. cbv zeta in Hd, Hc.
      eexists [_]. split; [reflexivity|].
      split; [rewrite len_cons, (@len_nil Z); lia|].
      split; [constructor; [exact Hc | constructor]|].
      intros end_ Hend. rewrite len_cons, (@len_nil Z) in Hend |- *.
      cbn [app decode_digits].
      destruct (Z.geb_spec i end_); [lia|].
      rewrite Hd. cbv iota zeta. fold t.
      destruct (Z.gtb_spec (pos + q * w) INT_MAX); [lia|].
      destruct (Z.ltb_spec q t); [|lia].
      reflexivity.
    + (* a digit with more to come *)
      assert (Hbase : 10 <= BASE - t <= 35) by (unfold BASE; lia).
      set (radix := BASE - t) in *.
      pose proof (Z.quot_rem' (q - t) radix) as Hqr.
      pose proof (Z.rem_bound_pos (q - t) radix) as Hr.
      assert (Hq' : 0 <= Z.quot (q - t) radix) by (apply Z.quot_pos; lia).
      set (q' := Z.quot (q - t) radix) in *.
      set (r := Z.rem (q - t) radix) in *.
      specialize (Hr ltac:(lia) ltac:(lia)).
      destruct (digit_of_written (t + r)) as [Hd Hc];
        [unfold radix, BASE in *; lia|]. cbv zeta in Hd, Hc.
      assert (Hq'lt : q' < 10 ^ Z.of_nat f).
      { rewrite Z.pow_succ_r in Hq by lia.
        assert (10 * q' <= q) by nia. lia. }
      assert (Hw' : 1 <= w * radix) by nia.
      assert (Hval : pos + (t + r) * w + q' * (w * radix) = pos + q * w)
        by nia.
      assert (Hmul' : 35 * (w * radix * q') <= INT_MAX).
      { assert (w * radix * q' <= w * q) by nia. lia. }
      assert (Hwmax : w * radix <= INT_MAX).
      { assert (w * radix <= 35 * (w * q)) by nia. lia. }
      destruct (IH q' (k + BASE) (pos + (t + r) * w) (w * radix)
                  (res ++ [if t + r <=? 25 then 97 + (t + r)
                           else 48 + (t + r) - 26])
                  (i + 1))
        as (digits & Hemit & Hlen & Hchars & Hread).
      * lia.
      * nia.
      * exact Hw'.
      * lia.
      * exact Hmul'.
      * rewrite len_app, len_cons, (@len_nil Z), Nat2Z.inj_succ. lia.
      * eexists (_ :: digits). rewrite Hemit, <- app_assoc. cbn [app].
        split; [reflexivity|].
        split; [rewrite len_cons, Nat2Z.inj_succ in *; lia|].
        split; [constructor; [exact Hc | exact Hchars]|].
        intros end_ Hend. rewrite len_cons in Hend |- *.
        cbn [app decode_digits].
        destruct (Z.geb_spec i end_); [lia|].
        rewrite Hd. cbv iota zeta. fold t. fold radix.
        destruct (Z.gtb_spec (pos + (t + r) * w) INT_MAX); [nia|].
        destruct (Z.ltb_spec (t + r) t); [lia|].
        destruct (Z.gtb_spec (w * radix) INT_MAX); [lia|].
        rewrite (Hread end_) by lia.
        rewrite Hval. f_equal. f_equal. f_equal. lia.
Qed.

(** X29.  The digits RtlIdnToAscii writes for a delta are the ones
    RtlIdnToUnicode reads back as that delta: with the same bias, the
    emitting loop writes between 1 and 32 letters a-z or digits 0-9 for
    any delta from 0 to INT_MAX / 35, and the reading loop, started on
    these units with weight 1, adds exactly the delta to its position,
    uses up exactly these units and overflows no int. *)
Theorem punycode_digits_round_trip (delta bias pos : Z)
    (res rest : list Z) (i : Z) :
  0 <= delta -> 35 * delta <= INT_MAX ->
  0 <= pos -> pos + delta <= INT_MAX ->
  len res + 32 <= ARRAY_SIZE_res ->
  exists digits,
    emit_digits 32 delta BASE bias res = Got (res ++ digits)
    /\ 1 <= len digits <= 32
    /\ Forall base36_char digits
    /\ forall end_,
         i + len digits <= end_ ->
         decode_digits (digits ++ rest) i end_ BASE bias pos 1
         = Got (pos + delta, i + len digits, rest).
Proof.
  intros Hdelta Hmul Hpos Hsum Hroom.
  destruct (digits_written_and_read bias rest 31 delta BASE pos 1 res i)
    as (digits & Hemit & Hlen & Hchars & Hread).
  - split; [exact Hdelta|]. unfold INT_MAX in Hmul.
    change (10 ^ Z.of_nat 31) with 10000000000000000000000000000000. lia.
  - exact Hpos.
  - lia.
  - lia.
  - lia.
  - change (Z.of_nat 32) with 32. exact Hroom.
  - exists digits. rewrite Z.mul_1_r in Hread.
    change (Z.of_nat 32) with 32 in Hlen.
    repeat split; try assumption; lia.
Qed.

(** The delta 745 of the first code point of a label "b", u-umlaut,
    "cher", written as "kva". *)
Lemma punycode_digits_round_trip_witness :
  exists digits,
    emit_digits 32 745 BASE 72 [98; 99; 104; 101; 114; 45]
    = Got ([98; 99; 104; 101; 114; 45] ++ digits)
    /\ 1 <= len digits <= 32
    /\ Forall base36_char digits
    /\ forall end_,
         6 + len digits <= end_ ->
         decode_digits (digits ++ []) 6 end_ BASE 72 0 1
         = Got (0 + 745, 6 + len digits, []).
Proof.
  apply (punycode_digits_round_trip 745 72 0
           [98; 99; 104; 101; 114; 45] [] 6);
    unfold INT_MAX, ARRAY_SIZE_res; cbn; lia.
Defined.

End PunycodeDigitsFacts.

(** ** The encoding loop of RtlIdnToAscii finishes *)

Module PunycodeLoopFacts.
Import Punycode PunycodeDecode PunycodeDigitsFacts CodePageFacts.

(** The entries of a label that satisfy [p]. *)
Definition count (p : Z -> bool) (l : list Z) : Z := len (filter p l).















End PunycodeLoopFacts.
